(** * TonnetzGrid: a shallow embedding of [music.py]

    The development follows the structure of the Python class [TonnetzGrid]:
    the pitch lattice ([create_tonnetz_grid]), the hexagon layout and
    hit-test ([create_hexagons], [point_in_hex], [find_hex_at_point]), the
    toggle / drag / chord handlers, the looping-note registry and the tone
    synthesizer ([generate_long_tone]).

    Conventions of the embedding
    - Python [int] is [Z]; [//] and [%] with a positive divisor are [Z.div]
      and [Z.modulo] (both floor, as in Python).
    - Python [float] (binary64) is a value [m * 2^e] ([Float.float]); every
      arithmetic operation computes the exact result and rounds it to 53
      significant bits, ties to even.  The exponent of a value is not
      bounded; [Float.finite] tells whether a value fits binary64's range.
      The lattice construction ([build_lattice]) checks it where Python
      raises; elsewhere overflow, subnormals, infinities and NaN are outside
      the model.
    - A Python [dict] is an insertion-ordered association list ([pydict])
      whose [dict_set] overwrites in place or appends; a Python [set] is a
      [gset].
    - Statements that only repaint the figure ([set_facecolor], [set_alpha],
      [draw_idle], the chord triangle) have no counterpart; the commands sent
      to the mixer and the calls of [toggle_note] are recorded in the
      [history] field of the state. *)

From Stdlib Require Import ZArith Lia Ascii String QArith Qround.
From stdpp Require Import base decidable list gmap strings.

Local Open Scope Z_scope.
Set Warnings "-clear-no-such-hyp".

(** ** Binary64 arithmetic *)

Module Float.

Record float := mk { mant : Z; expo : Z }.

Definition prec : Z := 53.

(** [rne_shift m k]: [m / 2^k] rounded to the nearest integer, ties to even. *)
Definition rne_shift (m k : Z) : Z :=
  let q := m / 2 ^ k in
  let r := m mod 2 ^ k in
  let half := 2 ^ (k - 1) in
  if r <? half then q
  else if half <? r then q + 1
  else if Z.even q then q else q + 1.

(** Rounding of the exact value [m * 2^e] to 53 significant bits. *)
Definition round (m e : Z) : float :=
  let k := Z.log2 (Z.abs m) + 1 - prec in
  if 0 <? k then mk (rne_shift m k) (e + k) else mk m e.

(** Conversion of a Python int. *)
Definition of_Z (z : Z) : float := round z 0.

(** The mantissa of [x] once its exponent is lowered to [e <= expo x]. *)
Definition align (x : float) (e : Z) : Z := mant x * 2 ^ (expo x - e).

Definition add (x y : float) : float :=
  let e := Z.min (expo x) (expo y) in round (align x e + align y e) e.

Definition sub (x y : float) : float :=
  let e := Z.min (expo x) (expo y) in round (align x e - align y e) e.

Definition mul (x y : float) : float :=
  round (mant x * mant y) (expo x + expo y).

(** Division keeps 55 quotient bits and a sticky bit, so that the final
    rounding is the rounding of the exact quotient.  The divisor is non-zero
    wherever the program divides; [div x 0] is left at [0]. *)
Definition div (x y : float) : float :=
  if (mant y =? 0) || (mant x =? 0) then mk 0 0
  else
    let a := Z.abs (mant x) in
    let b := Z.abs (mant y) in
    let s := Z.max 0 (55 + Z.log2 b - Z.log2 a) in
    let q := (a * 2 ^ s) / b in
    let sticky := if (a * 2 ^ s) mod b =? 0 then 0 else 1 in
    let sgn := Z.sgn (mant x) * Z.sgn (mant y) in
    round (sgn * (2 * q + sticky)) (expo x - expo y - s - 1).

Definition abs (x : float) : float := mk (Z.abs (mant x)) (expo x).

Definition ltb (x y : float) : bool :=
  let e := Z.min (expo x) (expo y) in align x e <? align y e.

Definition leb (x y : float) : bool :=
  let e := Z.min (expo x) (expo y) in align x e <=? align y e.

Definition eqb (x y : float) : bool :=
  let e := Z.min (expo x) (expo y) in align x e =? align y e.

Definition gtb (x y : float) : bool := ltb y x.

(** Whether [x] is below [2^1024] in magnitude.  Beyond that, the conversion
    of an int raises [OverflowError] and an operation returns an infinity. *)
Definition finite (x : float) : bool :=
  (mant x =? 0) || (Z.log2 (Z.abs (mant x)) + expo x <? 1024).

(** [x] has exactly the integer value [z]. *)
Definition is_Z (x : float) (z : Z) : bool := eqb x (mk z 0).

(** [int(x)]: truncation towards zero. *)
Definition trunc (x : float) : Z :=
  if 0 <=? expo x then mant x * 2 ^ expo x
  else Z.quot (mant x) (2 ^ (- expo x)).

(** Python's [x % y] on floats: the exact C [fmod], then one addition of [y]
    when the remainder is non-zero and its sign differs from the sign of
    [y]. *)
Definition pymod (x y : float) : float :=
  let e := Z.min (expo x) (expo y) in
  let r := Z.rem (align x e) (align y e) in
  if negb (r =? 0) && negb (Bool.eqb (r <? 0) (align y e <? 0))
  then round (r + align y e) e
  else mk r e.

(** Literals of the program, as their binary64 values. *)
Definition half : float := mk 1 (-1).                          (* 0.5 *)
Definition lit_0_93 : float := mk 8376695306909123 (-53).     (* 0.93 *)
Definition lit_1_7 : float := mk 7656119366529843 (-52).      (* 1.7 *)
Definition lit_0_3 : float := mk 5404319552844595 (-54).      (* 0.3 *)
Definition lit_0_2 : float := mk 7205759403792794 (-55).      (* 0.2 *)
Definition one : float := mk 1 0.                              (* 1.0 *)
Definition pi : float := mk 7074237752028440 (-51).           (* np.pi *)
Definition sqrt3 : float := mk 7800463371553962 (-52).        (* np.sqrt(3) *)

End Float.

(** ** Python dictionaries *)

Section pydict.
Context {K V : Type} `{EqDecision K}.

Definition pydict := list (K * V).

Fixpoint dict_get (k : K) (d : list (K * V)) : option V :=
  match d with
  | [] => None
  | (k', v) :: d' => if decide (k' = k) then Some v else dict_get k d'
  end.

(** [d[k] = v]: overwrite in place, or append a new entry. *)
Fixpoint dict_set (k : K) (v : V) (d : list (K * V)) : list (K * V) :=
  match d with
  | [] => [(k, v)]
  | (k', v') :: d' =>
      if decide (k' = k) then (k, v) :: d' else (k', v') :: dict_set k v d'
  end.

(** [del d[k]] for a key that may be absent. *)
Fixpoint dict_del (k : K) (d : list (K * V)) : list (K * V) :=
  match d with
  | [] => []
  | (k', v') :: d' =>
      if decide (k' = k) then d' else (k', v') :: dict_del k d'
  end.

Definition dict_mem (k : K) (d : list (K * V)) : bool :=
  match dict_get k d with Some _ => true | None => false end.

Definition dict_keys (d : list (K * V)) : list K := map fst d.

End pydict.

Arguments pydict : clear implicits.

(** ** Exceptions *)

(** [KeyError] is what [self.hexagons[(row, col)]] raises on a missing cell.
    [OverflowError] is raised when an int too large for a float meets a
    float, and [ValueError] by [int] on a NaN.  [InvalidLatticeSize] is the
    error the specification names for malformed dimensions; no statement of
    the program raises it. *)
Inductive exn := KeyError | OverflowError | ValueError | InvalidLatticeSize.

Inductive result (A : Type) :=
  | Ok (a : A)
  | Raise (e : exn).

Arguments Ok {A} a.
Arguments Raise {A} e.

#[global] Instance result_ret : MRet result := fun A a => Ok a.

#[global] Instance result_bind : MBind result := fun A B f r =>
  match r with
  | Ok a => f a
  | Raise e => Raise e
  end.

(** ** The pitch lattice *)

Definition coord : Type := Z * Z.

(** [range(n)] *)
Definition range (n : Z) : list Z := seqZ 0 n.

(** [7 * col_offset + 4 * (row_offset - 0.5)]: the int operands are
    converted to float where they meet one. *)
Definition odd_column_sum (row_offset col_offset : Z) : Float.float :=
  Float.add (Float.of_Z (7 * col_offset))
    (Float.mul (Float.of_Z 4) (Float.sub (Float.of_Z row_offset) Float.half)).

(** The body of the double loop of [create_tonnetz_grid] for one cell that
    is not the origin: the value stored at [(row, col)] when the float
    expression stays in range. *)
Definition pitch_index_at (start_row start_col row col : Z) : Z :=
  let row_offset := row - start_row in
  let col_offset := col - start_col in
  if col mod 2 =? 0 then
    (7 * col_offset + 4 * row_offset) mod 12
  else
    let pitch_index :=
      Float.pymod (odd_column_sum row_offset col_offset) (Float.of_Z 12) in
    Float.trunc pitch_index mod 12.

Definition grid_cell (start_row start_col : Z) (g : pydict coord Z)
    (rc : coord) : pydict coord Z :=
  let '(row, col) := rc in
  if (row =? start_row) && (col =? start_col) then g
  else dict_set (row, col) (pitch_index_at start_row start_col row col) g.

Definition grid_row (start_row start_col cols : Z) (g : pydict coord Z)
    (row : Z) : pydict coord Z :=
  foldl (fun g col => grid_cell start_row start_col g (row, col)) g (range cols).

(** [create_tonnetz_grid], on the dictionary [self.grid]: what the loops
    leave there when they run to their end. *)
Definition create_tonnetz_grid (rows cols : Z) (grid : pydict coord Z)
    : pydict coord Z :=
  let start_row := rows / 2 in
  let start_col := cols / 2 in
  let grid := dict_set (start_row, start_col) 0 grid in
  foldl (grid_row start_row start_col cols) grid (range rows).

(** The cells visited by the double loop, in order. *)
Definition lattice_cells (rows cols : Z) : list coord :=
  r ← range rows; (fun c => (r, c)) <$> range cols.

(** The conversion of an int that meets a float in an arithmetic
    operation. *)
Definition float_of_int (z : Z) : result Float.float :=
  let x := Float.of_Z z in
  if Float.finite x then Ok x else Raise OverflowError.

(** The odd-column branch with its errors.  In
    [(7 * col_offset + 4 * (row_offset - 0.5)) % 12] the ints [row_offset]
    and [7 * col_offset] are converted to float; a product or a sum that
    leaves the range is an infinity, whose remainder is a NaN, on which
    [int] raises. *)
Definition odd_column_pitch (row_offset col_offset : Z) : result Z :=
  x ← float_of_int row_offset;
  let difference := Float.sub x Float.half in
  let product := Float.mul (Float.of_Z 4) difference in
  y ← float_of_int (7 * col_offset);
  let sum := Float.add y product in
  if Float.finite difference && Float.finite product && Float.finite sum
  then Ok (Float.trunc (Float.pymod sum (Float.of_Z 12)) mod 12)
  else Raise ValueError.

(** The body of the double loop for one cell that is not the origin, with
    its errors; [pitch_index_at] is its value when it returns. *)
Definition cell_pitch_index (start_row start_col row col : Z) : result Z :=
  let row_offset := row - start_row in
  let col_offset := col - start_col in
  if col mod 2 =? 0 then Ok ((7 * col_offset + 4 * row_offset) mod 12)
  else odd_column_pitch row_offset col_offset.

(** The double loop over the cells in order, stopping at the first error. *)
Fixpoint build_cells (start_row start_col : Z) (cells : list coord)
    (g : pydict coord Z) : result (pydict coord Z) :=
  match cells with
  | [] => Ok g
  | (row, col) :: cells' =>
      if (row =? start_row) && (col =? start_col)
      then build_cells start_row start_col cells' g
      else
        pitch_index ← cell_pitch_index start_row start_col row col;
        build_cells start_row start_col cells'
          (dict_set (row, col) pitch_index g)
  end.

(** Lattice construction as a whole: [TonnetzGrid(rows, cols)] stores the
    dimensions unchecked and [_post_generation_setup] runs
    [create_tonnetz_grid] on the empty [self.grid], where the only errors
    are those of the odd-column branch. *)
Definition build_lattice (rows cols : Z) : result (pydict coord Z) :=
  let start_row := rows / 2 in
  let start_col := cols / 2 in
  build_cells start_row start_col (lattice_cells rows cols)
    (dict_set (start_row, start_col) 0 []).

(** The rule of the specification, read in exact rational arithmetic:
    [x mod n] is [x - n * floor (x / n)], and truncation is towards zero. *)
Definition spec_mod (q : Q) (n : Z) : Q :=
  (q - inject_Z n * inject_Z (Qfloor (q / inject_Z n)))%Q.

Definition spec_truncate (q : Q) : Z :=
  if Qle_bool 0 q then Qfloor q else Qceiling q.

(** [(7*colOffset + 4*(rowOffset - 0.5)) mod 12], then truncated. *)
Definition spec_odd_pitch (row_offset col_offset : Z) : Z :=
  spec_truncate
    (spec_mod
       (7 * inject_Z col_offset + 4 * (inject_Z row_offset - (1 # 2)))%Q 12).

Definition spec_pitch (rows cols row col : Z) : Z :=
  let row_offset := row - rows / 2 in
  let col_offset := col - cols / 2 in
  if Z.even col then (7 * col_offset + 4 * row_offset) mod 12
  else spec_odd_pitch row_offset col_offset.

(** The same rule in integer arithmetic only. *)
Definition int_odd_pitch (row_offset col_offset : Z) : Z :=
  (7 * col_offset + 4 * row_offset - 2) mod 12.

(** ** Pitch space *)

Local Open Scope string_scope.

Definition pitch_classes : list string :=
  ["C"; "C#"; "D"; "D#"; "E"; "F"; "F#"; "G"; "G#"; "A"; "A#"; "B"].

Definition enharmonics : pydict string string :=
  [("C#", "Db"); ("D#", "Eb"); ("F#", "Gb"); ("G#", "Ab"); ("A#", "Bb");
   ("Db", "C#"); ("Eb", "D#"); ("Gb", "F#"); ("Ab", "G#"); ("Bb", "A#")].

(** [l.index(x)], when [x] occurs in [l]. *)
Fixpoint list_index (x : string) (l : list string) : option Z :=
  match l with
  | [] => None
  | y :: l' =>
      if decide (y = x) then Some 0
      else match list_index x l' with
           | Some i => Some (i + 1)
           | None => None
           end
  end.

Fixpoint first_index (alternatives : list string) : Z :=
  match alternatives with
  | [] => 0
  | alt :: rest =>
      match list_index alt pitch_classes with
      | Some i => i
      | None => first_index rest
      end
  end.

Definition pitch_class_to_index (note : string) : Z :=
  let alternatives :=
    match dict_get note enharmonics with
    | Some other => [note; other]
    | None => [note]
    end in
  first_index alternatives.

Definition index_to_pitch_class (index : Z) : string :=
  nth (Z.to_nat (index mod 12)) pitch_classes "".

Local Close Scope string_scope.

(** ** Strings of key events (ASCII) *)

Definition is_lower (c : ascii) : bool :=
  let n := Z.of_N (N_of_ascii c) in (97 <=? n) && (n <=? 122).

Definition is_upper (c : ascii) : bool :=
  let n := Z.of_N (N_of_ascii c) in (65 <=? n) && (n <=? 90).

Definition upper_char (c : ascii) : ascii :=
  if is_lower c then ascii_of_N (N_of_ascii c - 32) else c.

(** [s.upper()] *)
Fixpoint str_upper (s : string) : string :=
  match s with
  | EmptyString => EmptyString
  | String c s' => String (upper_char c) (str_upper s')
  end.

Fixpoint str_forall (p : ascii -> bool) (s : string) : bool :=
  match s with
  | EmptyString => true
  | String c s' => p c && str_forall p s'
  end.

Definition lower_char (c : ascii) : ascii :=
  if is_upper c then ascii_of_N (N_of_ascii c + 32) else c.

(** [s.lower()] *)
Fixpoint str_lower (s : string) : string :=
  match s with
  | EmptyString => EmptyString
  | String c s' => String (lower_char c) (str_lower s')
  end.

(** [s.isupper()]: some cased character, and no lowercase one. *)
Definition str_isupper (s : string) : bool :=
  negb (str_forall (fun c => negb (is_upper c)) s)
  && str_forall (fun c => negb (is_lower c)) s.

(** [s in t] on strings: [s] occurs in [t] as a substring. *)
Fixpoint str_in (s t : string) : bool :=
  String.prefix s t ||
  match t with
  | EmptyString => false
  | String _ t' => str_in s t'
  end.

(** ** Hexagon geometry *)

Definition point : Type := Float.float * Float.float.

Definition point_in_hex (p hex_center : point) (size : Float.float) : bool :=
  let '(px, py) := p in
  let '(hx, hy) := hex_center in
  let dx := Float.abs (Float.sub px hx) in
  let dy := Float.abs (Float.sub py hy) in
  if Float.gtb dy size then false
  else
    let max_x :=
      Float.mul (Float.mul size Float.sqrt3)
        (Float.sub (Float.of_Z 1)
           (Float.div dy (Float.mul (Float.of_Z 2) size))) in
    Float.leb dx max_x.

Record hex_data := HexData {
  note : string;
  pitch_index : Z;
  position : point;
  active : bool
}.

Definition set_active (b : bool) (h : hex_data) : hex_data :=
  HexData (note h) (pitch_index h) (position h) b.

Definition hex_size : Float.float := Float.half.

Definition h_spacing : Float.float :=
  Float.mul (Float.mul hex_size Float.sqrt3) Float.lit_0_93.

Definition v_spacing : Float.float := Float.mul hex_size Float.lit_1_7.

Definition hex_position (row col : Z) : point :=
  let x := Float.mul (Float.of_Z col) h_spacing in
  let y := Float.mul (Float.of_Z row) v_spacing in
  let y :=
    if col mod 2 =? 1 then Float.add y (Float.div v_spacing (Float.of_Z 2))
    else y in
  (x, y).

(** [create_hexagons]: one hexagon per lattice cell, in the order of
    [self.grid.items()], all inactive. *)
Definition create_hexagons (grid : pydict coord Z) : pydict coord hex_data :=
  foldl (fun hexagons '((row, col), pitch_index) =>
           dict_set (row, col)
             (HexData (index_to_pitch_class pitch_index) pitch_index
                (hex_position row col) false)
             hexagons)
        [] grid.

(** ** Program state *)

Definition channel : Type := nat.

(** What [history] records: calls of [toggle_note], the commands sent to
    mixer channels, and the preview timers started by [highlight_chord]. *)
Inductive call :=
  | ToggleNote (rc : coord) (play_sound : bool)
  | ChannelPlay (ch : channel) (n : string)
  | ChannelStop (ch : channel)
  | PreviewTimer (i : nat) (n : string).

Record TonnetzGrid := Build {
  rows : Z;
  cols : Z;
  note_sounds : gset string;
  playing_notes : pydict string channel;
  grid : pydict coord Z;
  hexagons : pydict coord hex_data;
  active_notes : gset coord;
  chord_highlights : gset coord;
  is_dragging : bool;
  drag_toggle_state : option bool;
  already_toggled : gset coord;
  history : list call
}.

Definition set_playing_notes (v : pydict string channel) (st : TonnetzGrid) :=
  Build (rows st) (cols st) (note_sounds st) v (grid st) (hexagons st)
    (active_notes st) (chord_highlights st) (is_dragging st)
    (drag_toggle_state st) (already_toggled st) (history st).

Definition set_hexagons (v : pydict coord hex_data) (st : TonnetzGrid) :=
  Build (rows st) (cols st) (note_sounds st) (playing_notes st) (grid st) v
    (active_notes st) (chord_highlights st) (is_dragging st)
    (drag_toggle_state st) (already_toggled st) (history st).

Definition set_active_notes (v : gset coord) (st : TonnetzGrid) :=
  Build (rows st) (cols st) (note_sounds st) (playing_notes st) (grid st)
    (hexagons st) v (chord_highlights st) (is_dragging st)
    (drag_toggle_state st) (already_toggled st) (history st).

Definition set_chord_highlights (v : gset coord) (st : TonnetzGrid) :=
  Build (rows st) (cols st) (note_sounds st) (playing_notes st) (grid st)
    (hexagons st) (active_notes st) v (is_dragging st)
    (drag_toggle_state st) (already_toggled st) (history st).

Definition set_drag (dragging : bool) (direction : option bool)
    (visited : gset coord) (st : TonnetzGrid) :=
  Build (rows st) (cols st) (note_sounds st) (playing_notes st) (grid st)
    (hexagons st) (active_notes st) (chord_highlights st) dragging
    direction visited (history st).

Definition log (c : call) (st : TonnetzGrid) :=
  Build (rows st) (cols st) (note_sounds st) (playing_notes st) (grid st)
    (hexagons st) (active_notes st) (chord_highlights st) (is_dragging st)
    (drag_toggle_state st) (already_toggled st) (c :: history st).

(** ** Handlers *)

(** Mouse events carry [event.inaxes == self.ax], the button and the data
    coordinates; key events carry [event.key]. *)
Inductive event :=
  | button_press (inaxes : bool) (button : Z) (xdata ydata : Float.float)
  | motion_notify (inaxes : bool) (xdata ydata : Float.float)
  | button_release
  | key_press (key : string).

Section handlers.

(** The module-level flag set once at import. *)
Variable AUDIO_AVAILABLE : bool.

(** [pregenerate_sounds]: [made n] tells whether [make_sound] succeeded for
    note [n]. *)
Definition pregenerate_sounds (made : string -> bool) : gset string :=
  if negb AUDIO_AVAILABLE then ∅
  else list_to_set (filter (fun n => made n = true) pitch_classes).

(** [find_channel] is the answer of [pygame.mixer.find_channel()], should
    the call be made.  The mixer is initialised at import whenever
    [AUDIO_AVAILABLE] holds and is never shut down, so [find_channel],
    [play] and [stop] do not raise: the [except] branches around them are
    not reached and have no counterpart here. *)
Definition start_continuous_note (find_channel : option channel)
    (n : string) (st : TonnetzGrid) : TonnetzGrid :=
  if negb AUDIO_AVAILABLE || negb (bool_decide (n ∈ note_sounds st)) then st
  else if negb (dict_mem n (playing_notes st)) then
    match find_channel with
    | Some ch =>
        set_playing_notes (dict_set n ch (playing_notes st))
          (log (ChannelPlay ch n) st)
    | None => st
    end
  else st.

Definition stop_playing (st : TonnetzGrid) (n : string) : TonnetzGrid :=
  match dict_get n (playing_notes st) with
  | Some ch =>
      set_playing_notes (dict_del n (playing_notes st))
        (log (ChannelStop ch) st)
  | None => st
  end.

Definition stop_continuous_note (n : string) (st : TonnetzGrid)
    : TonnetzGrid :=
  if negb AUDIO_AVAILABLE then st else stop_playing st n.

Definition toggle_note (find_channel : option channel) (rc : coord)
    (play_sound : bool) (st : TonnetzGrid) : result TonnetzGrid :=
  match dict_get rc (hexagons st) with
  | None => Raise KeyError
  | Some hex =>
      let st := log (ToggleNote rc play_sound) st in
      if bool_decide (rc ∈ active_notes st) then
        let st := set_active_notes (active_notes st ∖ {[rc]}) st in
        let st :=
          set_hexagons (dict_set rc (set_active false hex) (hexagons st)) st in
        Ok (if play_sound then stop_continuous_note (note hex) st else st)
      else
        let st := set_active_notes (active_notes st ∪ {[rc]}) st in
        let st :=
          set_hexagons (dict_set rc (set_active true hex) (hexagons st)) st in
        Ok (if play_sound then start_continuous_note find_channel (note hex) st
            else st)
  end.

(** The first loop of [clear_chord_highlights] reads [self.hexagons] at
    every highlighted cell that is not active. *)
Definition clear_chord_highlights (st : TonnetzGrid) : result TonnetzGrid :=
  if forallb (fun rc => bool_decide (rc ∈ active_notes st)
                        || dict_mem rc (hexagons st))
       (elements (chord_highlights st))
  then Ok (set_chord_highlights ∅ st)
  else Raise KeyError.

(** The chord of [highlight_chord], from the index of its root. *)
Definition chord_indices (root_index : Z) (quality : string) : list Z :=
  if String.eqb quality "major" then
    [root_index; (root_index + 4) mod 12; (root_index + 7) mod 12]
  else
    [root_index; (root_index + 3) mod 12; (root_index + 7) mod 12].

(** The body of the loop over [self.hexagons.items()] in [highlight_chord]. *)
Definition highlight_cell (indices : list Z) (st : TonnetzGrid)
    (cell : coord * hex_data) : TonnetzGrid :=
  let '(rc, hex) := cell in
  if bool_decide (pitch_index hex ∈ indices)
  then set_chord_highlights (chord_highlights st ∪ {[rc]}) st
  else st.

(** [threading.Timer(i * 0.2, self.play_chord_preview, args=[note]).start()] *)
Definition start_timer (st : TonnetzGrid) (t : nat * string) : TonnetzGrid :=
  let '(i, n) := t in log (PreviewTimer i n) st.

Definition highlight_chord (root quality : string) (st : TonnetzGrid)
    : result TonnetzGrid :=
  st ← clear_chord_highlights st;
  let root_index := pitch_class_to_index root in
  let indices := chord_indices root_index quality in
  let st := foldl (highlight_cell indices) st (hexagons st) in
  let chord_notes := map index_to_pitch_class indices in
  Ok (foldl start_timer st (imap (fun i n => (i, n)) chord_notes)).

(** The last loop of [clear_all]: [hex_data['active'] = False] at every
    active cell. *)
Fixpoint deactivate (cells : list coord) (hexagons : pydict coord hex_data)
    : result (pydict coord hex_data) :=
  match cells with
  | [] => Ok hexagons
  | rc :: cells' =>
      match dict_get rc hexagons with
      | None => Raise KeyError
      | Some hex => deactivate cells' (dict_set rc (set_active false hex) hexagons)
      end
  end.

Definition clear_all (st : TonnetzGrid) : result TonnetzGrid :=
  st ← clear_chord_highlights st;
  if negb AUDIO_AVAILABLE then Ok st
  else
    let notes_to_stop := dict_keys (playing_notes st) in
    let st := foldl stop_playing st notes_to_stop in
    hexagons' ← deactivate (elements (active_notes st)) (hexagons st);
    Ok (set_active_notes ∅ (set_hexagons hexagons' st)).

Definition find_hex_at_point (x y : Float.float) (st : TonnetzGrid)
    : option coord :=
  match list_find (fun '(_, hex) =>
                     point_in_hex (x, y) (position hex) Float.half = true)
          (hexagons st) with
  | Some (_, (rc, _)) => Some rc
  | None => None
  end.

Definition on_press (find_channel : option channel) (inaxes : bool)
    (button : Z) (xdata ydata : Float.float) (st : TonnetzGrid)
    : result TonnetzGrid :=
  if negb inaxes || negb (button =? 1) then Ok st
  else
    match find_hex_at_point xdata ydata st with
    | Some hex_pos =>
        let direction := negb (bool_decide (hex_pos ∈ active_notes st)) in
        let st := set_drag true (Some direction) {[hex_pos]} st in
        toggle_note find_channel hex_pos true st
    | None => Ok st
    end.

Definition on_motion (find_channel : option channel) (inaxes : bool)
    (xdata ydata : Float.float) (st : TonnetzGrid) : result TonnetzGrid :=
  if negb (is_dragging st) || negb inaxes then Ok st
  else
    match find_hex_at_point xdata ydata st with
    | Some hex_pos =>
        if bool_decide (hex_pos ∈ already_toggled st) then Ok st
        else
          let st :=
            set_drag (is_dragging st) (drag_toggle_state st)
              (already_toggled st ∪ {[hex_pos]}) st in
          let is_active := bool_decide (hex_pos ∈ active_notes st) in
          if bool_decide (Some is_active ≠ drag_toggle_state st)
          then toggle_note find_channel hex_pos true st
          else Ok st
    | None => Ok st
    end.

Definition on_release (st : TonnetzGrid) : TonnetzGrid :=
  set_drag false (drag_toggle_state st) ∅ st.

Definition on_key (key : string) (st : TonnetzGrid) : result TonnetzGrid :=
  if String.eqb key " " then clear_all st
  else if str_in (str_upper key) "CDEFGAB" then
    if str_isupper key then highlight_chord key "major" st
    else highlight_chord (str_upper key) "minor" st
  else Ok st.

(** The dispatch set up by [show]. *)
Definition handle (find_channel : option channel) (ev : event)
    (st : TonnetzGrid) : result TonnetzGrid :=
  match ev with
  | button_press inaxes button x y => on_press find_channel inaxes button x y st
  | motion_notify inaxes x y => on_motion find_channel inaxes x y st
  | button_release => Ok (on_release st)
  | key_press key => on_key key st
  end.

(** The state once [__init__], the pre-generation task and
    [_post_generation_setup] have run. *)
Definition startup (rows cols : Z) (made : string -> bool) : TonnetzGrid :=
  let grid := create_tonnetz_grid rows cols [] in
  Build rows cols (pregenerate_sounds made) [] grid (create_hexagons grid)
    ∅ ∅ false None ∅ [].

(** ** Tone synthesis *)

(** [np.sin] is left uninterpreted. *)
Variable np_sin : Float.float -> Float.float.

Definition harmonics : list (Float.float * Z) :=
  [(Float.one, 1); (Float.half, 2); (Float.lit_0_3, 3); (Float.lit_0_2, 4)].

(** The value written to both channels of frame [i]. *)
Definition tone_sample (frequency : Float.float) (sample_rate i : Z)
    : Float.float :=
  let sample :=
    foldl (fun sample '(amp, mult) =>
             Float.add sample
               (Float.mul amp
                  (np_sin
                     (Float.div
                        (Float.mul
                           (Float.mul
                              (Float.mul (Float.mul (Float.of_Z 2) Float.pi)
                                 frequency)
                              (Float.of_Z mult))
                           (Float.of_Z i))
                        (Float.of_Z sample_rate)))))
          (Float.of_Z 0) harmonics in
  Float.div sample (Float.of_Z (Z.of_nat (length harmonics))).

(** [np.clip(x, lo, hi)] *)
Definition np_clip (x : Float.float) (lo hi : Z) : Float.float :=
  let x := if Float.ltb x (Float.of_Z lo) then Float.of_Z lo else x in
  if Float.gtb x (Float.of_Z hi) then Float.of_Z hi else x.

(** [astype(np.int16)]: truncation, then the 16-bit wrap-around. *)
Definition astype_int16 (x : Float.float) : Z :=
  (Float.trunc x + 32768) mod 65536 - 32768.

Definition quantize (x : Float.float) : Z :=
  astype_int16 (np_clip (Float.mul x (Float.of_Z 15000)) (-32767) 32767).

Definition generate_long_tone (frequency duration : Float.float)
    (sample_rate : Z) : option (list (Z * Z)) :=
  if negb AUDIO_AVAILABLE then None
  else
    let frames := Float.trunc (Float.mul duration (Float.of_Z sample_rate)) in
    let arr :=
      map (fun i => let sample := tone_sample frequency sample_rate i in
                    (sample, sample))
          (range frames) in
    Some (map (fun '(l, r) => (quantize l, quantize r)) arr).

End handlers.

(** States the program can be in once the lattice is on screen. *)
Inductive reachable (audio : bool) : TonnetzGrid -> Prop :=
  | reachable_startup rows cols made :
      reachable audio (startup audio rows cols made)
  | reachable_handle st find_channel ev st' :
      reachable audio st ->
      handle audio find_channel ev st = Ok st' ->
      reachable audio st'.

(** Handling a sequence of events, each with the answer [find_channel]
    would give while it is handled. *)
Fixpoint run (audio : bool) (evs : list (option channel * event))
    (st : TonnetzGrid) : result TonnetzGrid :=
  match evs with
  | [] => Ok st
  | (find_channel, ev) :: evs' =>
      st' ← handle audio find_channel ev st; run audio evs' st'
  end.

(** Events that can occur between a press and the next release while no
    other press occurs. *)
Definition within_gesture (ev : event) : Prop :=
  match ev with
  | motion_notify _ _ _ | key_press _ => True
  | button_press _ _ _ _ | button_release => False
  end.

(** How many times [toggle_note] was called on [rc] in a history. *)
Definition is_toggle_of (rc : coord) (c : call) : bool :=
  match c with
  | ToggleNote rc' _ => bool_decide (rc' = rc)
  | _ => false
  end.

Definition toggle_count (rc : coord) (h : list call) : nat :=
  length (List.filter (is_toggle_of rc) h).

(** The roots named by the letter keys; the lowercase key of a root is its
    [str_lower]. *)
Definition letter_roots : list string :=
  ["C"; "D"; "E"; "F"; "G"; "A"; "B"]%string.

(** [st'] visits no new cell and records no new call of [toggle_note]. *)
Definition no_toggle (st st' : TonnetzGrid) : Prop :=
  already_toggled st' = already_toggled st
  ∧ ∀ rc, toggle_count rc (history st') = toggle_count rc (history st).

(** A press on the centre of hexagon [(row, col)], and the state of a 7 x 12
    lattice, all twelve sounds made, after such a press on the origin cell
    has been served by channel 0. *)
Definition press_at (row col : Z) : event :=
  button_press true 1 (hex_position row col).1 (hex_position row col).2.

Definition origin_pressed (audio : bool) : TonnetzGrid :=
  match handle audio (Some 0%nat) (press_at 3 6)
          (startup audio 7 12 (fun _ => true)) with
  | Ok st => st
  | Raise _ => startup audio 7 12 (fun _ => true)
  end.

(** What holds of every reachable state. *)
Record Inv (audio : bool) (st : TonnetzGrid) : Prop := {
  inv_hexagons : NoDup (dict_keys (hexagons st));
  inv_active_cells :
    ∀ rc, rc ∈ active_notes st -> is_Some (dict_get rc (hexagons st));
  inv_highlight_cells :
    ∀ rc, rc ∈ chord_highlights st -> is_Some (dict_get rc (hexagons st));
  inv_active_flag :
    ∀ rc hex, dict_get rc (hexagons st) = Some hex ->
              active hex = bool_decide (rc ∈ active_notes st);
  inv_registry : NoDup (dict_keys (playing_notes st));
  inv_no_audio : audio = false -> playing_notes st = []
}.

(** ** Further definitions for the lattice, the layout and the previews *)

(** The hexagon [create_hexagons] builds from one entry of [self.grid]. *)
Definition hexagon_of (entry : coord * Z) : coord * hex_data :=
  let '((row, col), v) := entry in
  ((row, col),
   HexData (index_to_pitch_class v) v (hex_position row col) false).

(** The hexagons with their [active] flags put down. *)
Definition erase_flags (hexagons : pydict coord hex_data)
    : pydict coord hex_data :=
  (fun '(rc, hex) => (rc, set_active false hex)) <$> hexagons.

(** What no handler writes: the dimensions, the lattice, the sounds, and
    the hexagons apart from their [active] flags. *)
Definition same_layout (st st' : TonnetzGrid) : Prop :=
  rows st' = rows st ∧ cols st' = cols st ∧ grid st' = grid st
  ∧ note_sounds st' = note_sounds st
  ∧ erase_flags (hexagons st') = erase_flags (hexagons st).

Definition is_motion (ev : event) : Prop :=
  match ev with
  | motion_notify _ _ _ => True
  | _ => False
  end.

(** [row *= k] on one frame of the sample array. *)
Definition scale_frame (k : Float.float) (frame : Float.float * Float.float)
    : Float.float * Float.float :=
  (Float.mul frame.1 k, Float.mul frame.2 k).

(** The fade loop of [play_chord_preview]:
    [for i in range(fade_frames): arr[-(i+1)] *= i / fade_frames].
    [None] stands for the [IndexError] of an index before the start. *)
Fixpoint fade_loop (steps : list Z) (fade_frames : Z)
    (arr : list (Float.float * Float.float))
    : option (list (Float.float * Float.float)) :=
  match steps with
  | [] => Some arr
  | i :: steps' =>
      let n := Z.of_nat (length arr) in
      if i + 1 <=? n then
        fade_loop steps' fade_frames
          (alter (scale_frame (Float.div (Float.of_Z i) (Float.of_Z fade_frames)))
             (Z.to_nat (n - (i + 1))) arr)
      else None
  end.

(** The array [play_chord_preview] hands to [make_sound], for the frequency
    it found for the note: 1.5 seconds at 22050 Hz, the last 0.3 seconds
    faded. *)
Definition preview_buffer (np_sin : Float.float -> Float.float)
    (frequency : Float.float) : option (list (Z * Z)) :=
  let duration := Float.mk 3 (-1) in
  let sample_rate := 22050 in
  let frames := Float.trunc (Float.mul duration (Float.of_Z sample_rate)) in
  let arr :=
    map (fun i => let sample := tone_sample np_sin frequency sample_rate i in
                  (sample, sample))
        (range frames) in
  let fade_frames :=
    Float.trunc (Float.mul Float.lit_0_3 (Float.of_Z sample_rate)) in
  arr ← fade_loop (range fade_frames) fade_frames arr;
  Some (map (fun '(l, r) => (quantize l, quantize r)) arr).

(** During a gesture of direction [d] begun when [before] was the set of
    active cells: every visited cell is on exactly when [d] holds, and every
    other cell is as it was. *)
Definition painted (d : bool) (before : gset coord) (st : TonnetzGrid)
    : Prop :=
  drag_toggle_state st = Some d
  ∧ (∀ rc, rc ∈ already_toggled st -> (rc ∈ active_notes st ↔ d = true))
  ∧ (∀ rc, rc ∉ already_toggled st -> (rc ∈ active_notes st ↔ rc ∈ before)).

(** Commands sent to the mixer, counted in a history. *)
Definition is_play (c : call) : bool :=
  match c with ChannelPlay _ _ => true | _ => false end.

Definition is_stop (c : call) : bool :=
  match c with ChannelStop _ => true | _ => false end.

Definition call_count (p : call -> bool) (h : list call) : nat :=
  length (List.filter p h).

(** Every channel that was started has been stopped or is still in the
    registry; without audio no channel was ever stopped. *)
Definition ledger (audio : bool) (st : TonnetzGrid) : Prop :=
  call_count is_play (history st)
  = (call_count is_stop (history st) + length (playing_notes st))%nat
  ∧ (audio = false -> call_count is_stop (history st) = 0%nat).

(* ------------------------------------------------------------------ *)
(** * Properties *)

(** ** The binary64 model on known values *)

(** [np.sqrt(3)] is the double nearest to the square root of 3. *)
Example sqrt3_correctly_rounded :
  let m := Float.mant Float.sqrt3 in
  Float.expo Float.sqrt3 = -52
  ∧ 2 ^ 52 <= m < 2 ^ 53
  ∧ (2 * m - 1) ^ 2 < 4 * (3 * 2 ^ 104) < (2 * m + 1) ^ 2.
Proof. vm_compute. repeat split; congruence. Qed.

(** The decimal literals are the correctly rounded quotients. *)
Example decimal_literals :
  Float.eqb (Float.div (Float.of_Z 93) (Float.of_Z 100)) Float.lit_0_93 = true
  ∧ Float.eqb (Float.div (Float.of_Z 17) (Float.of_Z 10)) Float.lit_1_7 = true
  ∧ Float.eqb (Float.div (Float.of_Z 3) (Float.of_Z 10)) Float.lit_0_3 = true
  ∧ Float.eqb (Float.div (Float.of_Z 2) (Float.of_Z 10)) Float.lit_0_2 = true.
Proof. vm_compute. done. Qed.

(** [1/3 = 0x1.5555555555555p-2], [0.1 + 0.2 = 0x1.3333333333334p-2] and
    [(-7.0) % 12 = 5.0]. *)
Example float_arithmetic :
  Float.div Float.one (Float.of_Z 3) = Float.mk 6004799503160661 (-54)
  ∧ Float.eqb
      (Float.add (Float.div Float.one (Float.of_Z 10)) Float.lit_0_2)
      (Float.mk 5404319552844596 (-54)) = true
  ∧ Float.pymod (Float.of_Z (-7)) (Float.of_Z 12) = Float.mk 5 0.
Proof. vm_compute. done. Qed.

Example grid_7_12_origin :
  dict_get (3, 6) (create_tonnetz_grid 7 12 []) = Some 0.
Proof. vm_compute. reflexivity. Qed.

(** ** Rounding *)

Lemma round_small m e : Z.abs m < 2 ^ 53 -> Float.round m e = Float.mk m e.
Proof.
  intros Hm. unfold Float.round, Float.prec.
  destruct (Z.ltb_spec 0 (Z.log2 (Z.abs m) + 1 - 53)) as [Hk|Hk]; [|done].
  exfalso. destruct (Z.eq_dec (Z.abs m) 0) as [H0|H0].
  - rewrite H0 in Hk. simpl in Hk. lia.
  - assert (Z.log2 (Z.abs m) < 53) by (apply Z.log2_lt_pow2; lia). lia.
Qed.

Lemma round_expo m e : e <= Float.expo (Float.round m e).
Proof.
  unfold Float.round.
  destruct (Z.ltb_spec 0 (Z.log2 (Z.abs m) + 1 - Float.prec)); simpl; lia.
Qed.

Lemma of_Z_small z : Z.abs z < 2 ^ 53 -> Float.of_Z z = Float.mk z 0.
Proof. apply round_small. Qed.

Lemma of_Z_expo z : 0 <= Float.expo (Float.of_Z z).
Proof. apply round_expo. Qed.

(** ** Python's float modulo by 12 *)

Lemma of_Z_12 : Float.of_Z 12 = Float.mk 12 0.
Proof. reflexivity. Qed.

Lemma pymod_12_half m :
  Float.pymod (Float.mk m (-1)) (Float.of_Z 12) = Float.mk (m mod 24) (-1).
Proof.
  rewrite of_Z_12. unfold Float.pymod, Float.align. simpl Float.expo.
  simpl Float.mant. change (Z.min (-1) 0) with (-1).
  change (2 ^ (-1 - -1)) with 1. change (12 * 2 ^ (0 - -1)) with 24.
  rewrite Z.mul_1_r. change (24 <? 0) with false.
  assert (Hrem : -24 < Z.rem m 24 < 24 /\
                 (0 <= Z.rem m 24 -> m mod 24 = Z.rem m 24) /\
                 (Z.rem m 24 < 0 -> m mod 24 = Z.rem m 24 + 24)).
  { Z.quot_rem_to_equations. Z.div_mod_to_equations. lia. }
  destruct Hrem as (Hb & Hnn & Hneg).
  destruct (Z.eqb_spec (Z.rem m 24) 0) as [H0|H0]; simpl.
  - f_equal. lia.
  - destruct (Z.ltb_spec (Z.rem m 24) 0) as [Hlt|Hge]; simpl.
    + rewrite round_small by lia. f_equal. lia.
    + f_equal. lia.
Qed.

Lemma pymod_12_int m e :
  0 <= e ->
  Float.pymod (Float.mk m e) (Float.of_Z 12) = Float.mk ((m * 2 ^ e) mod 12) 0.
Proof.
  intros He. rewrite of_Z_12. unfold Float.pymod, Float.align.
  simpl Float.expo. simpl Float.mant. rewrite Z.min_r by lia.
  change (12 * 2 ^ (0 - 0)) with 12. rewrite Z.sub_0_r.
  change (12 <? 0) with false. set (a := m * 2 ^ e).
  assert (Hrem : -12 < Z.rem a 12 < 12 /\
                 (0 <= Z.rem a 12 -> a mod 12 = Z.rem a 12) /\
                 (Z.rem a 12 < 0 -> a mod 12 = Z.rem a 12 + 12)).
  { Z.quot_rem_to_equations. Z.div_mod_to_equations. lia. }
  destruct Hrem as (Hb & Hnn & Hneg).
  destruct (Z.eqb_spec (Z.rem a 12) 0) as [H0|H0]; simpl.
  - f_equal. lia.
  - destruct (Z.ltb_spec (Z.rem a 12) 0) as [Hlt|Hge]; simpl.
    + rewrite round_small by lia. f_equal. lia.
    + f_equal. lia.
Qed.

(** On a float that is a multiple of one half, [x % 12] truncates to a
    pitch class. *)
Lemma pymod_12_range x :
  -1 <= Float.expo x ->
  0 <= Float.trunc (Float.pymod x (Float.of_Z 12)) < 12.
Proof.
  destruct x as [m e]. simpl. intros He.
  destruct (Z.eq_dec e (-1)) as [->|Hne].
  - rewrite pymod_12_half. unfold Float.trunc. simpl.
    change (2 ^ 1) with 2.
    pose proof (Z.mod_pos_bound m 24 eq_refl).
    Z.quot_rem_to_equations. lia.
  - rewrite pymod_12_int by lia. unfold Float.trunc. simpl.
    rewrite Z.mul_1_r. apply Z.mod_pos_bound. lia.
Qed.

Lemma odd_column_sum_expo ro co : -1 <= Float.expo (odd_column_sum ro co).
Proof.
  unfold odd_column_sum, Float.add, Float.mul, Float.sub.
  etrans; [|apply round_expo].
  apply Z.min_glb; [pose proof (of_Z_expo (7 * co)); lia|].
  etrans; [|apply round_expo].
  assert (-1 <= Float.expo
            (Float.round
               (Float.align (Float.of_Z ro) (Z.min (Float.expo (Float.of_Z ro)) (Float.expo Float.half))
                - Float.align Float.half (Z.min (Float.expo (Float.of_Z ro)) (Float.expo Float.half)))
               (Z.min (Float.expo (Float.of_Z ro)) (Float.expo Float.half)))) as H.
  { etrans; [|apply round_expo].
    pose proof (of_Z_expo ro). simpl. lia. }
  pose proof (of_Z_expo 4). lia.
Qed.

(** ** Dictionaries *)

Section pydict_facts.
Context {K V : Type} `{EqDecision K}.
Implicit Types (d : list (K * V)) (k : K) (v : V).

Lemma dict_get_set k' k v d :
  dict_get k' (dict_set k v d) = if decide (k = k') then Some v else dict_get k' d.
Proof.
  induction d as [|[k0 v0] d IH]; simpl.
  - by repeat case_decide.
  - repeat (case_decide; simpl; simplify_eq); rewrite ?IH;
      repeat case_decide; congruence.
Qed.

Lemma dict_get_set_eq k v d : dict_get k (dict_set k v d) = Some v.
Proof. rewrite dict_get_set. by rewrite decide_True. Qed.

Lemma dict_get_set_ne k' k v d :
  k ≠ k' -> dict_get k' (dict_set k v d) = dict_get k' d.
Proof. intros. rewrite dict_get_set. by rewrite decide_False. Qed.

End pydict_facts.

(** ** The lattice loops *)

Lemma grid_cells_get sr sc cells g rc :
  dict_get rc (foldl (grid_cell sr sc) g cells)
  = if decide (rc ∈ cells ∧ rc ≠ (sr, sc))
    then Some (pitch_index_at sr sc rc.1 rc.2)
    else dict_get rc g.
Proof.
  revert g. induction cells as [|[r c] cells IH]; intros g; simpl.
  - done.
  - rewrite IH. clear IH.
    destruct (Z.eqb_spec r sr) as [->|Hr], (Z.eqb_spec c sc) as [->|Hc]; simpl;
      rewrite ?dict_get_set; repeat case_decide; simplify_eq/=; try done;
      exfalso; set_solver.
Qed.

Lemma grid_rows_flatten sr sc cols rs g :
  foldl (grid_row sr sc cols) g rs
  = foldl (grid_cell sr sc) g (r ← rs; (fun c => (r, c)) <$> range cols).
Proof.
  revert g. induction rs as [|r rs IH]; intros g; [done|].
  simpl. rewrite foldl_app, IH. f_equal.
  unfold grid_row. by rewrite foldl_fmap.
Qed.

Lemma elem_of_lattice_cells rows cols row col :
  (row, col) ∈ lattice_cells rows cols ↔ (0 <= row < rows ∧ 0 <= col < cols).
Proof.
  unfold lattice_cells, range. rewrite list_elem_of_bind. split.
  - intros (r & Hin & Hr). apply list_elem_of_fmap in Hin as (c & Heq & Hc).
    simplify_eq. apply elem_of_seqZ in Hr, Hc. lia.
  - intros [Hr Hc]. exists row. split; [|apply elem_of_seqZ; lia].
    apply list_elem_of_fmap. exists col. split; [done|apply elem_of_seqZ; lia].
Qed.

Lemma create_tonnetz_grid_get rows cols g rc :
  dict_get rc (create_tonnetz_grid rows cols g)
  = if decide (rc ∈ lattice_cells rows cols ∧ rc ≠ (rows / 2, cols / 2))
    then Some (pitch_index_at (rows / 2) (cols / 2) rc.1 rc.2)
    else if decide ((rows / 2, cols / 2) = rc) then Some 0
    else dict_get rc g.
Proof.
  unfold create_tonnetz_grid. rewrite grid_rows_flatten, grid_cells_get.
  fold (lattice_cells rows cols). case_decide; [done|].
  apply dict_get_set.
Qed.

(** ** Degenerate dimensions *)

Lemma grid_rows_no_cols sr sc cols rs g :
  cols <= 0 -> foldl (grid_row sr sc cols) g rs = g.
Proof.
  intros Hcols. induction rs as [|r rs IH]; [done|]. simpl.
  unfold grid_row at 2, range. rewrite seqZ_nil by done. apply IH.
Qed.

(** C3 (as the program behaves). For [rows <= 0] or [cols <= 0] lattice
    construction raises nothing: it returns the mapping that holds the origin
    cell [(rows/2, cols/2)] (floor division) with pitch class 0, and no other
    cell. *)
Theorem degenerate_lattice_is_origin_only rows cols :
  rows <= 0 ∨ cols <= 0 ->
  build_lattice rows cols = Ok [((rows / 2, cols / 2), 0)].
Proof.
  intros Hdim. unfold build_lattice.
  assert (lattice_cells rows cols = []) as ->; [|done].
  unfold lattice_cells, range. destruct Hdim as [Hrows|Hcols].
  - by rewrite (seqZ_nil 0 rows).
  - rewrite (seqZ_nil 0 cols) by done.
    induction (seqZ 0 rows) as [|r rs IH]; [done|]. exact IH.
Qed.

Lemma degenerate_lattice_is_origin_only_witness :
  build_lattice 0 12 = Ok [((0 / 2, 12 / 2), 0)].
Proof. apply (degenerate_lattice_is_origin_only 0 12). left. lia. Defined.

(** C3 (counterexample to the claim as stated). With [rows = 0] and
    [cols = 12] construction does not fail with [InvalidLatticeSize]; it
    returns a one-cell mapping. *)
Lemma zero_rows_not_rejected :
  build_lattice 0 12 ≠ Raise InvalidLatticeSize
  ∧ build_lattice 0 12 = Ok [((0, 6), 0)].
Proof. split; [discriminate|reflexivity]. Qed.

(** ** The odd-column branch on lattices of at most 2^48 rows and columns *)

Lemma is_Z_half m z : m = 2 * z -> Float.is_Z (Float.mk m (-1)) z = true.
Proof.
  intros ->. unfold Float.is_Z, Float.eqb, Float.align. simpl.
  change (Z.min (-1) 0) with (-1). change (2 ^ (-1 - -1)) with 1.
  change (2 ^ (0 - -1)) with 2. apply Z.eqb_eq. lia.
Qed.

Lemma odd_column_sum_exact ro co :
  Z.abs ro <= 2 ^ 48 -> Z.abs co <= 2 ^ 48 ->
  odd_column_sum ro co = Float.mk (14 * co + 8 * ro - 4) (-1).
Proof.
  intros Hro Hco. unfold odd_column_sum.
  rewrite !of_Z_small by lia.
  unfold Float.sub, Float.align, Float.half. simpl Float.expo. simpl Float.mant.
  change (Z.min 0 (-1)) with (-1). change (2 ^ (0 - -1)) with 2.
  change (1 * 2 ^ (-1 - -1)) with 1. rewrite round_small by lia.
  unfold Float.mul. simpl Float.expo. simpl Float.mant.
  rewrite round_small by lia.
  unfold Float.add, Float.align. simpl Float.expo. simpl Float.mant.
  change (Z.min 0 (0 + -1)) with (-1). change (2 ^ (0 - -1)) with 2.
  change (2 ^ (0 + -1 - -1)) with 1. rewrite round_small by lia.
  f_equal. lia.
Qed.

Lemma cell_offsets_bounded n i : 1 <= n <= 2 ^ 48 -> 0 <= i < n -> Z.abs (i - n / 2) <= 2 ^ 48.
Proof. intros Hn Hi. Z.div_mod_to_equations. lia. Qed.

(** C10 (as the program behaves). For every odd-column cell of a lattice
    with at most 2^48 rows and 2^48 columns: the float intermediate
    [7*colOffset + 4*(rowOffset - 0.5)] is exactly the integer
    [7*colOffset + 4*rowOffset - 2]; the odd-column branch computes
    [(7*colOffset + 4*rowOffset - 2) mod 12]; the truncation after the modulo
    does not change the value; truncating before the modulo gives the same
    result; and the lattice holds that value at every such cell other than
    the origin. *)
Theorem odd_column_is_integer_arithmetic rows cols row col :
  1 <= rows <= 2 ^ 48 -> 1 <= cols <= 2 ^ 48 ->
  0 <= row < rows -> 0 <= col < cols -> Z.odd col = true ->
  let row_offset := row - rows / 2 in
  let col_offset := col - cols / 2 in
  let sum := odd_column_sum row_offset col_offset in
  let modded := Float.pymod sum (Float.of_Z 12) in
  Float.is_Z sum (7 * col_offset + 4 * row_offset - 2) = true
  ∧ pitch_index_at (rows / 2) (cols / 2) row col
    = (7 * col_offset + 4 * row_offset - 2) mod 12
  ∧ Float.is_Z modded (Float.trunc modded) = true
  ∧ Float.trunc sum mod 12 = Float.trunc modded mod 12
  ∧ ((row, col) ≠ (rows / 2, cols / 2) ->
     dict_get (row, col) (create_tonnetz_grid rows cols [])
     = Some (int_odd_pitch row_offset col_offset)).
Proof.
  intros Hrows Hcols Hrow Hcol Hodd row_offset col_offset sum modded.
  assert (Hsum : sum = Float.mk (14 * col_offset + 8 * row_offset - 4) (-1))
    by (apply odd_column_sum_exact; by apply cell_offsets_bounded).
  assert (Hmod : modded
                 = Float.mk ((14 * col_offset + 8 * row_offset - 4) mod 24) (-1))
    by (unfold modded; rewrite Hsum; apply pymod_12_half).
  set (n := 7 * col_offset + 4 * row_offset - 2) in *.
  assert (Hn : (14 * col_offset + 8 * row_offset - 4) mod 24 = 2 * (n mod 12))
    by (unfold n; Z.div_mod_to_equations; lia).
  assert (Htrunc : Float.trunc modded = n mod 12).
  { rewrite Hmod, Hn. unfold Float.trunc. simpl. change (2 ^ 1) with 2.
    Z.quot_rem_to_equations. lia. }
  assert (Hpitch : pitch_index_at (rows / 2) (cols / 2) row col = n mod 12).
  { unfold pitch_index_at. rewrite (Zmod_even col), <- Z.negb_odd, Hodd.
    simpl. fold row_offset col_offset sum modded. rewrite Htrunc.
    apply Z.mod_mod. lia. }
  split; [|split; [|split; [|split]]].
  - rewrite Hsum. apply is_Z_half. unfold n. lia.
  - done.
  - rewrite Htrunc, Hmod, Hn. by apply is_Z_half.
  - rewrite Htrunc, Hsum. unfold Float.trunc. simpl. change (2 ^ 1) with 2.
    rewrite Z.mod_mod by lia. f_equal. unfold n. Z.quot_rem_to_equations. lia.
  - intros Hne. rewrite create_tonnetz_grid_get.
    rewrite decide_True by (by rewrite elem_of_lattice_cells).
    simpl. by rewrite Hpitch.
Qed.

Lemma odd_column_is_integer_arithmetic_witness :
  let row_offset := 0 - 7 / 2 in
  let col_offset := 1 - 12 / 2 in
  let sum := odd_column_sum row_offset col_offset in
  let modded := Float.pymod sum (Float.of_Z 12) in
  Float.is_Z sum (7 * col_offset + 4 * row_offset - 2) = true
  ∧ pitch_index_at (7 / 2) (12 / 2) 0 1
    = (7 * col_offset + 4 * row_offset - 2) mod 12
  ∧ Float.is_Z modded (Float.trunc modded) = true
  ∧ Float.trunc sum mod 12 = Float.trunc modded mod 12
  ∧ ((0, 1) ≠ (7 / 2, 12 / 2) ->
     dict_get (0, 1) (create_tonnetz_grid 7 12 [])
     = Some (int_odd_pitch row_offset col_offset)).
Proof.
  apply (odd_column_is_integer_arithmetic 7 12 0 1); [lia|lia|lia|lia|reflexivity].
Defined.

(** C10 (counterexample to the claim as stated). In a lattice of 2^60 rows
    and 4 columns, the odd-column cell [(0, 3)], which the loops reach at
    their fourth iteration, has [rowOffset = -2^59] and [colOffset = 1]: the
    float sum is rounded to [-2^61] instead of the integer [5 - 2^61], and the
    branch stores 4 where the integer rule gives 9. *)
Lemma huge_lattice_odd_column_rounds :
  let row_offset := 0 - 2 ^ 60 / 2 in
  let col_offset := 3 - 4 / 2 in
  Float.is_Z (odd_column_sum row_offset col_offset)
    (7 * col_offset + 4 * row_offset - 2) = false
  ∧ Float.is_Z (odd_column_sum row_offset col_offset) (- 2 ^ 61) = true
  ∧ pitch_index_at (2 ^ 60 / 2) (4 / 2) 0 3 = 4
  ∧ (7 * col_offset + 4 * row_offset - 2) mod 12 = 9.
Proof. vm_compute. done. Qed.

(** ** The hit-test *)

Lemma rne_shift_nonneg m k : 0 <= m -> 0 <= Float.rne_shift m k.
Proof.
  intros Hm. unfold Float.rne_shift.
  assert (0 <= m / 2 ^ k).
  { destruct (Z.lt_ge_cases k 0) as [Hk|Hk].
    - rewrite Z.pow_neg_r by done. by rewrite Z.div_0_r.
    - apply Z.div_pos; [done|]. apply Z.pow_pos_nonneg; lia. }
  repeat case_match; lia.
Qed.

Lemma round_nonneg m e : 0 <= m -> 0 <= Float.mant (Float.round m e).
Proof.
  intros Hm. unfold Float.round. case_match; simpl; [|done].
  by apply rne_shift_nonneg.
Qed.

Lemma sub_diag x : Float.sub x x = Float.mk 0 (Float.expo x).
Proof.
  unfold Float.sub. rewrite Z.sub_diag, Z.min_id. by rewrite round_small.
Qed.

Lemma gtb_0_mant s : Float.gtb s (Float.of_Z 0) = true -> 0 < Float.mant s.
Proof.
  unfold Float.gtb, Float.ltb, Float.align. simpl. intros H%Z.ltb_lt.
  assert (0 <= 2 ^ (Float.expo s - Z.min 0 (Float.expo s)))
    by (apply Z.pow_nonneg; lia).
  nia.
Qed.

Lemma leb_0_nonneg e y : 0 <= Float.mant y -> Float.leb (Float.mk 0 e) y = true.
Proof.
  intros Hy. unfold Float.leb, Float.align. simpl. apply Z.leb_le.
  apply Z.mul_nonneg_nonneg; [done|]. apply Z.pow_nonneg. lia.
Qed.

(** C4. For every point [p], hexagon centre [c] and size [s > 0], with
    [dx = |p.x - c.x|] and [dy = |p.y - c.y|]: [point_in_hex] returns false
    when [dy > s]; otherwise it returns true exactly when
    [dx <= s*sqrt(3)*(1 - dy/(2*s))], the right-hand side being evaluated in
    the program's binary64 arithmetic; and it returns true at the centre. *)
Theorem point_in_hex_rule (p c : point) (s : Float.float) :
  Float.gtb s (Float.of_Z 0) = true ->
  let dx := Float.abs (Float.sub p.1 c.1) in
  let dy := Float.abs (Float.sub p.2 c.2) in
  let max_x :=
    Float.mul (Float.mul s Float.sqrt3)
      (Float.sub (Float.of_Z 1) (Float.div dy (Float.mul (Float.of_Z 2) s))) in
  (Float.gtb dy s = true -> point_in_hex p c s = false)
  ∧ (Float.gtb dy s = false ->
     (point_in_hex p c s = true ↔ Float.leb dx max_x = true))
  ∧ point_in_hex c c s = true.
Proof.
  intros Hs dx dy max_x. destruct p as [px py], c as [hx hy].
  subst dx dy max_x. simpl fst. simpl snd. split; [|split].
  - intros Hdy. unfold point_in_hex. by rewrite Hdy.
  - intros Hdy. unfold point_in_hex. by rewrite Hdy.
  - apply gtb_0_mant in Hs. unfold point_in_hex. rewrite !sub_diag.
    unfold Float.abs. simpl Float.mant. simpl Float.expo.
    change (Z.abs 0) with 0.
    replace (Float.gtb (Float.mk 0 (Float.expo hy)) s) with false.
    2:{ symmetry. unfold Float.gtb, Float.ltb, Float.align. simpl.
        apply Z.ltb_ge.
        assert (0 <= 2 ^ (Float.expo s - Z.min (Float.expo s) (Float.expo hy)))
          by (apply Z.pow_nonneg; lia).
        nia. }
    apply leb_0_nonneg. unfold Float.div at 1. simpl Float.mant.
    rewrite orb_true_r. unfold Float.mul at 1. apply round_nonneg.
    apply Z.mul_nonneg_nonneg; [|done].
    unfold Float.mul. apply round_nonneg. simpl. lia.
Qed.

Lemma point_in_hex_rule_witness :
  let p : point := (Float.mk 3 (-2), Float.mk 1 (-2)) in
  let c : point := hex_position 0 0 in
  let s := Float.half in
  let dx := Float.abs (Float.sub p.1 c.1) in
  let dy := Float.abs (Float.sub p.2 c.2) in
  let max_x :=
    Float.mul (Float.mul s Float.sqrt3)
      (Float.sub (Float.of_Z 1) (Float.div dy (Float.mul (Float.of_Z 2) s))) in
  (Float.gtb dy s = true -> point_in_hex p c s = false)
  ∧ (Float.gtb dy s = false ->
     (point_in_hex p c s = true ↔ Float.leb dx max_x = true))
  ∧ point_in_hex c c s = true.
Proof.
  apply (point_in_hex_rule (Float.mk 3 (-2), Float.mk 1 (-2))
           (hex_position 0 0) Float.half).
  reflexivity.
Defined.

Example point_in_hex_inside :
  point_in_hex (Float.mk 3 (-2), Float.mk 1 (-2)) (hex_position 0 0) Float.half
  = false
  ∧ point_in_hex (Float.mk 1 (-1), Float.mk 1 (-2)) (hex_position 0 0) Float.half
    = true.
Proof. vm_compute. done. Qed.

(** ** Tone synthesis *)

Lemma trunc_between x lo hi :
  Float.ltb x (Float.mk lo 0) = false ->
  Float.gtb x (Float.mk hi 0) = false ->
  lo <= Float.trunc x <= hi.
Proof.
  destruct x as [m e]. unfold Float.gtb, Float.ltb, Float.align, Float.trunc.
  simpl. intros Hlo%Z.ltb_ge Hhi%Z.ltb_ge.
  destruct (Z.leb_spec 0 e) as [He|He].
  - rewrite Z.min_l in Hhi by done. rewrite Z.min_r in Hlo by done.
    rewrite !Z.sub_0_r in *. change (2 ^ (0 - 0)) with 1 in *. lia.
  - rewrite Z.min_r in Hhi by lia. rewrite Z.min_l in Hlo by lia.
    rewrite Z.sub_diag in *. change (2 ^ 0) with 1 in *.
    rewrite Z.sub_0_l in *.
    assert (0 < 2 ^ (- e)) by (apply Z.pow_pos_nonneg; lia).
    set (P := 2 ^ (- e)) in *. Z.quot_rem_to_equations. nia.
Qed.

Lemma quantize_range x : -32767 <= quantize x <= 32767.
Proof.
  unfold quantize, np_clip.
  set (y := Float.mul x (Float.of_Z 15000)).
  change (Float.of_Z (-32767)) with (Float.mk (-32767) 0).
  change (Float.of_Z 32767) with (Float.mk 32767 0).
  assert (Hwrap : ∀ z, -32767 <= z <= 32767 ->
                       -32767 <= (z + 32768) mod 65536 - 32768 <= 32767).
  { intros z Hz. rewrite Z.mod_small by lia. lia. }
  unfold astype_int16. apply Hwrap.
  destruct (Float.ltb y (Float.mk (-32767) 0)) eqn:Hlo.
  - change (Float.gtb (Float.mk (-32767) 0) (Float.mk 32767 0)) with false.
    cbv. split; discriminate.
  - destruct (Float.gtb y (Float.mk 32767 0)) eqn:Hhi.
    + cbv. split; discriminate.
    + by apply trunc_between.
Qed.

(** C9 (as the program behaves). With the audio subsystem available,
    synthesizing one second at 440 Hz and 22050 Hz sample rate returns a
    buffer of exactly 22050 stereo frames whose left and right samples are
    equal and all lie in [-32767, 32767], whatever [np.sin] returns. *)
Theorem tone_440_one_second (np_sin : Float.float -> Float.float) :
  ∃ arr,
    generate_long_tone true np_sin (Float.of_Z 440) Float.one 22050 = Some arr
    ∧ Z.of_nat (length arr) = 22050
    ∧ Forall (fun frame => frame.1 = frame.2 ∧ -32767 <= frame.1 <= 32767) arr.
Proof.
  eexists. split; [reflexivity|]. split.
  - rewrite !length_map. unfold range. rewrite length_seqZ. reflexivity.
  - rewrite List.Forall_forall. intros frame Hin.
    rewrite map_map in Hin. apply List.in_map_iff in Hin as (i & <- & _).
    simpl. split; [done|]. apply quantize_range.
Qed.

(** C9 (counterexample to the claim as stated). When the audio subsystem is
    unavailable the synthesizer returns [None] instead of a buffer. *)
Lemma no_tone_without_audio :
  generate_long_tone false (fun x => x) (Float.of_Z 440) Float.one 22050 = None.
Proof. reflexivity. Qed.

(** ** More on dictionaries *)

Section pydict_keys.
Context {K V : Type} `{EqDecision K}.
Implicit Types (d : list (K * V)) (k : K) (v : V).

Lemma dict_get_None k d : dict_get k d = None ↔ k ∉ dict_keys d.
Proof.
  induction d as [|[k0 v0] d IH]; simpl.
  - split; [intros _; apply not_elem_of_nil|done].
  - rewrite not_elem_of_cons. case_decide; naive_solver.
Qed.

Lemma dict_get_is_Some k d : is_Some (dict_get k d) ↔ k ∈ dict_keys d.
Proof.
  destruct (dict_get k d) eqn:Hget.
  - split; [intros _|by eauto].
    destruct (decide (k ∈ dict_keys d)) as [|Hn]; [done|].
    apply dict_get_None in Hn. congruence.
  - split; [by intros [? ?]|]. intros Hin. by apply dict_get_None in Hin.
Qed.

Lemma dict_mem_true k d : dict_mem k d = true ↔ k ∈ dict_keys d.
Proof.
  rewrite <- dict_get_is_Some. unfold dict_mem.
  destruct (dict_get k d); split; (done || by intros [? ?] || by eauto).
Qed.

Lemma dict_get_elem_of k v d : dict_get k d = Some v -> (k, v) ∈ d.
Proof.
  induction d as [|[k0 v0] d IH]; simpl; [done|].
  case_decide; intros; simplify_eq; [left|right; auto].
Qed.

Lemma elem_of_dict_get k v d :
  NoDup (dict_keys d) -> (k, v) ∈ d -> dict_get k d = Some v.
Proof.
  induction d as [|[k0 v0] d IH]; simpl.
  - intros _ Hin. by apply elem_of_nil in Hin.
  - intros [Hk0 Hnd]%NoDup_cons Hin. apply elem_of_cons in Hin as [Heq|Hin].
    + simplify_eq. by rewrite decide_True.
    + case_decide as Hk; [|by apply IH]. subst k0. exfalso. apply Hk0.
      change k with (fst (k, v)). by apply list_elem_of_fmap_2.
Qed.

Lemma dict_set_keys k v d :
  dict_keys (dict_set k v d)
  = if dict_mem k d then dict_keys d else dict_keys d ++ [k].
Proof.
  induction d as [|[k0 v0] d IH]; [done|].
  unfold dict_mem in *. simpl. case_decide; simplify_eq; [done|].
  simpl. rewrite IH. by destruct (dict_get k d).
Qed.

Lemma dict_set_new k v d : dict_mem k d = false -> dict_set k v d = d ++ [(k, v)].
Proof.
  unfold dict_mem. induction d as [|[k0 v0] d IH]; simpl; [done|].
  case_decide; [done|]. intros Hk. by rewrite IH.
Qed.

Lemma dict_set_NoDup k v d :
  NoDup (dict_keys d) -> NoDup (dict_keys (dict_set k v d)).
Proof.
  intros Hnd. rewrite dict_set_keys. destruct (dict_mem k d) eqn:Hmem; [done|].
  apply NoDup_app. split; [done|]. split; [|apply NoDup_singleton].
  intros k' Hin Hk'. apply list_elem_of_singleton in Hk'. subst k'.
  apply dict_mem_true in Hin. congruence.
Qed.

Lemma dict_set_is_Some k' k v d :
  is_Some (dict_get k d) ->
  is_Some (dict_get k' (dict_set k v d)) ↔ is_Some (dict_get k' d).
Proof.
  intros Hk. rewrite dict_get_set. case_decide; [|done]. subst. naive_solver.
Qed.

Lemma dict_del_keys_subseteq k d : dict_keys (dict_del k d) ⊆ dict_keys d.
Proof.
  induction d as [|[k0 v0] d IH]; simpl; [done|].
  case_decide; simpl; set_solver.
Qed.

Lemma dict_del_NoDup k d :
  NoDup (dict_keys d) -> NoDup (dict_keys (dict_del k d)).
Proof.
  induction d as [|[k0 v0] d IH]; simpl; [done|].
  intros [Hk0 Hnd]%NoDup_cons. case_decide; [done|]. simpl.
  apply NoDup_cons. split; [|auto].
  intros Hin. by apply dict_del_keys_subseteq in Hin.
Qed.

Lemma dict_get_del_ne k' k d : k ≠ k' -> dict_get k' (dict_del k d) = dict_get k' d.
Proof.
  intros Hne. induction d as [|[k0 v0] d IH]; simpl; [done|].
  repeat (case_decide; simpl; simplify_eq); done.
Qed.

Lemma dict_get_del_eq k d :
  NoDup (dict_keys d) -> dict_get k (dict_del k d) = None.
Proof.
  induction d as [|[k0 v0] d IH]; simpl; [done|].
  intros [Hk0 Hnd]%NoDup_cons. case_decide; simpl.
  - subst. by apply dict_get_None.
  - rewrite decide_False by done. auto.
Qed.

Lemma dict_del_absent k d : dict_get k d = None -> dict_del k d = d.
Proof.
  induction d as [|[k0 v0] d IH]; simpl; [done|].
  case_decide; [done|]. intros. f_equal. auto.
Qed.

End pydict_keys.

(** ** The invariant *)

Lemma create_hexagons_inv grid :
  NoDup (dict_keys (create_hexagons grid))
  ∧ ∀ rc hex, dict_get rc (create_hexagons grid) = Some hex -> active hex = false.
Proof.
  unfold create_hexagons.
  assert (Hgen : ∀ (acc : pydict coord hex_data),
    NoDup (dict_keys acc) ->
    (∀ rc hex, dict_get rc acc = Some hex -> active hex = false) ->
    let out :=
      foldl (fun hexagons '((row, col), pitch_index) =>
               dict_set (row, col)
                 (HexData (index_to_pitch_class pitch_index) pitch_index
                    (hex_position row col) false)
                 hexagons) acc grid in
    NoDup (dict_keys out)
    ∧ ∀ rc hex, dict_get rc out = Some hex -> active hex = false).
  { induction grid as [|[[row col] pitch] grid IH]; intros acc Hnd Hact; simpl.
    - done.
    - apply IH; [by apply dict_set_NoDup|].
      intros rc hex. rewrite dict_get_set. case_decide; [|by apply Hact].
      by intros [= <-]. }
  apply Hgen; [apply NoDup_nil_2|done].
Qed.

Lemma Inv_startup audio rows cols made : Inv audio (startup audio rows cols made).
Proof.
  destruct (create_hexagons_inv (create_tonnetz_grid rows cols [])) as [Hnd Hact].
  split; simpl; try done. apply NoDup_nil_2.
Qed.

Lemma Inv_log audio c st : Inv audio st -> Inv audio (log c st).
Proof. intros []. by split. Qed.

Lemma Inv_set_playing_notes audio reg st :
  Inv audio st -> NoDup (dict_keys reg) -> (audio = false -> reg = []) ->
  Inv audio (set_playing_notes reg st).
Proof. intros [] ??. by split. Qed.

Lemma Inv_set_drag audio dragging direction visited st :
  Inv audio st -> Inv audio (set_drag dragging direction visited st).
Proof. intros []. by split. Qed.

Lemma Inv_start audio fc n st :
  Inv audio st -> Inv audio (start_continuous_note audio fc n st).
Proof.
  intros HI. unfold start_continuous_note.
  destruct audio; simpl; [|done].
  repeat case_match; try done.
  apply Inv_set_playing_notes; [by apply Inv_log| |done].
  simpl. apply dict_set_NoDup, (inv_registry _ _ HI).
Qed.

Lemma Inv_stop_playing st n : Inv true st -> Inv true (stop_playing st n).
Proof.
  intros HI. unfold stop_playing. case_match; [|done].
  apply Inv_set_playing_notes; [by apply Inv_log| |done].
  simpl. apply dict_del_NoDup, (inv_registry _ _ HI).
Qed.

Lemma Inv_stop audio n st :
  Inv audio st -> Inv audio (stop_continuous_note audio n st).
Proof.
  intros HI. unfold stop_continuous_note. destruct audio; simpl; [|done].
  by apply Inv_stop_playing.
Qed.

(** The part of [toggle_note] before the sound is started or stopped. *)
Lemma Inv_flip audio rc ps hex st :
  Inv audio st -> dict_get rc (hexagons st) = Some hex ->
  let on := bool_decide (rc ∈ active_notes st) in
  Inv audio
    (set_hexagons (dict_set rc (set_active (negb on) hex) (hexagons st))
       (set_active_notes
          (if on then active_notes st ∖ {[rc]} else active_notes st ∪ {[rc]})
          (log (ToggleNote rc ps) st))).
Proof.
  intros HI Hget on. split; simpl.
  - apply dict_set_NoDup, (inv_hexagons _ _ HI).
  - intros rc' Hin. apply dict_set_is_Some; [by eauto|].
    destruct (decide (rc' = rc)) as [->|Hne]; [by eauto|].
    apply (inv_active_cells _ _ HI). destruct on; set_solver.
  - intros rc' Hin. apply dict_set_is_Some; [by eauto|].
    by apply (inv_highlight_cells _ _ HI).
  - intros rc' hex'. rewrite dict_get_set. case_decide as Heq.
    + subst rc'. intros [= <-]. simpl. subst on.
      destruct (bool_decide_reflect (rc ∈ active_notes st)); simpl; symmetry;
        [apply bool_decide_eq_false|apply bool_decide_eq_true]; set_solver.
    + intros Hget'. rewrite (inv_active_flag _ _ HI _ _ Hget').
      apply bool_decide_ext. destruct on; set_solver.
  - apply (inv_registry _ _ HI).
  - apply (inv_no_audio _ _ HI).
Qed.

Lemma toggle_note_unfold audio fc rc ps hex st :
  dict_get rc (hexagons st) = Some hex ->
  let on := bool_decide (rc ∈ active_notes st) in
  let flipped :=
    set_hexagons (dict_set rc (set_active (negb on) hex) (hexagons st))
      (set_active_notes
         (if on then active_notes st ∖ {[rc]} else active_notes st ∪ {[rc]})
         (log (ToggleNote rc ps) st)) in
  toggle_note audio fc rc ps st
  = Ok (if ps then
          if on then stop_continuous_note audio (note hex) flipped
          else start_continuous_note audio fc (note hex) flipped
        else flipped).
Proof.
  intros Hget on flipped. unfold toggle_note. rewrite Hget. simpl.
  fold on. subst flipped. by destruct on, ps.
Qed.

Lemma Inv_toggle_note audio fc rc ps st st' :
  Inv audio st -> toggle_note audio fc rc ps st = Ok st' -> Inv audio st'.
Proof.
  intros HI Htog. destruct (dict_get rc (hexagons st)) as [hex|] eqn:Hget.
  - rewrite (toggle_note_unfold _ _ _ _ hex) in Htog by done.
    injection Htog as <-. pose proof (Inv_flip audio rc ps hex st HI Hget) as HF.
    simpl in HF. repeat case_match; auto using Inv_start, Inv_stop.
  - unfold toggle_note in Htog. by rewrite Hget in Htog.
Qed.

Lemma toggle_note_ok audio fc rc ps hex st :
  Inv audio st -> dict_get rc (hexagons st) = Some hex ->
  ∃ st', toggle_note audio fc rc ps st = Ok st' ∧ Inv audio st'.
Proof.
  intros HI Hget.
  pose proof (toggle_note_unfold audio fc rc ps hex st Hget) as Hu. simpl in Hu.
  eexists. split; [exact Hu|]. by eapply Inv_toggle_note.
Qed.

Lemma clear_chord_highlights_ok audio st :
  Inv audio st -> clear_chord_highlights st = Ok (set_chord_highlights ∅ st).
Proof.
  intros HI. unfold clear_chord_highlights.
  rewrite (proj2 (forallb_forall _ _)); [done|].
  intros rc Hin. apply orb_true_iff. right. apply dict_mem_true.
  apply dict_get_is_Some, (inv_highlight_cells _ _ HI).
  by apply elem_of_elements, list_elem_of_In.
Qed.

Lemma Inv_set_chord_highlights audio hl st :
  Inv audio st ->
  (∀ rc, rc ∈ hl -> is_Some (dict_get rc (hexagons st))) ->
  Inv audio (set_chord_highlights hl st).
Proof. intros [] ?. by split. Qed.

(** The highlight loop of [highlight_chord]. *)
Lemma highlight_loop (indices : list Z) (cells : pydict coord hex_data) st :
  let st' := foldl (highlight_cell indices) st cells in
  (∀ rc, rc ∈ chord_highlights st' ↔
         rc ∈ chord_highlights st
         ∨ ∃ hex, (rc, hex) ∈ cells ∧ pitch_index hex ∈ indices)
  ∧ set_chord_highlights ∅ st' = set_chord_highlights ∅ st.
Proof.
  revert st. induction cells as [|[rc0 hex0] cells IH]; intros st; cbn [foldl].
  - split; [|done]. intros rc. split; [auto|].
    intros [|(? & Hin & _)]; [done|]. by apply elem_of_nil in Hin.
  - destruct (IH (highlight_cell indices st (rc0, hex0))) as [Hin Hsame].
    split.
    + intros rc. rewrite Hin. unfold highlight_cell.
      case_bool_decide as Hp; simpl.
      * rewrite elem_of_union, elem_of_singleton. split.
        -- intros [[?| ->]|(hex & Hc & Hi)]; [by left| |].
           ++ right. exists hex0. split; [left|done].
           ++ right. exists hex. split; [by right|done].
        -- intros [?|(hex & Hc & Hi)]; [by left; left|].
           apply elem_of_cons in Hc as [[= -> ->]|Hc]; [by left; right|].
           right. eauto.
      * split.
        -- intros [?|(hex & Hc & Hi)]; [by left|].
           right. exists hex. split; [by right|done].
        -- intros [?|(hex & Hc & Hi)]; [by left|].
           apply elem_of_cons in Hc as [[= -> ->]|Hc]; [done|]. right. eauto.
    + rewrite Hsame. unfold highlight_cell. by case_bool_decide.
Qed.

Lemma timers_loop (timers : list (nat * string)) st :
  let st' := foldl start_timer st timers in
  ∃ h, st' = Build (rows st) (cols st) (note_sounds st) (playing_notes st)
               (grid st) (hexagons st) (active_notes st) (chord_highlights st)
               (is_dragging st) (drag_toggle_state st) (already_toggled st)
               (h ++ history st)
       ∧ ∀ rc, toggle_count rc h = 0%nat.
Proof.
  revert st. induction timers as [|[i n] timers IH]; intros st; cbn [foldl].
  - exists []. by destruct st.
  - destruct (IH (start_timer st (i, n))) as (h & -> & Hh). simpl.
    exists (h ++ [PreviewTimer i n]). split; [by rewrite <- app_assoc|].
    intros rc. unfold toggle_count in *. rewrite List.filter_app, length_app.
    rewrite Hh. done.
Qed.

Lemma toggle_count_app rc h1 h2 :
  toggle_count rc (h1 ++ h2) = (toggle_count rc h1 + toggle_count rc h2)%nat.
Proof. unfold toggle_count. by rewrite List.filter_app, length_app. Qed.

Lemma highlight_chord_spec audio root quality st :
  Inv audio st ->
  ∃ st', highlight_chord root quality st = Ok st'
    ∧ Inv audio st'
    ∧ (∀ rc, rc ∈ chord_highlights st' ↔
             ∃ hex, dict_get rc (hexagons st) = Some hex
                    ∧ pitch_index hex
                      ∈ chord_indices (pitch_class_to_index root) quality)
    ∧ no_toggle st st'.
Proof.
  intros HI. unfold highlight_chord. rewrite (clear_chord_highlights_ok audio) by done.
  simpl. set (indices := chord_indices (pitch_class_to_index root) quality).
  pose proof (highlight_loop indices (hexagons st) (set_chord_highlights ∅ st))
    as [Hin Hsame].
  set (lit := foldl (highlight_cell indices) (set_chord_highlights ∅ st)
                (hexagons st)) in *.
  destruct (timers_loop (imap (fun i n => (i, n)) (map index_to_pitch_class indices)) lit)
    as (h & Hst' & Hh).
  eexists. split; [reflexivity|]. rewrite Hst'.
  assert (Hfields : hexagons lit = hexagons st ∧ active_notes lit = active_notes st
                    ∧ playing_notes lit = playing_notes st
                    ∧ already_toggled lit = already_toggled st
                    ∧ history lit = history st).
  { change (hexagons lit) with (hexagons (set_chord_highlights ∅ lit)).
    change (active_notes lit) with (active_notes (set_chord_highlights ∅ lit)).
    change (playing_notes lit) with (playing_notes (set_chord_highlights ∅ lit)).
    change (already_toggled lit) with (already_toggled (set_chord_highlights ∅ lit)).
    change (history lit) with (history (set_chord_highlights ∅ lit)).
    by rewrite Hsame. }
  destruct Hfields as (Hhex & Hact & Hplay & Hvis & Hhist).
  assert (Hhl : ∀ rc, rc ∈ chord_highlights lit ↔
                      ∃ hex, dict_get rc (hexagons st) = Some hex
                             ∧ pitch_index hex ∈ indices).
  { intros rc. rewrite Hin. simpl. split.
    - intros [Hemp|(hex & Hc & Hp)]; [set_solver|].
      exists hex. split; [|done].
      by apply elem_of_dict_get; [apply (inv_hexagons _ _ HI)|].
    - intros (hex & Hget & Hp). right. exists hex.
      split; [by apply dict_get_elem_of|done]. }
  split; [|split].
  - split; simpl; rewrite ?Hhex, ?Hact, ?Hplay.
    + apply (inv_hexagons _ _ HI).
    + apply (inv_active_cells _ _ HI).
    + intros rc [hex [Hget _]]%Hhl. by eauto.
    + apply (inv_active_flag _ _ HI).
    + apply (inv_registry _ _ HI).
    + apply (inv_no_audio _ _ HI).
  - done.
  - split; simpl; [done|]. intros rc. by rewrite toggle_count_app, Hh, Hhist.
Qed.

(** The loop of [clear_all] over the looping notes. *)
Lemma stop_all_loop st ks :
  dict_keys (playing_notes st) = ks ->
  ∃ h, foldl stop_playing st ks
       = Build (rows st) (cols st) (note_sounds st) [] (grid st) (hexagons st)
           (active_notes st) (chord_highlights st) (is_dragging st)
           (drag_toggle_state st) (already_toggled st) (h ++ history st)
       ∧ ∀ rc, toggle_count rc h = 0%nat.
Proof.
  revert st. induction ks as [|k ks IH]; intros st Hks; cbn [foldl].
  - exists []. destruct st as [? ? ? reg]. simpl in *. by destruct reg.
  - destruct (playing_notes st) as [|[k' ch] reg] eqn:Hreg; [done|].
    simpl in Hks. injection Hks as -> <-.
    assert (Hstop : stop_playing st k
                    = set_playing_notes reg (log (ChannelStop ch) st)).
    { unfold stop_playing. rewrite Hreg. simpl. by rewrite !decide_True. }
    rewrite Hstop. destruct (IH (set_playing_notes reg (log (ChannelStop ch) st)))
      as (h & -> & Hh); [done|].
    simpl. exists (h ++ [ChannelStop ch]). split; [by rewrite <- app_assoc|].
    intros rc. by rewrite toggle_count_app, Hh.
Qed.

Lemma deactivate_spec cells (hexs : pydict coord hex_data) :
  (∀ rc, rc ∈ cells -> is_Some (dict_get rc hexs)) ->
  ∃ hexs', deactivate cells hexs = Ok hexs'
    ∧ (NoDup (dict_keys hexs) -> NoDup (dict_keys hexs'))
    ∧ (∀ rc, is_Some (dict_get rc hexs') ↔ is_Some (dict_get rc hexs))
    ∧ ∀ rc hex', dict_get rc hexs' = Some hex' ->
        ∃ hex, dict_get rc hexs = Some hex
               ∧ (rc ∈ cells -> active hex' = false)
               ∧ (rc ∉ cells -> hex' = hex).
Proof.
  revert hexs. induction cells as [|rc0 cells IH]; intros hexs Hkeys; simpl.
  - exists hexs. split; [done|]. split; [done|]. split; [done|].
    intros rc hex' Hget. exists hex'. split; [done|]. split; [|done].
    intros Hin. by apply elem_of_nil in Hin.
  - destruct (Hkeys rc0) as [hex0 Hget0]; [left|]. rewrite Hget0.
    destruct (IH (dict_set rc0 (set_active false hex0) hexs))
      as (hexs' & -> & Hnd & Hsome & Hval).
    { intros rc Hin. apply dict_set_is_Some; [by eauto|].
      apply Hkeys. by right. }
    exists hexs'. split; [done|]. split; [|split].
    + intros H. by apply Hnd, dict_set_NoDup.
    + intros rc. rewrite Hsome. apply dict_set_is_Some. by eauto.
    + intros rc hex' Hget. destruct (Hval rc hex' Hget) as (hex & Hset & Hin & Hout).
      rewrite dict_get_set in Hset. case_decide as Heq.
      * subst rc0. injection Hset as <-. exists hex0. split; [done|]. split.
        -- intros _. destruct (decide (rc ∈ cells)) as [Hc|Hc]; [auto|].
           by rewrite (Hout Hc).
        -- intros Hn. exfalso. apply Hn. left.
      * exists hex. split; [done|]. split.
        -- intros [->|Hc]%elem_of_cons; [done|auto].
        -- intros Hn. apply Hout. intros Hc. apply Hn. by right.
Qed.

Lemma clear_all_spec audio st :
  Inv audio st ->
  ∃ st', clear_all audio st = Ok st'
    ∧ Inv audio st'
    ∧ chord_highlights st' = ∅
    ∧ (audio = true -> active_notes st' = ∅ ∧ playing_notes st' = [])
    ∧ (audio = false -> st' = set_chord_highlights ∅ st)
    ∧ no_toggle st st'.
Proof.
  intros HI. unfold clear_all.
  rewrite (clear_chord_highlights_ok audio) by done. simpl.
  assert (HI0 : Inv audio (set_chord_highlights ∅ st)).
  { apply Inv_set_chord_highlights; [done|]. intros rc Hin. set_solver. }
  destruct audio; simpl.
  - destruct (stop_all_loop (set_chord_highlights ∅ st)
                (dict_keys (playing_notes st))) as (h & Hloop & Hh); [done|].
    simpl in Hloop. rewrite Hloop. simpl.
    destruct (deactivate_spec (elements (active_notes st)) (hexagons st))
      as (hexs' & -> & Hnd & Hsome & Hval).
    { intros rc Hin%elem_of_elements. by apply (inv_active_cells _ _ HI). }
    simpl. eexists. split; [reflexivity|]. split; [|split; [done|split; [done|split; [done|]]]].
    + split; simpl.
      * apply Hnd, (inv_hexagons _ _ HI).
      * intros rc Hin. set_solver.
      * intros rc Hin. set_solver.
      * intros rc hex' Hget. destruct (Hval rc hex' Hget) as (hex & Hold & Hin & Hout).
        rewrite bool_decide_eq_false_2 by set_solver.
        destruct (decide (rc ∈ active_notes st)) as [Hact|Hact].
        -- apply Hin. by apply elem_of_elements.
        -- rewrite Hout by (by rewrite elem_of_elements).
           rewrite (inv_active_flag _ _ HI _ _ Hold).
           by apply bool_decide_eq_false_2.
      * apply NoDup_nil_2.
      * done.
    + split; simpl; [done|]. intros rc. by rewrite toggle_count_app, Hh.
  - eexists. split; [reflexivity|]. split; [done|]. split; [done|].
    split; [done|]. split; [done|]. by split.
Qed.

Lemma find_hex_at_point_Some x y st rc :
  find_hex_at_point x y st = Some rc -> is_Some (dict_get rc (hexagons st)).
Proof.
  unfold find_hex_at_point. intros Hfind.
  destruct (list_find _ (hexagons st)) as [[i [rc' hex]]|] eqn:Hlf; [|done].
  injection Hfind as ->. apply list_find_Some in Hlf as (Hlook & _ & _).
  apply dict_get_is_Some. change rc with (fst (rc, hex)).
  apply list_elem_of_fmap_2. by eapply list_elem_of_lookup_2.
Qed.

Lemma Inv_handle audio fc ev st :
  Inv audio st -> ∃ st', handle audio fc ev st = Ok st' ∧ Inv audio st'.
Proof.
  intros HI. destruct ev as [inaxes button x y|inaxes x y| |key]; simpl.
  - unfold on_press. destruct (negb inaxes || negb (button =? 1)); [by eauto|].
    destruct (find_hex_at_point x y st) as [rc|] eqn:Hfind; [|by eauto].
    apply find_hex_at_point_Some in Hfind as [hex Hget].
    apply (toggle_note_ok _ _ _ _ hex); [by apply Inv_set_drag|done].
  - unfold on_motion. destruct (negb (is_dragging st) || negb inaxes); [by eauto|].
    destruct (find_hex_at_point x y st) as [rc|] eqn:Hfind; [|by eauto].
    apply find_hex_at_point_Some in Hfind as [hex Hget].
    case_bool_decide; [by eauto|].
    case_bool_decide; [|by eauto using Inv_set_drag].
    apply (toggle_note_ok _ _ _ _ hex); [by apply Inv_set_drag|done].
  - eexists. split; [done|]. by apply Inv_set_drag.
  - unfold on_key. repeat case_match.
    + destruct (clear_all_spec audio st HI) as (st' & ? & ? & _). eauto.
    + destruct (highlight_chord_spec audio key "major" st HI) as (st' & ? & ? & _).
      eauto.
    + destruct (highlight_chord_spec audio (str_upper key) "minor" st HI)
        as (st' & ? & ? & _). eauto.
    + eauto.
Qed.

Lemma reachable_Inv audio st : reachable audio st -> Inv audio st.
Proof.
  induction 1 as [rows cols made|st fc ev st' _ IH Hstep].
  - apply Inv_startup.
  - destruct (Inv_handle audio fc ev st IH) as (st'' & Hok & HI).
    rewrite Hok in Hstep. by injection Hstep as <-.
Qed.

(** ** Toggling *)

Lemma reachable_origin_pressed audio : reachable audio (origin_pressed audio).
Proof.
  apply (reachable_handle audio (startup audio 7 12 (fun _ => true))
           (Some 0%nat) (press_at 3 6)); [apply reachable_startup|].
  destruct audio; vm_compute; reflexivity.
Qed.

Example origin_pressed_registry :
  playing_notes (origin_pressed true) = [("C"%string, 0%nat)]
  ∧ playing_notes (origin_pressed false) = [].
Proof. vm_compute. done. Qed.

Lemma start_frame audio fc n st :
  let st' := start_continuous_note audio fc n st in
  hexagons st' = hexagons st ∧ active_notes st' = active_notes st
  ∧ chord_highlights st' = chord_highlights st
  ∧ is_dragging st' = is_dragging st
  ∧ drag_toggle_state st' = drag_toggle_state st
  ∧ already_toggled st' = already_toggled st
  ∧ ∀ rc, toggle_count rc (history st') = toggle_count rc (history st).
Proof. unfold start_continuous_note. by repeat case_match. Qed.

Lemma stop_frame audio n st :
  let st' := stop_continuous_note audio n st in
  hexagons st' = hexagons st ∧ active_notes st' = active_notes st
  ∧ chord_highlights st' = chord_highlights st
  ∧ is_dragging st' = is_dragging st
  ∧ drag_toggle_state st' = drag_toggle_state st
  ∧ already_toggled st' = already_toggled st
  ∧ ∀ rc, toggle_count rc (history st') = toggle_count rc (history st).
Proof. unfold stop_continuous_note, stop_playing. by repeat case_match. Qed.

Lemma toggle_note_effect audio fc rc ps hex st :
  dict_get rc (hexagons st) = Some hex ->
  let on := bool_decide (rc ∈ active_notes st) in
  ∃ st', toggle_note audio fc rc ps st = Ok st'
    ∧ active_notes st'
      = (if on then active_notes st ∖ {[rc]} else active_notes st ∪ {[rc]})
    ∧ hexagons st' = dict_set rc (set_active (negb on) hex) (hexagons st)
    ∧ chord_highlights st' = chord_highlights st
    ∧ is_dragging st' = is_dragging st
    ∧ drag_toggle_state st' = drag_toggle_state st
    ∧ already_toggled st' = already_toggled st
    ∧ ∀ rc', toggle_count rc' (history st')
             = (toggle_count rc' (history st)
                + if bool_decide (rc = rc') then 1 else 0)%nat.
Proof.
  intros Hget on.
  pose proof (toggle_note_unfold audio fc rc ps hex st Hget) as Hu. simpl in Hu.
  fold on in Hu. eexists. split; [exact Hu|].
  set (flipped := set_hexagons _ _) in *.
  assert (Hcount : ∀ rc', toggle_count rc' (history flipped)
                          = (toggle_count rc' (history st)
                             + if bool_decide (rc = rc') then 1 else 0)%nat).
  { intros rc'. unfold toggle_count. simpl. case_bool_decide; simpl; lia. }
  destruct ps; [destruct on|].
  - destruct (stop_frame audio (note hex) flipped)
      as (-> & -> & -> & -> & -> & -> & Hc).
    repeat (split; [done|]). intros rc'. by rewrite Hc.
  - destruct (start_frame audio fc (note hex) flipped)
      as (-> & -> & -> & -> & -> & -> & Hc).
    repeat (split; [done|]). intros rc'. by rewrite Hc.
  - by repeat (split; [done|]).
Qed.

(** C8. For every cell of the lattice, in every reachable state, toggling the
    cell twice in succession (with any sound flags and mixer answers)
    succeeds, flips the cell's [active] flag and flips it back, and leaves
    [active_notes] equal to what it was before the pair. *)
Theorem toggle_twice_restores audio st rc hex fc1 fc2 ps1 ps2 :
  reachable audio st ->
  dict_get rc (hexagons st) = Some hex ->
  ∃ st1 st2,
    toggle_note audio fc1 rc ps1 st = Ok st1
    ∧ toggle_note audio fc2 rc ps2 st1 = Ok st2
    ∧ active <$> dict_get rc (hexagons st1) = Some (negb (active hex))
    ∧ active <$> dict_get rc (hexagons st2) = Some (active hex)
    ∧ active_notes st2 = active_notes st.
Proof.
  intros HI%reachable_Inv Hget.
  destruct (toggle_note_effect audio fc1 rc ps1 hex st Hget)
    as (st1 & Ht1 & Hact1 & Hhex1 & _).
  assert (Hget1 : dict_get rc (hexagons st1)
                  = Some (set_active (negb (bool_decide (rc ∈ active_notes st))) hex))
    by (by rewrite Hhex1, dict_get_set_eq).
  destruct (toggle_note_effect audio fc2 rc ps2 _ st1 Hget1)
    as (st2 & Ht2 & Hact2 & Hhex2 & _).
  exists st1, st2. split; [done|]. split; [done|].
  rewrite (inv_active_flag _ _ HI _ _ Hget).
  rewrite Hget1, Hhex2, dict_get_set_eq, Hact2, Hact1. simpl.
  destruct (bool_decide_reflect (rc ∈ active_notes st)) as [Hin|Hin]; simpl.
  - rewrite bool_decide_eq_false_2 by set_solver. simpl.
    split; [done|]. split; [done|].
    apply set_eq. intros x. destruct (decide (x = rc)); set_solver.
  - rewrite bool_decide_eq_true_2 by set_solver. simpl.
    split; [done|]. split; [done|]. set_solver.
Qed.

Lemma toggle_twice_restores_witness :
  let st := startup true 7 12 (fun _ => true) in
  ∃ st1 st2,
    toggle_note true (Some 0%nat) (3, 6) true st = Ok st1
    ∧ toggle_note true None (3, 6) true st1 = Ok st2
    ∧ active <$> dict_get (3, 6) (hexagons st1) = Some (negb false)
    ∧ active <$> dict_get (3, 6) (hexagons st2) = Some false
    ∧ active_notes st2 = active_notes st.
Proof.
  apply (toggle_twice_restores true (startup true 7 12 (fun _ => true)) (3, 6)
           (HexData "C" 0 (hex_position 3 6) false) (Some 0%nat) None true true).
  - apply reachable_startup.
  - vm_compute. reflexivity.
Defined.

(** ** The registry of looping notes *)

(** C7. In every reachable state the registry holds at most one channel per
    note name, and: starting a registered note changes nothing (no channel is
    asked for); starting an unregistered note leaves the registry as it is or
    appends one registration for that note; stopping a note removes its
    registration, touches no other, and changes nothing when the note is not
    registered; [clear_all] leaves the registry empty.  Each operation keeps
    the registry at one channel per name. *)
Theorem registry_one_channel_per_note audio st :
  reachable audio st ->
  NoDup (dict_keys (playing_notes st))
  ∧ (∀ fc n,
       let st' := start_continuous_note audio fc n st in
       NoDup (dict_keys (playing_notes st'))
       ∧ (dict_mem n (playing_notes st) = true -> st' = st)
       ∧ (dict_mem n (playing_notes st) = false ->
          playing_notes st' = playing_notes st
          ∨ ∃ ch, fc = Some ch
                  ∧ playing_notes st' = playing_notes st ++ [(n, ch)]))
  ∧ (∀ n,
       let st' := stop_continuous_note audio n st in
       NoDup (dict_keys (playing_notes st'))
       ∧ dict_get n (playing_notes st') = None
       ∧ (∀ n', n' ≠ n ->
                dict_get n' (playing_notes st') = dict_get n' (playing_notes st))
       ∧ (dict_get n (playing_notes st) = None -> st' = st))
  ∧ ∃ st', clear_all audio st = Ok st'
           ∧ playing_notes st' = []
           ∧ NoDup (dict_keys (playing_notes st')).
Proof.
  intros HI%reachable_Inv. split; [apply (inv_registry _ _ HI)|].
  split; [|split].
  - intros fc n st'. split; [apply (inv_registry _ _ (Inv_start audio fc n st HI))|].
    subst st'. unfold start_continuous_note. split.
    + intros ->. by repeat case_match.
    + intros Hmem. rewrite Hmem. repeat case_match; simpl; auto.
      right. eexists. split; [done|]. by apply dict_set_new.
  - intros n st'. split; [apply (inv_registry _ _ (Inv_stop audio n st HI))|].
    subst st'. unfold stop_continuous_note, stop_playing.
    destruct audio; simpl.
    + destruct (dict_get n (playing_notes st)) as [ch|] eqn:Hget; simpl.
      * split; [apply dict_get_del_eq, (inv_registry _ _ HI)|].
        split; [|done]. intros n' Hne. by apply dict_get_del_ne.
      * done.
    + rewrite (inv_no_audio _ _ HI) by done. done.
  - destruct (clear_all_spec audio st HI) as (st' & Hok & HI' & _ & Hon & Hoff & _).
    exists st'. split; [done|]. split; [|apply (inv_registry _ _ HI')].
    destruct audio.
    + by apply Hon.
    + rewrite Hoff by done. simpl. by apply (inv_no_audio _ _ HI).
Qed.

Lemma registry_one_channel_per_note_witness :
  let st := origin_pressed true in
  NoDup (dict_keys (playing_notes st))
  ∧ (∀ fc n,
       let st' := start_continuous_note true fc n st in
       NoDup (dict_keys (playing_notes st'))
       ∧ (dict_mem n (playing_notes st) = true -> st' = st)
       ∧ (dict_mem n (playing_notes st) = false ->
          playing_notes st' = playing_notes st
          ∨ ∃ ch, fc = Some ch
                  ∧ playing_notes st' = playing_notes st ++ [(n, ch)]))
  ∧ (∀ n,
       let st' := stop_continuous_note true n st in
       NoDup (dict_keys (playing_notes st'))
       ∧ dict_get n (playing_notes st') = None
       ∧ (∀ n', n' ≠ n ->
                dict_get n' (playing_notes st') = dict_get n' (playing_notes st))
       ∧ (dict_get n (playing_notes st) = None -> st' = st))
  ∧ ∃ st', clear_all true st = Ok st'
           ∧ playing_notes st' = []
           ∧ NoDup (dict_keys (playing_notes st')).
Proof.
  apply (registry_one_channel_per_note true (origin_pressed true)).
  apply reachable_origin_pressed.
Defined.

(** ** Clearing *)

Lemma clear_all_with_audio st :
  reachable true st ->
  ∃ st', clear_all true st = Ok st'
    ∧ active_notes st' = ∅ ∧ playing_notes st' = [] ∧ chord_highlights st' = ∅.
Proof.
  intros HI%reachable_Inv.
  destruct (clear_all_spec true st HI) as (st' & Hok & _ & Hhl & Hon & _).
  exists st'. destruct Hon as [? ?]; done.
Qed.

Lemma clear_all_without_audio st :
  reachable false st ->
  clear_all false st = Ok (set_chord_highlights ∅ st).
Proof.
  intros HI%reachable_Inv.
  destruct (clear_all_spec false st HI) as (st' & Hok & _ & _ & _ & Hoff & _).
  by rewrite Hok, Hoff.
Qed.

(** C2 (the program at the failing input). With the audio subsystem
    unavailable, after cells (3,6), (0,0) and (2,5) of a 7 x 12 lattice are
    toggled on by presses, the space key returns normally and leaves all three
    cells in [active_notes]: [clear_all] returns right after clearing the
    chord highlights. *)
Theorem space_key_without_audio_keeps_active_notes :
  ∃ st st',
    run false [(None, press_at 3 6); (None, button_release);
               (None, press_at 0 0); (None, button_release);
               (None, press_at 2 5); (None, button_release)]
      (startup false 7 12 (fun _ => true)) = Ok st
    ∧ active_notes st = {[ (3, 6); (0, 0); (2, 5) ]}
    ∧ handle false None (key_press " ") st = Ok st'
    ∧ active_notes st' = {[ (3, 6); (0, 0); (2, 5) ]}
    ∧ playing_notes st' = []
    ∧ chord_highlights st' = ∅
    ∧ active_notes st' ≠ ∅.
Proof.
  eexists _, _. split; [vm_compute; reflexivity|].
  split; [vm_compute; reflexivity|].
  split; [vm_compute; reflexivity|].
  split; [vm_compute; reflexivity|].
  split; [reflexivity|]. split; [reflexivity|].
  intros Hempty. assert (H : (3, 6) ∈ (∅ : gset coord)); [|set_solver].
  rewrite <- Hempty. vm_compute. reflexivity.
Qed.

(** ** Chord keys *)

Lemma on_key_letter audio key st :
  String.eqb key " " = false ->
  str_in (str_upper key) "CDEFGAB" = true ->
  on_key audio key st
  = if str_isupper key then highlight_chord key "major" st
    else highlight_chord (str_upper key) "minor" st.
Proof. intros Hsp Hin. unfold on_key. by rewrite Hsp, Hin. Qed.

Lemma letter_roots_cases up :
  up ∈ letter_roots ->
  String.eqb up " " = false ∧ String.eqb (str_lower up) " " = false
  ∧ str_in (str_upper up) "CDEFGAB" = true
  ∧ str_in (str_upper (str_lower up)) "CDEFGAB" = true
  ∧ str_isupper up = true ∧ str_isupper (str_lower up) = false
  ∧ str_upper (str_lower up) = up
  ∧ list_index up pitch_classes = Some (pitch_class_to_index up).
Proof.
  unfold letter_roots. rewrite !elem_of_cons, elem_of_nil.
  intros [H|[H|[H|[H|[H|[H|[H|[]]]]]]]]; subst up;
    vm_compute; repeat split; congruence.
Qed.

(** C6. For each letter of C, D, E, F, G, A, B: the uppercase key runs
    [highlight_chord] on that root with major quality and the lowercase key
    runs it on the same (uppercased) root with minor quality; with
    [root_index] the index of the root name, the chord indices are
    [root_index, (root_index+4) mod 12, (root_index+7) mod 12] for major and
    [root_index, (root_index+3) mod 12, (root_index+7) mod 12] for minor, and
    in every reachable state the key highlights exactly the cells whose pitch
    class is one of them.  C major is [0, 4, 7] and C minor is [0, 3, 7]. *)
Theorem letter_keys_highlight_triads audio st up :
  reachable audio st ->
  up ∈ letter_roots ->
  let lo := str_lower up in
  let root_index := pitch_class_to_index up in
  let major := [root_index; (root_index + 4) mod 12; (root_index + 7) mod 12] in
  let minor := [root_index; (root_index + 3) mod 12; (root_index + 7) mod 12] in
  on_key audio up st = highlight_chord up "major" st
  ∧ on_key audio lo st = highlight_chord up "minor" st
  ∧ list_index up pitch_classes = Some root_index
  ∧ chord_indices root_index "major" = major
  ∧ chord_indices root_index "minor" = minor
  ∧ (∃ st', on_key audio up st = Ok st'
       ∧ ∀ rc, rc ∈ chord_highlights st' ↔
               ∃ hex, dict_get rc (hexagons st) = Some hex
                      ∧ pitch_index hex ∈ major)
  ∧ (∃ st', on_key audio lo st = Ok st'
       ∧ ∀ rc, rc ∈ chord_highlights st' ↔
               ∃ hex, dict_get rc (hexagons st) = Some hex
                      ∧ pitch_index hex ∈ minor)
  ∧ chord_indices (pitch_class_to_index "C") "major" = [0; 4; 7]
  ∧ chord_indices (pitch_class_to_index "C") "minor" = [0; 3; 7].
Proof.
  intros HI%reachable_Inv Hkey lo root_index major minor.
  destruct (letter_roots_cases up Hkey)
    as (Hsp1 & Hsp2 & Hin1 & Hin2 & Hup1 & Hup2 & Hlo & Hidx).
  assert (Hmaj : on_key audio up st = highlight_chord up "major" st)
    by (by rewrite on_key_letter, Hup1).
  assert (Hmin : on_key audio lo st = highlight_chord up "minor" st)
    by (unfold lo; by rewrite on_key_letter, Hup2, Hlo).
  split; [done|]. split; [done|]. split; [done|].
  split; [reflexivity|]. split; [reflexivity|].
  split; [|split; [|split; reflexivity]].
  - rewrite Hmaj.
    destruct (highlight_chord_spec audio up "major" st HI) as (st' & Hok & _ & Hhl & _).
    by exists st'.
  - rewrite Hmin.
    destruct (highlight_chord_spec audio up "minor" st HI) as (st' & Hok & _ & Hhl & _).
    by exists st'.
Qed.

Lemma letter_keys_highlight_triads_witness :
  let st := origin_pressed true in
  let root_index := pitch_class_to_index "G" in
  let major := [root_index; (root_index + 4) mod 12; (root_index + 7) mod 12] in
  let minor := [root_index; (root_index + 3) mod 12; (root_index + 7) mod 12] in
  on_key true "G" st = highlight_chord "G" "major" st
  ∧ on_key true "g" st = highlight_chord "G" "minor" st
  ∧ list_index "G" pitch_classes = Some root_index
  ∧ chord_indices root_index "major" = major
  ∧ chord_indices root_index "minor" = minor
  ∧ (∃ st', on_key true "G" st = Ok st'
       ∧ ∀ rc, rc ∈ chord_highlights st' ↔
               ∃ hex, dict_get rc (hexagons st) = Some hex
                      ∧ pitch_index hex ∈ major)
  ∧ (∃ st', on_key true "g" st = Ok st'
       ∧ ∀ rc, rc ∈ chord_highlights st' ↔
               ∃ hex, dict_get rc (hexagons st) = Some hex
                      ∧ pitch_index hex ∈ minor)
  ∧ chord_indices (pitch_class_to_index "C") "major" = [0; 4; 7]
  ∧ chord_indices (pitch_class_to_index "C") "minor" = [0; 3; 7].
Proof.
  apply (letter_keys_highlight_triads true (origin_pressed true) "G").
  - apply reachable_origin_pressed.
  - vm_compute. do 4 right. left.
Defined.

(** ** Drag gestures *)

Lemma on_motion_visited audio fc inaxes x y st rc :
  find_hex_at_point x y st = Some rc ->
  rc ∈ already_toggled st ->
  on_motion audio fc inaxes x y st = Ok st.
Proof.
  intros Hfind Hin. unfold on_motion. rewrite Hfind.
  rewrite bool_decide_eq_true_2 by done. by case_match.
Qed.

Lemma on_motion_matching audio fc x y st rc :
  is_dragging st = true ->
  find_hex_at_point x y st = Some rc ->
  rc ∉ already_toggled st ->
  drag_toggle_state st = Some (bool_decide (rc ∈ active_notes st)) ->
  on_motion audio fc true x y st
  = Ok (set_drag true (drag_toggle_state st) (already_toggled st ∪ {[rc]}) st).
Proof.
  intros Hdrag Hfind Hin Hdir. unfold on_motion. rewrite Hdrag, Hfind. simpl.
  rewrite bool_decide_eq_false_2 by done.
  rewrite bool_decide_eq_false_2; [done|]. intros Hne. by rewrite Hdir in Hne.
Qed.

(** The toggles of a gesture, counted from the history [h0] before its
    press: none for a cell not yet visited, at most one for a visited one. *)
Lemma gesture_step audio h0 fc ev st :
  Inv audio st ->
  within_gesture ev ->
  (∀ rc, (toggle_count rc (history st)
          <= toggle_count rc h0
             + if bool_decide (rc ∈ already_toggled st) then 1 else 0)%nat) ->
  ∃ st', handle audio fc ev st = Ok st'
    ∧ Inv audio st'
    ∧ ∀ rc, (toggle_count rc (history st')
             <= toggle_count rc h0
                + if bool_decide (rc ∈ already_toggled st') then 1 else 0)%nat.
Proof.
  intros HI Hev HG.
  destruct (Inv_handle audio fc ev st HI) as (st' & Hok & HI').
  exists st'. split; [done|]. split; [done|].
  destruct ev as [| inaxes x y | | key]; try done; simpl in Hok.
  - unfold on_motion in Hok.
    destruct (negb (is_dragging st) || negb inaxes); [by injection Hok as <-|].
    destruct (find_hex_at_point x y st) as [hit|] eqn:Hfind;
      [|by injection Hok as <-].
    case_bool_decide as Hvis; [by injection Hok as <-|].
    assert (Hgrow : ∀ rc, (toggle_count rc (history st)
              <= toggle_count rc h0
                 + if bool_decide (rc ∈ already_toggled st ∪ {[hit]})
                   then 1 else 0)%nat).
    { intros rc. specialize (HG rc). repeat case_bool_decide; set_solver by lia. }
    case_bool_decide as Hdir; [|by injection Hok as <-].
    apply find_hex_at_point_Some in Hfind as [hex Hget].
    set (st1 := set_drag _ _ _ st) in Hok.
    destruct (toggle_note_effect audio fc hit true hex st1 Hget)
      as (st'' & Hok'' & _ & _ & _ & _ & _ & Hvis'' & Hcount).
    rewrite Hok'' in Hok. injection Hok as <-.
    intros rc. rewrite Hcount, Hvis''. simpl. specialize (HG rc).
    specialize (Hgrow rc). destruct (decide (hit = rc)) as [<-|Hne].
    + rewrite bool_decide_eq_false_2 in HG by done.
      rewrite (bool_decide_eq_true_2 (hit = hit)) by done.
      rewrite bool_decide_eq_true_2 by set_solver. lia.
    + rewrite (bool_decide_eq_false_2 (hit = rc)) by done. lia.
  - unfold on_key in Hok.
    assert (Hnt : no_toggle st st').
    { repeat case_match.
      - destruct (clear_all_spec audio st HI) as (s & Hs & _ & _ & _ & _ & Hnt).
        rewrite Hs in Hok. by injection Hok as <-.
      - destruct (highlight_chord_spec audio key "major" st HI)
          as (s & Hs & _ & _ & Hnt). rewrite Hs in Hok. by injection Hok as <-.
      - destruct (highlight_chord_spec audio (str_upper key) "minor" st HI)
          as (s & Hs & _ & _ & Hnt). rewrite Hs in Hok. by injection Hok as <-.
      - injection Hok as <-. by split. }
    destruct Hnt as [Hvis Hcount]. intros rc. by rewrite Hcount, Hvis.
Qed.

Lemma gesture_run audio h0 evs st :
  Inv audio st ->
  Forall (fun e => within_gesture e.2) evs ->
  (∀ rc, (toggle_count rc (history st)
          <= toggle_count rc h0
             + if bool_decide (rc ∈ already_toggled st) then 1 else 0)%nat) ->
  ∃ st', run audio evs st = Ok st'
    ∧ ∀ rc, (toggle_count rc (history st') <= toggle_count rc h0 + 1)%nat.
Proof.
  revert st. induction evs as [|[fc ev] evs IH]; intros st HI Hevs HG; simpl.
  - exists st. split; [done|]. intros rc. specialize (HG rc).
    case_bool_decide; lia.
  - apply Forall_cons in Hevs as [Hev Hevs].
    destruct (gesture_step audio h0 fc ev st HI Hev HG) as (st1 & -> & HI1 & HG1).
    simpl. by apply IH.
Qed.

(** C5. In every reachable state, a press that hits a cell followed by any
    sequence of motion (and key) events, up to the next release, is handled
    without error and calls [toggle_note] at most once on each cell
    coordinate, however often motion events report the same cell.  A motion
    over an already visited cell returns the state unchanged, and a motion
    over an unvisited cell whose membership in [active_notes] already equals
    the gesture's direction only adds the cell to the visited set. *)
Theorem drag_toggles_each_cell_once audio st fc x y hit evs :
  reachable audio st ->
  find_hex_at_point x y st = Some hit ->
  Forall (fun e => within_gesture e.2) evs ->
  (∃ st', run audio ((fc, button_press true 1 x y) :: evs) st = Ok st'
     ∧ ∀ rc, (toggle_count rc (history st')
              <= toggle_count rc (history st) + 1)%nat)
  ∧ (∀ s fc' inaxes x' y' rc,
       find_hex_at_point x' y' s = Some rc ->
       rc ∈ already_toggled s ->
       on_motion audio fc' inaxes x' y' s = Ok s)
  ∧ (∀ s fc' x' y' rc,
       is_dragging s = true ->
       find_hex_at_point x' y' s = Some rc ->
       rc ∉ already_toggled s ->
       drag_toggle_state s = Some (bool_decide (rc ∈ active_notes s)) ->
       ∃ s', on_motion audio fc' true x' y' s = Ok s'
          ∧ already_toggled s' = already_toggled s ∪ {[rc]}
          ∧ active_notes s' = active_notes s
          ∧ hexagons s' = hexagons s
          ∧ playing_notes s' = playing_notes s
          ∧ history s' = history s).
Proof.
  intros HI%reachable_Inv Hfind Hevs. split; [|split].
  - simpl. unfold on_press. simpl. rewrite Hfind.
    destruct (find_hex_at_point_Some _ _ _ _ Hfind) as [hex Hget].
    set (st1 := set_drag _ _ _ st).
    destruct (toggle_note_effect audio fc hit true hex st1 Hget)
      as (st0 & Hok & _ & _ & _ & _ & _ & Hvis & Hcount).
    rewrite Hok. simpl.
    apply gesture_run; [|done|].
    + destruct (toggle_note_ok audio fc hit true hex st1) as (s & Hs & HIs);
        [by apply Inv_set_drag|done|]. rewrite Hs in Hok. by injection Hok as <-.
    + intros rc. rewrite Hcount, Hvis. simpl.
      destruct (decide (hit = rc)) as [<-|Hne].
      * rewrite (bool_decide_eq_true_2 (hit = hit)) by done.
        rewrite bool_decide_eq_true_2 by set_solver. lia.
      * rewrite (bool_decide_eq_false_2 (hit = rc)) by done. lia.
  - intros s fc' inaxes x' y' rc. apply on_motion_visited.
  - intros s fc' x' y' rc Hdrag Hf Hvis Hdir.
    rewrite (on_motion_matching _ _ _ _ _ rc) by done. eexists. by split.
Qed.

Lemma drag_toggles_each_cell_once_witness :
  let st := startup true 7 12 (fun _ => true) in
  let evs := [(Some 1%nat, motion_notify true (hex_position 3 7).1 (hex_position 3 7).2);
              (Some 2%nat, motion_notify true (hex_position 3 7).1 (hex_position 3 7).2);
              (Some 3%nat, motion_notify true (hex_position 3 6).1 (hex_position 3 6).2)] in
  (∃ st', run true ((Some 0%nat,
                     button_press true 1 (hex_position 3 6).1 (hex_position 3 6).2)
                    :: evs) st = Ok st'
     ∧ ∀ rc, (toggle_count rc (history st')
              <= toggle_count rc (history st) + 1)%nat)
  ∧ (∀ s fc' inaxes x' y' rc,
       find_hex_at_point x' y' s = Some rc ->
       rc ∈ already_toggled s ->
       on_motion true fc' inaxes x' y' s = Ok s)
  ∧ (∀ s fc' x' y' rc,
       is_dragging s = true ->
       find_hex_at_point x' y' s = Some rc ->
       rc ∉ already_toggled s ->
       drag_toggle_state s = Some (bool_decide (rc ∈ active_notes s)) ->
       ∃ s', on_motion true fc' true x' y' s = Ok s'
          ∧ already_toggled s' = already_toggled s ∪ {[rc]}
          ∧ active_notes s' = active_notes s
          ∧ hexagons s' = hexagons s
          ∧ playing_notes s' = playing_notes s
          ∧ history s' = history s).
Proof.
  apply (drag_toggles_each_cell_once true (startup true 7 12 (fun _ => true))
           (Some 0%nat) (hex_position 3 6).1 (hex_position 3 6).2 (3, 6)).
  - apply reachable_startup.
  - vm_compute. reflexivity.
  - repeat constructor.
Defined.

Example drag_over_two_cells :
  ∃ st', run true
           [(Some 0%nat, press_at 3 6);
            (Some 1%nat, motion_notify true (hex_position 3 7).1 (hex_position 3 7).2);
            (Some 2%nat, motion_notify true (hex_position 3 7).1 (hex_position 3 7).2);
            (Some 3%nat, motion_notify true (hex_position 3 6).1 (hex_position 3 6).2)]
           (startup true 7 12 (fun _ => true)) = Ok st'
    ∧ history st'
      = [ChannelPlay 1%nat "F"; ToggleNote (3, 7) true;
         ChannelPlay 0%nat "C"; ToggleNote (3, 6) true].
Proof. eexists. split; vm_compute; reflexivity. Qed.

(* ------------------------------------------------------------------ *)
(** * Further properties of the program *)

(** ** The cells of the lattice *)

Lemma grid_cells_NoDup sr sc cells g :
  NoDup (dict_keys g) -> NoDup (dict_keys (foldl (grid_cell sr sc) g cells)).
Proof.
  revert g. induction cells as [|[r c] cells IH]; intros g Hnd; cbn [foldl];
    [done|].
  apply IH. unfold grid_cell. case_match; [done|]. by apply dict_set_NoDup.
Qed.

Lemma dict_set_head {K V} `{EqDecision K} (k k0 : K) (v v0 : V) d :
  k ≠ k0 -> head (dict_set k v ((k0, v0) :: d)) = Some (k0, v0).
Proof. intros Hne. simpl. by rewrite decide_False. Qed.

Lemma grid_cells_head sr sc cells g :
  head (foldl (grid_cell sr sc) (((sr, sc), 0) :: g) cells)
  = Some ((sr, sc), 0).
Proof.
  revert g. induction cells as [|[r c] cells IH]; intros g; cbn [foldl];
    [done|].
  unfold grid_cell at 2.
  destruct (Z.eqb_spec r sr) as [->|Hr], (Z.eqb_spec c sc) as [->|Hc]; simpl;
    try apply IH; rewrite decide_False by congruence; apply IH.
Qed.

Lemma lattice_cells_NoDup rows cols : NoDup (lattice_cells rows cols).
Proof.
  unfold lattice_cells, range. apply NoDup_bind.
  - intros r1 r2 rc _ _ (c1 & -> & _)%list_elem_of_fmap
      (c2 & [= <- _] & _)%list_elem_of_fmap. done.
  - intros r _. apply NoDup_fmap_2; [|apply NoDup_seqZ]. by intros c1 c2 [= ->].
  - apply NoDup_seqZ.
Qed.

Lemma lattice_cells_length rows cols :
  0 <= rows -> 0 <= cols ->
  Z.of_nat (length (lattice_cells rows cols)) = rows * cols.
Proof.
  intros Hrows Hcols. unfold lattice_cells, range.
  assert (Hgen : ∀ rs : list Z,
    Z.of_nat (length (r ← rs; (fun c => (r, c)) <$> seqZ 0 cols))
    = Z.of_nat (length rs) * cols).
  { induction rs as [|r rs IH]; [done|].
    change ((r :: rs) ≫= _)
      with (((fun c => (r, c)) <$> seqZ 0 cols)
            ++ (rs ≫= fun r => (fun c => (r, c)) <$> seqZ 0 cols)).
    rewrite length_app, length_fmap, length_seqZ, Nat2Z.inj_add, IH.
    simpl length. lia. }
  rewrite Hgen, length_seqZ. lia.
Qed.

Lemma lattice_keys rows cols rc :
  rc ∈ dict_keys (create_tonnetz_grid rows cols [])
  ↔ rc ∈ lattice_cells rows cols ∨ rc = (rows / 2, cols / 2).
Proof.
  rewrite <- dict_get_is_Some, create_tonnetz_grid_get. simpl.
  destruct (decide (rc = (rows / 2, cols / 2))) as [->|Hne].
  - rewrite decide_False by naive_solver. rewrite decide_True by done.
    split; [by right|by eauto].
  - destruct (decide (rc ∈ lattice_cells rows cols)) as [Hin|Hout].
    + rewrite decide_True by done. split; [by left|by eauto].
    + rewrite decide_False by naive_solver. rewrite decide_False by done.
      split; [by intros [? ?]|naive_solver].
Qed.

Lemma pitch_index_at_range sr sc row col : 0 <= pitch_index_at sr sc row col < 12.
Proof. unfold pitch_index_at. case_match; apply Z.mod_pos_bound; lia. Qed.

Lemma create_tonnetz_grid_NoDup rows cols :
  NoDup (dict_keys (create_tonnetz_grid rows cols [])).
Proof.
  unfold create_tonnetz_grid. rewrite grid_rows_flatten.
  apply grid_cells_NoDup. simpl. apply NoDup_singleton.
Qed.

Lemma create_tonnetz_grid_length rows cols :
  1 <= rows -> 1 <= cols ->
  Z.of_nat (length (create_tonnetz_grid rows cols [])) = rows * cols.
Proof.
  intros Hrows Hcols. rewrite <- (lattice_cells_length rows cols) by lia.
  f_equal. transitivity (length (dict_keys (create_tonnetz_grid rows cols [])));
    [unfold dict_keys; by rewrite length_map|].
  apply Permutation_length, NoDup_Permutation.
  - apply create_tonnetz_grid_NoDup.
  - apply lattice_cells_NoDup.
  - intros [row col]. rewrite lattice_keys. split; [|auto].
    intros [?|Heq]; [done|]. rewrite Heq. apply elem_of_lattice_cells.
    split; Z.div_mod_to_equations; lia.
Qed.

(** ** The lattice as it is built *)

Lemma pitch_index_at_closed sr sc row col :
  Z.abs (row - sr) <= 2 ^ 48 -> Z.abs (col - sc) <= 2 ^ 48 ->
  pitch_index_at sr sc row col
  = (7 * (col - sc) + 4 * (row - sr) - (if Z.even col then 0 else 2)) mod 12.
Proof.
  intros Hrow Hcol. unfold pitch_index_at. rewrite (Zmod_even col).
  destruct (Z.even col); simpl.
  - by rewrite Z.sub_0_r.
  - rewrite odd_column_sum_exact, pymod_12_half by done.
    unfold Float.trunc. simpl. change (2 ^ 1) with 2.
    rewrite <- (Z.mod_mod (_ - 2) 12) by lia. f_equal.
    Z.quot_rem_to_equations. Z.div_mod_to_equations. lia.
Qed.

Lemma spec_odd_pitch_int ro co : spec_odd_pitch ro co = int_odd_pitch ro co.
Proof.
  unfold spec_odd_pitch, spec_truncate, spec_mod, int_odd_pitch.
  unfold Qle_bool, Qfloor, Qceiling.
  cbn -[Z.mul Z.add Z.div Z.leb Z.opp].
  rewrite !Pos.mul_1_l, ?Pos.mul_1_r. change (Z.pos (2 * 12)) with 24.
  set (n := 7 * co + 4 * ro - 2).
  replace (7 * co * 2 + 4 * (ro * 2 + - (1) * 1) * 1) with (2 * n)
    by (unfold n; lia).
  replace ((2 * n * 1) `div` 24) with (n `div` 12)
    by (Z.div_mod_to_equations; lia).
  replace (2 * n * 1 + - (12 * n `div` 12) * 2) with (2 * (n mod 12))
    by (Z.div_mod_to_equations; lia).
  pose proof (Z.mod_pos_bound n 12 eq_refl) as Hn.
  rewrite (proj2 (Z.leb_le _ _)) by lia.
  Z.div_mod_to_equations; lia.
Qed.

Lemma pitch_index_at_spec rows cols row col :
  1 <= rows <= 2 ^ 48 -> 1 <= cols <= 2 ^ 48 ->
  0 <= row < rows -> 0 <= col < cols ->
  pitch_index_at (rows / 2) (cols / 2) row col = spec_pitch rows cols row col.
Proof.
  intros Hrows Hcols Hrow Hcol.
  rewrite pitch_index_at_closed by (by apply cell_offsets_bounded).
  unfold spec_pitch. rewrite spec_odd_pitch_int. unfold int_odd_pitch.
  destruct (Z.even col); f_equal; lia.
Qed.

Lemma finite_small m e :
  Z.abs m < 2 ^ 53 -> e <= 0 -> Float.finite (Float.mk m e) = true.
Proof.
  intros Hm He. unfold Float.finite. cbn [Float.mant Float.expo].
  destruct (Z.eqb_spec m 0) as [|Hne]; [done|]. cbn [orb].
  apply Z.ltb_lt.
  assert (Z.log2 (Z.abs m) < 53) by (apply Z.log2_lt_pow2; lia). lia.
Qed.

(** The value of a cell whose computation returns is [pitch_index_at]. *)
Lemma cell_pitch_index_Ok sr sc row col v :
  cell_pitch_index sr sc row col = Ok v -> v = pitch_index_at sr sc row col.
Proof.
  unfold cell_pitch_index, pitch_index_at, odd_column_pitch, float_of_int,
    odd_column_sum.
  destruct (col mod 2 =? 0); [by intros [= <-]|].
  destruct (Float.finite (Float.of_Z (row - sr))); [|done].
  cbn [mbind result_bind].
  destruct (Float.finite (Float.of_Z (7 * (col - sc)))); [|done].
  cbn [mbind result_bind].
  match goal with |- (if ?b then _ else _) = _ -> _ => destruct b end;
    [by intros [= <-]|done].
Qed.

(** Within 2^48 of the origin nothing leaves the range. *)
Lemma cell_pitch_index_bounded sr sc row col :
  Z.abs (row - sr) <= 2 ^ 48 -> Z.abs (col - sc) <= 2 ^ 48 ->
  cell_pitch_index sr sc row col = Ok (pitch_index_at sr sc row col).
Proof.
  intros Hrow Hcol.
  destruct (cell_pitch_index sr sc row col) as [v|e] eqn:Hcell.
  { by rewrite (cell_pitch_index_Ok _ _ _ _ _ Hcell). }
  exfalso. revert Hcell.
  unfold cell_pitch_index, odd_column_pitch, float_of_int.
  destruct (col mod 2 =? 0); [done|].
  set (ro := row - sr) in *. set (co := col - sc) in *.
  rewrite !of_Z_small by lia.
  rewrite !finite_small by lia. cbn [mbind result_bind].
  unfold Float.sub, Float.align, Float.half. simpl Float.expo. simpl Float.mant.
  change (Z.min 0 (-1)) with (-1). change (2 ^ (0 - -1)) with 2.
  change (1 * 2 ^ (-1 - -1)) with 1. rewrite round_small by lia.
  unfold Float.mul. simpl Float.expo. simpl Float.mant.
  rewrite round_small by lia.
  unfold Float.add, Float.align. simpl Float.expo. simpl Float.mant.
  change (Z.min 0 (0 + -1)) with (-1). change (2 ^ (0 - -1)) with 2.
  change (2 ^ (0 + -1 - -1)) with 1. rewrite round_small by lia.
  rewrite !finite_small by lia. done.
Qed.

Lemma build_cells_Ok sr sc cells g g' :
  build_cells sr sc cells g = Ok g' -> g' = foldl (grid_cell sr sc) g cells.
Proof.
  revert g. induction cells as [|[row col] cells IH]; intros g.
  - by intros [= <-].
  - cbn [build_cells foldl grid_cell].
    destruct ((row =? sr) && (col =? sc)); [apply IH|].
    destruct (cell_pitch_index sr sc row col) as [v|e] eqn:Hcell; [|done].
    cbn [mbind result_bind]. rewrite (cell_pitch_index_Ok _ _ _ _ _ Hcell).
    apply IH.
Qed.

Lemma build_cells_bounded sr sc cells g :
  (∀ row col, (row, col) ∈ cells ->
     Z.abs (row - sr) <= 2 ^ 48 ∧ Z.abs (col - sc) <= 2 ^ 48) ->
  build_cells sr sc cells g = Ok (foldl (grid_cell sr sc) g cells).
Proof.
  revert g. induction cells as [|[row col] cells IH]; intros g Hin; [done|].
  cbn [build_cells foldl grid_cell].
  assert (Hrest : ∀ r c, (r, c) ∈ cells ->
            Z.abs (r - sr) <= 2 ^ 48 ∧ Z.abs (c - sc) <= 2 ^ 48)
    by (intros r c Hrc; apply Hin; by right).
  destruct ((row =? sr) && (col =? sc)); [by apply IH|].
  destruct (Hin row col) as [Hrow Hcol]; [left|].
  rewrite cell_pitch_index_bounded by done. cbn [mbind result_bind].
  by apply IH.
Qed.

(** An error at a cell ends the construction, whatever follows. *)
Lemma build_cells_raises sr sc visited row col e rest g g' :
  build_cells sr sc visited g = Ok g' ->
  (row =? sr) && (col =? sc) = false ->
  cell_pitch_index sr sc row col = Raise e ->
  build_cells sr sc (visited ++ (row, col) :: rest) g = Raise e.
Proof.
  revert g. induction visited as [|[r c] visited IH]; intros g.
  - intros _ Hne Hcell. cbn [app build_cells]. by rewrite Hne, Hcell.
  - cbn [app build_cells]. destruct ((r =? sr) && (c =? sc)); [apply IH|].
    destruct (cell_pitch_index sr sc r c); [|done]. apply IH.
Qed.

Lemma build_lattice_Ok rows cols lattice :
  build_lattice rows cols = Ok lattice ->
  lattice = create_tonnetz_grid rows cols [].
Proof.
  unfold build_lattice, create_tonnetz_grid. rewrite grid_rows_flatten.
  apply build_cells_Ok.
Qed.

Lemma build_lattice_bounded rows cols :
  rows <= 2 ^ 48 -> cols <= 2 ^ 48 ->
  build_lattice rows cols = Ok (create_tonnetz_grid rows cols []).
Proof.
  intros Hrows Hcols. unfold build_lattice, create_tonnetz_grid.
  rewrite grid_rows_flatten. apply build_cells_bounded.
  intros row col [Hrow Hcol]%elem_of_lattice_cells.
  split; apply cell_offsets_bounded; lia.
Qed.

(** The first cells the loops visit when there are at least two columns. *)
Lemma lattice_cells_start rows :
  0 < rows ->
  ∃ rest, lattice_cells rows 2 = [(0, 0)] ++ (0, 1) :: rest.
Proof.
  intros Hrows. unfold lattice_cells, range. rewrite (seqZ_cons 0 rows) by done.
  eexists. reflexivity.
Qed.

(** C1 (as the program behaves). For all [rows] and [cols] from 1 to 2^48,
    building the lattice succeeds, stores pitch class 0 at the origin
    [(rows/2, cols/2)], and stores at every other cell the value of the
    specification's rule read in exact arithmetic:
    [(7*colOffset + 4*rowOffset) mod 12] in even columns and, in odd columns,
    [(7*colOffset + 4*(rowOffset - 0.5)) mod 12] truncated to an integer
    after the modulo. *)
Theorem lattice_pitch_classes rows cols :
  1 <= rows <= 2 ^ 48 -> 1 <= cols <= 2 ^ 48 ->
  ∃ lattice, build_lattice rows cols = Ok lattice
    ∧ dict_get (rows / 2, cols / 2) lattice = Some 0
    ∧ ∀ row col, 0 <= row < rows -> 0 <= col < cols ->
        (row, col) ≠ (rows / 2, cols / 2) ->
        dict_get (row, col) lattice = Some (spec_pitch rows cols row col).
Proof.
  intros Hrows Hcols. rewrite build_lattice_bounded by lia.
  eexists. split; [reflexivity|]. split.
  - rewrite create_tonnetz_grid_get. rewrite decide_False by naive_solver.
    by rewrite decide_True.
  - intros row col Hrow Hcol Hne. rewrite create_tonnetz_grid_get.
    rewrite decide_True by (by rewrite elem_of_lattice_cells).
    simpl. by rewrite pitch_index_at_spec.
Qed.

Lemma lattice_pitch_classes_witness :
  ∃ lattice, build_lattice 7 12 = Ok lattice
    ∧ dict_get (7 / 2, 12 / 2) lattice = Some 0
    ∧ ∀ row col, 0 <= row < 7 -> 0 <= col < 12 ->
        (row, col) ≠ (7 / 2, 12 / 2) ->
        dict_get (row, col) lattice = Some (spec_pitch 7 12 row col).
Proof. apply (lattice_pitch_classes 7 12); lia. Defined.

(** C1 (counterexamples to the claim as stated).  With 2^1025 rows and 2
    columns the second cell the loops visit, [(0, 1)], has
    [rowOffset = -2^1024], which no float holds: the construction raises
    [OverflowError].  With 2^1024 rows the product [4 * (rowOffset - 0.5)]
    is an infinity and [int] raises [ValueError] on the NaN that follows.
    With 2^60 rows and 4 columns the cell [(0, 3)] is given 4 where the rule
    gives 9. *)
Lemma huge_lattice_is_not_built :
  build_lattice (2 ^ 1025) 2 = Raise OverflowError
  ∧ build_lattice (2 ^ 1024) 2 = Raise ValueError
  ∧ cell_pitch_index (2 ^ 60 / 2) (4 / 2) 0 3 = Ok 4
  ∧ spec_pitch (2 ^ 60) 4 0 3 = 9.
Proof.
  split; [|split; [|split]].
  - unfold build_lattice.
    destruct (lattice_cells_start (2 ^ 1025)) as [rest ->]; [done|].
    eapply build_cells_raises; vm_compute; reflexivity.
  - unfold build_lattice.
    destruct (lattice_cells_start (2 ^ 1024)) as [rest ->]; [done|].
    eapply build_cells_raises; vm_compute; reflexivity.
  - vm_compute. reflexivity.
  - vm_compute. reflexivity.
Qed.

(** X1. With at most 2^48 rows and 2^48 columns (zero and negative
    dimensions included) the construction of the lattice succeeds and gives
    the dictionary of [create_tonnetz_grid]: it has no duplicate key, its
    keys are the cells of the [rows] x [cols] rectangle together with the
    origin, its first entry is the origin with pitch class 0, and every
    stored pitch class lies in [0, 12).  With both dimensions at least 1 it
    has exactly [rows * cols] entries. *)
Theorem lattice_cells_and_values rows cols :
  rows <= 2 ^ 48 -> cols <= 2 ^ 48 ->
  ∃ lattice,
    build_lattice rows cols = Ok lattice
    ∧ lattice = create_tonnetz_grid rows cols []
    ∧ NoDup (dict_keys lattice)
    ∧ (∀ row col, (row, col) ∈ dict_keys lattice
                  ↔ (0 <= row < rows ∧ 0 <= col < cols)
                    ∨ (row, col) = (rows / 2, cols / 2))
    ∧ (∀ rc v, dict_get rc lattice = Some v -> 0 <= v < 12)
    ∧ head lattice = Some ((rows / 2, cols / 2), 0)
    ∧ (1 <= rows -> 1 <= cols -> Z.of_nat (length lattice) = rows * cols).
Proof.
  intros Hrows Hcols. exists (create_tonnetz_grid rows cols []).
  split; [by apply build_lattice_bounded|]. split; [done|].
  split; [|split; [|split; [|split]]].
  - apply create_tonnetz_grid_NoDup.
  - intros row col. rewrite lattice_keys.
    by rewrite elem_of_lattice_cells.
  - intros rc v. rewrite create_tonnetz_grid_get.
    repeat case_decide; intros [= <-]; [apply pitch_index_at_range|lia].
  - unfold create_tonnetz_grid. rewrite grid_rows_flatten.
    apply grid_cells_head.
  - apply create_tonnetz_grid_length.
Qed.

Lemma lattice_cells_and_values_witness :
  ∃ lattice,
    build_lattice 7 12 = Ok lattice
    ∧ lattice = create_tonnetz_grid 7 12 []
    ∧ NoDup (dict_keys lattice)
    ∧ (∀ row col, (row, col) ∈ dict_keys lattice
                  ↔ (0 <= row < 7 ∧ 0 <= col < 12)
                    ∨ (row, col) = (7 / 2, 12 / 2))
    ∧ (∀ rc v, dict_get rc lattice = Some v -> 0 <= v < 12)
    ∧ head lattice = Some ((7 / 2, 12 / 2), 0)
    ∧ (1 <= 7 -> 1 <= 12 -> Z.of_nat (length lattice) = 7 * 12).
Proof. apply (lattice_cells_and_values 7 12); lia. Defined.

(** ** Intervals between neighbouring cells *)

Lemma lattice_get_closed rows cols row col v :
  1 <= rows <= 2 ^ 48 -> 1 <= cols <= 2 ^ 48 ->
  (row, col) ≠ (rows / 2, cols / 2) ->
  dict_get (row, col) (create_tonnetz_grid rows cols []) = Some v ->
  v = (7 * (col - cols / 2) + 4 * (row - rows / 2)
       - (if Z.even col then 0 else 2)) mod 12.
Proof.
  intros Hrows Hcols Hne. rewrite create_tonnetz_grid_get.
  case_decide as Hin.
  - destruct Hin as [[Hr Hc]%elem_of_lattice_cells _]. intros [= <-]. simpl.
    apply pitch_index_at_closed; by apply cell_offsets_bounded.
  - by rewrite decide_False by done.
Qed.

(** X2. In a lattice of at most 2^48 rows and columns, between cells other
    than the origin: one row further the pitch class is 4 semitones higher,
    two columns further it is 2 semitones higher, and one column further it
    is 5 semitones higher from an even column and 9 from an odd column
    (all modulo 12). *)
Theorem lattice_intervals rows cols row col v :
  1 <= rows <= 2 ^ 48 -> 1 <= cols <= 2 ^ 48 ->
  let lattice := create_tonnetz_grid rows cols [] in
  let origin := (rows / 2, cols / 2) in
  (row, col) ≠ origin ->
  dict_get (row, col) lattice = Some v ->
  (∀ w, (row + 1, col) ≠ origin ->
        dict_get (row + 1, col) lattice = Some w -> w = (v + 4) mod 12)
  ∧ (∀ w, (row, col + 2) ≠ origin ->
          dict_get (row, col + 2) lattice = Some w -> w = (v + 2) mod 12)
  ∧ (∀ w, (row, col + 1) ≠ origin ->
          dict_get (row, col + 1) lattice = Some w ->
          w = (v + if Z.even col then 5 else 9) mod 12).
Proof.
  intros Hrows Hcols lattice origin Hne Hv.
  apply lattice_get_closed in Hv; [|done..].
  split; [|split]; intros w Hne' Hw; apply lattice_get_closed in Hw; try done;
    subst v w.
  - rewrite Z.add_mod_idemp_l by lia. f_equal. lia.
  - replace (Z.even (col + 2)) with (Z.even col)
      by (rewrite Z.even_add; by destruct (Z.even col)).
    rewrite Z.add_mod_idemp_l by lia.
    destruct (Z.even col); Z.div_mod_to_equations; lia.
  - replace (Z.even (col + 1)) with (negb (Z.even col))
      by (rewrite Z.even_add; by destruct (Z.even col)).
    rewrite Z.add_mod_idemp_l by lia.
    destruct (Z.even col); simpl; Z.div_mod_to_equations; lia.
Qed.

Lemma lattice_intervals_witness :
  let lattice := create_tonnetz_grid 7 12 [] in
  let origin := (7 / 2, 12 / 2) in
  (∀ w, (0 + 1, 0) ≠ origin ->
        dict_get (0 + 1, 0) lattice = Some w -> w = (6 + 4) mod 12)
  ∧ (∀ w, (0, 0 + 2) ≠ origin ->
          dict_get (0, 0 + 2) lattice = Some w -> w = (6 + 2) mod 12)
  ∧ (∀ w, (0, 0 + 1) ≠ origin ->
          dict_get (0, 0 + 1) lattice = Some w ->
          w = (6 + if Z.even 0 then 5 else 9) mod 12).
Proof.
  apply (lattice_intervals 7 12 0 0 6); [lia|lia|discriminate|].
  vm_compute. reflexivity.
Defined.

(** ** Pitch-class names *)

Lemma list_index_None x l : list_index x l = None ↔ x ∉ l.
Proof.
  induction l as [|y l IH]; simpl.
  - split; [intros _; apply not_elem_of_nil|done].
  - rewrite not_elem_of_cons. case_decide as Hy.
    + split; [done|]. intros [Hne _]. by subst.
    + destruct (list_index x l) as [j|].
      * split; [done|]. intros [_ Hn]. by apply IH in Hn.
      * split; [|done]. intros _. split; [done|]. by apply IH.
Qed.

Lemma list_index_bound x l i :
  list_index x l = Some i -> 0 <= i < Z.of_nat (length l).
Proof.
  revert i. induction l as [|y l IH]; intros i; simpl; [done|].
  case_decide; [intros [= <-]; lia|].
  destruct (list_index x l) as [j|]; [|done]. intros [= <-].
  specialize (IH j eq_refl). lia.
Qed.

(** X3. Names and indices of pitch classes round-trip: the name of index
    [i] (any integer) resolves back to [i mod 12], and each of the twelve
    names is the name of its own index. *)
Theorem pitch_class_round_trip :
  (∀ i, pitch_class_to_index (index_to_pitch_class i) = i mod 12)
  ∧ (∀ name, name ∈ pitch_classes ->
             index_to_pitch_class (pitch_class_to_index name) = name).
Proof.
  split.
  - intros i. unfold index_to_pitch_class.
    pose proof (Z.mod_pos_bound i 12 eq_refl) as Hi.
    assert (Hcases : ∃ k : nat, i mod 12 = Z.of_nat k ∧ (k < 12)%nat)
      by (exists (Z.to_nat (i mod 12)); lia).
    destruct Hcases as (k & -> & Hk). rewrite Nat2Z.id.
    do 12 (destruct k as [|k]; [reflexivity|]). lia.
  - intros name Hin. unfold pitch_classes in Hin.
    rewrite !elem_of_cons, elem_of_nil in Hin.
    repeat (destruct Hin as [->|Hin]; [reflexivity|]). done.
Qed.

(** X4. [pitch_class_to_index] is total with values in [0, 12): a flat
    spelling resolves to the index of its sharp, and a name that is neither
    one of the twelve names nor one of the five flats silently resolves to 0,
    the index of C. *)
Theorem pitch_class_to_index_fallback :
  (∀ name, 0 <= pitch_class_to_index name < 12)
  ∧ (∀ flat sharp, (flat, sharp) ∈ enharmonics ->
       pitch_class_to_index flat = pitch_class_to_index sharp)
  ∧ (∀ name, name ∉ pitch_classes -> name ∉ dict_keys enharmonics ->
       pitch_class_to_index name = 0).
Proof.
  assert (Hfirst : ∀ alts, 0 <= first_index alts < 12).
  { induction alts as [|alt alts IH]; cbn [first_index]; [lia|].
    destruct (list_index alt pitch_classes) as [i|] eqn:Hi; [|done].
    apply list_index_bound in Hi.
    change (Z.of_nat (length pitch_classes)) with 12 in Hi. lia. }
  split; [|split].
  - intros name. unfold pitch_class_to_index. apply Hfirst.
  - intros flat sharp Hin. unfold enharmonics in Hin.
    rewrite !elem_of_cons, elem_of_nil in Hin.
    repeat (destruct Hin as [[= -> ->]|Hin]; [reflexivity|]). done.
  - intros name Hname Hflat. unfold pitch_class_to_index.
    apply dict_get_None in Hflat. rewrite Hflat. cbn [first_index].
    apply list_index_None in Hname. by rewrite Hname.
Qed.

(** ** Hexagons *)

Lemma create_hexagons_map grid :
  NoDup (dict_keys grid) -> create_hexagons grid = hexagon_of <$> grid.
Proof.
  unfold create_hexagons.
  assert (Hgen : ∀ (acc : pydict coord hex_data),
    NoDup (dict_keys grid) ->
    (∀ rc, rc ∈ dict_keys grid -> rc ∉ dict_keys acc) ->
    foldl (fun hexagons '((row, col), pitch_index) =>
             dict_set (row, col)
               (HexData (index_to_pitch_class pitch_index) pitch_index
                  (hex_position row col) false)
               hexagons) acc grid
    = acc ++ (hexagon_of <$> grid)).
  { induction grid as [|[[row col] v] grid IH]; intros acc Hnd Hdisj;
      cbn [foldl].
    - by rewrite app_nil_r.
    - simpl in Hnd. apply NoDup_cons in Hnd as [Hhd Hnd].
      rewrite dict_set_new.
      2:{ destruct (dict_mem (row, col) acc) eqn:Hmem; [|done].
          apply dict_mem_true in Hmem. exfalso.
          apply (Hdisj (row, col)); [left|done]. }
      rewrite IH; [by rewrite <- app_assoc|done|].
      intros rc Hin. unfold dict_keys. rewrite map_app. simpl.
      rewrite elem_of_app, list_elem_of_singleton. intros [Hacc| ->].
      + apply (Hdisj rc); [by right|done].
      + done. }
  intros Hnd. apply (Hgen [] Hnd). intros rc _. apply not_elem_of_nil.
Qed.

Lemma dict_get_fmap_hexagon_of (grid : pydict coord Z) row col :
  dict_get (row, col) (hexagon_of <$> grid)
  = (fun v => HexData (index_to_pitch_class v) v (hex_position row col) false)
      <$> dict_get (row, col) grid.
Proof.
  induction grid as [|[[r c] v] grid IH]; [done|].
  cbn [fmap list_fmap hexagon_of dict_get].
  case_decide as Heq; [by injection Heq as -> ->|done].
Qed.

(** X5. After startup there is exactly one hexagon per lattice entry, in the
    lattice's order: the hexagon of a cell carries the cell's pitch class,
    the name of that pitch class, its layout position, and is inactive; no
    note is active, highlighted or looping. *)
Theorem startup_hexagons audio rows cols made :
  let st := startup audio rows cols made in
  grid st = create_tonnetz_grid rows cols []
  ∧ hexagons st = hexagon_of <$> grid st
  ∧ (∀ row col,
       dict_get (row, col) (hexagons st)
       = (fun v => HexData (index_to_pitch_class v) v (hex_position row col)
                     false)
           <$> dict_get (row, col) (grid st))
  ∧ (1 <= rows -> 1 <= cols -> Z.of_nat (length (hexagons st)) = rows * cols)
  ∧ active_notes st = ∅ ∧ chord_highlights st = ∅ ∧ playing_notes st = [].
Proof.
  intros st. assert (Hmap : hexagons st = hexagon_of <$> grid st)
    by apply create_hexagons_map, create_tonnetz_grid_NoDup.
  split; [done|]. split; [done|]. split; [|split; [|done]].
  - intros row col. rewrite Hmap. apply dict_get_fmap_hexagon_of.
  - intros Hrows Hcols. rewrite Hmap, length_fmap.
    by apply create_tonnetz_grid_length.
Qed.

(** ** What the handlers never write *)

Lemma erase_flags_set rc b hex (hexs : pydict coord hex_data) :
  dict_get rc hexs = Some hex ->
  erase_flags (dict_set rc (set_active b hex) hexs) = erase_flags hexs.
Proof.
  unfold erase_flags. induction hexs as [|[rc0 hex0] hexs IH]; [done|].
  cbn [dict_get dict_set]. case_decide as Heq.
  - intros [= ->]. by subst.
  - intros Hget. cbn [fmap list_fmap]. f_equal. by apply IH.
Qed.

Lemma erase_flags_get rc (hexs : pydict coord hex_data) :
  dict_get rc (erase_flags hexs) = set_active false <$> dict_get rc hexs.
Proof.
  unfold erase_flags. induction hexs as [|[rc0 hex0] hexs IH]; [done|].
  cbn [fmap list_fmap dict_get]. by case_decide.
Qed.

Lemma erase_flags_hexagon_of (g : pydict coord Z) :
  erase_flags (hexagon_of <$> g) = hexagon_of <$> g.
Proof.
  unfold erase_flags. induction g as [|[[row col] v] g IH]; [done|].
  cbn [fmap list_fmap]. f_equal. apply IH.
Qed.

Lemma erase_flags_deactivate cells (hexs hexs' : pydict coord hex_data) :
  deactivate cells hexs = Ok hexs' -> erase_flags hexs' = erase_flags hexs.
Proof.
  revert hexs. induction cells as [|rc cells IH]; intros hexs; simpl.
  - by intros [= ->].
  - destruct (dict_get rc hexs) as [hex|] eqn:Hget; [|done].
    intros Hd. rewrite (IH _ Hd). by apply erase_flags_set.
Qed.

Lemma same_layout_refl st : same_layout st st.
Proof. by repeat split. Qed.

Lemma same_layout_trans st1 st2 st3 :
  same_layout st1 st2 -> same_layout st2 st3 -> same_layout st1 st3.
Proof.
  intros (? & ? & ? & ? & ?) (? & ? & ? & ? & ?). repeat split; congruence.
Qed.

Lemma same_layout_start audio fc n st :
  same_layout st (start_continuous_note audio fc n st).
Proof. unfold start_continuous_note. repeat case_match; by repeat split. Qed.

Lemma same_layout_stop audio n st :
  same_layout st (stop_continuous_note audio n st).
Proof.
  unfold stop_continuous_note, stop_playing.
  repeat case_match; by repeat split.
Qed.

Lemma same_layout_toggle audio fc rc ps st st' :
  toggle_note audio fc rc ps st = Ok st' -> same_layout st st'.
Proof.
  destruct (dict_get rc (hexagons st)) as [hex|] eqn:Hget.
  - rewrite (toggle_note_unfold _ _ _ _ hex) by done. intros [= <-].
    set (flipped := set_hexagons _ _).
    assert (Hflip : same_layout st flipped).
    { repeat split. simpl. by apply erase_flags_set. }
    repeat case_match;
      eauto using same_layout_trans, same_layout_start, same_layout_stop.
  - unfold toggle_note. by rewrite Hget.
Qed.

Lemma timers_loop_history (timers : list (nat * string)) st :
  foldl start_timer st timers
  = Build (rows st) (cols st) (note_sounds st) (playing_notes st) (grid st)
      (hexagons st) (active_notes st) (chord_highlights st) (is_dragging st)
      (drag_toggle_state st) (already_toggled st)
      (rev ((fun '(i, n) => PreviewTimer i n) <$> timers) ++ history st).
Proof.
  revert st. induction timers as [|[i n] timers IH]; intros st; cbn [foldl].
  - by destruct st.
  - rewrite IH. simpl. by rewrite <- app_assoc.
Qed.

(** [highlight_chord] spelled out: only the highlights and the history
    change. *)
Lemma highlight_chord_frame audio root quality st :
  Inv audio st ->
  let indices := chord_indices (pitch_class_to_index root) quality in
  ∃ hl,
    highlight_chord root quality st
    = Ok (Build (rows st) (cols st) (note_sounds st) (playing_notes st)
            (grid st) (hexagons st) (active_notes st) hl (is_dragging st)
            (drag_toggle_state st) (already_toggled st)
            (rev ((fun '(i, n) => PreviewTimer i n)
                    <$> imap (fun i n => (i, n))
                          (map index_to_pitch_class indices))
             ++ history st)).
Proof.
  intros HI indices. unfold highlight_chord.
  rewrite (clear_chord_highlights_ok audio) by done. simpl. fold indices.
  pose proof (highlight_loop indices (hexagons st) (set_chord_highlights ∅ st))
    as [_ Hsame].
  set (lit := foldl (highlight_cell indices) (set_chord_highlights ∅ st)
                (hexagons st)) in *.
  exists (chord_highlights lit). rewrite timers_loop_history. do 2 f_equal;
    change (?f lit) with (f (set_chord_highlights ∅ lit)) at 1;
    by rewrite Hsame.
Qed.

Lemma same_layout_highlight_chord audio root quality st st' :
  Inv audio st -> highlight_chord root quality st = Ok st' -> same_layout st st'.
Proof.
  intros HI. destruct (highlight_chord_frame audio root quality st HI)
    as (hl & ->). intros [= <-]. by repeat split.
Qed.

Lemma same_layout_clear_all audio st st' :
  Inv audio st -> clear_all audio st = Ok st' -> same_layout st st'.
Proof.
  intros HI. unfold clear_all.
  rewrite (clear_chord_highlights_ok audio) by done. simpl.
  destruct audio; simpl; [|by intros [= <-]].
  destruct (stop_all_loop (set_chord_highlights ∅ st)
              (dict_keys (playing_notes st))) as (h & Hloop & _); [done|].
  simpl in Hloop. rewrite Hloop. simpl.
  destruct (deactivate (elements (active_notes st)) (hexagons st))
    as [hexs'|] eqn:Hd; [|done].
  simpl. intros [= <-]. repeat split. simpl. by eapply erase_flags_deactivate.
Qed.

Lemma same_layout_handle audio fc ev st st' :
  Inv audio st -> handle audio fc ev st = Ok st' -> same_layout st st'.
Proof.
  intros HI. destruct ev as [inaxes button x y|inaxes x y| |key]; simpl.
  - unfold on_press. repeat case_match; try (intros [= <-]; by repeat split).
    intros Htog%same_layout_toggle. eapply same_layout_trans; [|exact Htog].
    by repeat split.
  - unfold on_motion. repeat case_match; try (intros [= <-]; by repeat split).
    intros Htog%same_layout_toggle. eapply same_layout_trans; [|exact Htog].
    by repeat split.
  - intros [= <-]. by repeat split.
  - unfold on_key. repeat case_match.
    + by apply same_layout_clear_all.
    + by apply (same_layout_highlight_chord audio).
    + by apply (same_layout_highlight_chord audio).
    + intros [= <-]. apply same_layout_refl.
Qed.

Lemma reachable_layout audio st :
  reachable audio st ->
  grid st = create_tonnetz_grid (rows st) (cols st) []
  ∧ erase_flags (hexagons st) = hexagon_of <$> grid st
  ∧ note_sounds st ⊆ list_to_set pitch_classes.
Proof.
  induction 1 as [rows cols made|st fc ev st' Hreach IH Hstep].
  - split; [done|]. split.
    + simpl. rewrite create_hexagons_map by apply create_tonnetz_grid_NoDup.
      apply erase_flags_hexagon_of.
    + unfold startup. cbn [note_sounds]. unfold pregenerate_sounds.
      case_match; [apply empty_subseteq|].
      intros n [_ Hn]%elem_of_list_to_set%list_elem_of_filter.
      by apply elem_of_list_to_set.
  - apply (same_layout_handle audio) in Hstep
      as (Hrows & Hcols & Hgrid & Hsounds & Herase); [|by apply reachable_Inv].
    rewrite Hrows, Hcols, Hgrid, Hsounds, Herase. done.
Qed.

(** X6. No event changes the lattice or moves, adds, removes or renames a
    hexagon: in every reachable state the lattice is the one built at
    startup from the stored dimensions, and the hexagons are, in the same
    order and but for their [active] flags, the hexagons created at
    startup.  In particular the hexagon at a cell keeps the cell's pitch
    class, note name and position. *)
Theorem layout_is_fixed audio st :
  reachable audio st ->
  grid st = create_tonnetz_grid (rows st) (cols st) []
  ∧ erase_flags (hexagons st) = hexagon_of <$> grid st
  ∧ dict_keys (hexagons st) = dict_keys (grid st)
  ∧ ∀ row col hex,
      dict_get (row, col) (hexagons st) = Some hex ->
      ∃ v, dict_get (row, col) (grid st) = Some v
           ∧ pitch_index hex = v
           ∧ note hex = index_to_pitch_class v
           ∧ position hex = hex_position row col.
Proof.
  intros (Hgrid & Herase & _)%reachable_layout.
  split; [done|]. split; [done|]. split.
  - transitivity (dict_keys (erase_flags (hexagons st))).
    + unfold dict_keys, erase_flags. rewrite <- list_fmap_compose.
      apply list_fmap_ext. by intros i [rc hex].
    + rewrite Herase. unfold dict_keys. rewrite <- list_fmap_compose.
      apply list_fmap_ext. by intros i [[row col] v].
  - intros row col hex Hget.
    pose proof (erase_flags_get (row, col) (hexagons st)) as He.
    rewrite Herase, dict_get_fmap_hexagon_of in He. unfold coord in *.
    rewrite Hget in He.
    destruct (dict_get (row, col) (grid st)) as [v|]; [|done].
    exists v. split; [done|]. destruct hex. simpl in He.
    by injection He as -> -> ->.
Qed.

Lemma layout_is_fixed_witness :
  let st := origin_pressed true in
  grid st = create_tonnetz_grid (rows st) (cols st) []
  ∧ erase_flags (hexagons st) = hexagon_of <$> grid st
  ∧ dict_keys (hexagons st) = dict_keys (grid st)
  ∧ ∀ row col hex,
      dict_get (row, col) (hexagons st) = Some hex ->
      ∃ v, dict_get (row, col) (grid st) = Some v
           ∧ pitch_index hex = v
           ∧ note hex = index_to_pitch_class v
           ∧ position hex = hex_position row col.
Proof.
  apply (layout_is_fixed true (origin_pressed true)).
  apply reachable_origin_pressed.
Defined.

(** ** Hit-testing *)

Lemma point_in_hex_centre (c : point) (s : Float.float) :
  0 < Float.mant s -> point_in_hex c c s = true.
Proof.
  intros Hs. destruct c as [hx hy]. unfold point_in_hex. rewrite !sub_diag.
  unfold Float.abs. simpl Float.mant. simpl Float.expo.
  change (Z.abs 0) with 0.
  replace (Float.gtb (Float.mk 0 (Float.expo hy)) s) with false.
  2:{ symmetry. unfold Float.gtb, Float.ltb, Float.align. simpl.
      apply Z.ltb_ge.
      assert (0 <= 2 ^ (Float.expo s - Z.min (Float.expo s) (Float.expo hy)))
        by (apply Z.pow_nonneg; lia).
      nia. }
  apply leb_0_nonneg. unfold Float.div at 1. simpl Float.mant.
  rewrite orb_true_r. unfold Float.mul at 1. apply round_nonneg.
  apply Z.mul_nonneg_nonneg; [|done].
  unfold Float.mul. apply round_nonneg. simpl. lia.
Qed.

Lemma find_hex_at_point_spec x y st rc :
  NoDup (dict_keys (hexagons st)) ->
  find_hex_at_point x y st = Some rc ->
  ∃ hex, dict_get rc (hexagons st) = Some hex
         ∧ point_in_hex (x, y) (position hex) Float.half = true.
Proof.
  intros Hnd. unfold find_hex_at_point.
  destruct (list_find _ (hexagons st)) as [[i [rc' hex]]|] eqn:Hlf; [|done].
  intros [= ->]. apply list_find_Some in Hlf as (Hlook & Hp & _).
  exists hex. split; [|done].
  apply elem_of_dict_get; [done|]. by eapply list_elem_of_lookup_2.
Qed.

Lemma find_hex_at_point_None x y st :
  find_hex_at_point x y st = None
  ↔ ∀ rc hex, (rc, hex) ∈ hexagons st ->
              point_in_hex (x, y) (position hex) Float.half = false.
Proof.
  unfold find_hex_at_point.
  destruct (list_find _ (hexagons st)) as [[i [rc' hex]]|] eqn:Hlf.
  - split; [done|]. intros Hall.
    apply list_find_Some in Hlf as (Hlook & Hp & _).
    apply list_elem_of_lookup_2 in Hlook. apply Hall in Hlook. congruence.
  - split; [|done]. intros _ rc hex Hin.
    apply list_find_None in Hlf. rewrite Forall_forall in Hlf.
    specialize (Hlf _ Hin). cbv beta iota in Hlf.
    by destruct (point_in_hex (x, y) (position hex) Float.half).
Qed.

(** X7. In every reachable state the hit-test answers with a cell of the
    lattice whose hit area contains the point, and with nothing exactly when
    no hexagon's hit area contains it.  A point at the centre of any hexagon
    is never missed, and the centre of the origin hexagon, which is tested
    first, hits the origin itself. *)
Theorem hit_test_finds_a_containing_cell audio st :
  reachable audio st ->
  (∀ x y rc, find_hex_at_point x y st = Some rc ->
     ∃ hex, dict_get rc (hexagons st) = Some hex
            ∧ point_in_hex (x, y) (position hex) Float.half = true)
  ∧ (∀ x y, find_hex_at_point x y st = None
            ↔ ∀ rc hex, dict_get rc (hexagons st) = Some hex ->
                  point_in_hex (x, y) (position hex) Float.half = false)
  ∧ (∀ rc hex, dict_get rc (hexagons st) = Some hex ->
       is_Some (find_hex_at_point (position hex).1 (position hex).2 st))
  ∧ (let origin := (rows st / 2, cols st / 2) in
     find_hex_at_point (hex_position origin.1 origin.2).1
       (hex_position origin.1 origin.2).2 st = Some origin).
Proof.
  intros Hreach. pose proof (reachable_Inv _ _ Hreach) as HI.
  pose proof (inv_hexagons _ _ HI) as Hnd.
  assert (Hnone : ∀ x y, find_hex_at_point x y st = None
            ↔ ∀ rc hex, dict_get rc (hexagons st) = Some hex ->
                  point_in_hex (x, y) (position hex) Float.half = false).
  { intros x y. rewrite find_hex_at_point_None. split.
    - intros Hall rc hex Hget. by apply (Hall rc), dict_get_elem_of.
    - intros Hall rc hex Hin. by apply (Hall rc), elem_of_dict_get. }
  split; [|split; [done|split]].
  - intros x y rc. by apply find_hex_at_point_spec.
  - intros rc hex Hget.
    destruct (find_hex_at_point _ _ st) as [rc'|] eqn:Hfind; [by eauto|].
    pose proof (proj1 (Hnone _ _) Hfind rc hex Hget) as Hmiss.
    destruct (position hex) as [hx hy] eqn:Hpos. cbn [fst snd] in Hmiss.
    by rewrite point_in_hex_centre in Hmiss.
  - destruct (reachable_layout _ _ Hreach) as (Hgrid & Herase & _).
    assert (Hhead : head (grid st) = Some ((rows st / 2, cols st / 2), 0)).
    { rewrite Hgrid. unfold create_tonnetz_grid. rewrite grid_rows_flatten.
      apply grid_cells_head. }
    destruct (grid st) as [|[rc0 v0] g]; [done|]. injection Hhead as -> ->.
    destruct (hexagons st) as [|[rc1 hex1] hexs] eqn:Hhexs; [done|].
    pose proof (f_equal (fun l => (fun e => (e.1, position e.2)) <$> head l)
                  Herase) as Hh.
    cbn [head fmap option_fmap option_map list_fmap erase_flags hexagon_of
         fst snd position set_active] in Hh.
    injection Hh as -> Hpos. unfold find_hex_at_point.
    rewrite Hhexs. cbn [list_find]. rewrite decide_True; [done|].
    rewrite Hpos. cbn [fst snd].
    destruct (hex_position _ _) as [hx hy]. by apply point_in_hex_centre.
Qed.

Lemma hit_test_finds_a_containing_cell_witness :
  let st := origin_pressed true in
  (∀ x y rc, find_hex_at_point x y st = Some rc ->
     ∃ hex, dict_get rc (hexagons st) = Some hex
            ∧ point_in_hex (x, y) (position hex) Float.half = true)
  ∧ (∀ x y, find_hex_at_point x y st = None
            ↔ ∀ rc hex, dict_get rc (hexagons st) = Some hex ->
                  point_in_hex (x, y) (position hex) Float.half = false)
  ∧ (∀ rc hex, dict_get rc (hexagons st) = Some hex ->
       is_Some (find_hex_at_point (position hex).1 (position hex).2 st))
  ∧ (let origin := (rows st / 2, cols st / 2) in
     find_hex_at_point (hex_position origin.1 origin.2).1
       (hex_position origin.1 origin.2).2 st = Some origin).
Proof.
  apply (hit_test_finds_a_containing_cell true (origin_pressed true)).
  apply reachable_origin_pressed.
Defined.

(** On the 7 x 12 lattice of [main], the centre of every hexagon hits that
    hexagon. *)
Example centres_hit_their_own_cell :
  let st := startup true 7 12 (fun _ => true) in
  forallb (fun '(rc, hex) =>
             bool_decide (find_hex_at_point (position hex).1 (position hex).2 st
                          = Some rc))
          (hexagons st) = true.
Proof. vm_compute. reflexivity. Qed.

Lemma find_hex_at_point_cons x y st rc hex hexs :
  hexagons st = (rc, hex) :: hexs ->
  find_hex_at_point x y st
  = if point_in_hex (x, y) (position hex) Float.half then Some rc
    else find_hex_at_point x y (set_hexagons hexs st).
Proof.
  intros Hhexs. unfold find_hex_at_point. rewrite Hhexs. cbn [list_find].
  destruct (decide (point_in_hex (x, y) (position hex) Float.half = true))
    as [Hp|Hp].
  - by rewrite Hp.
  - apply not_true_is_false in Hp. rewrite Hp. simpl.
    by destruct (list_find _ hexs) as [[i [rc' hex']]|].
Qed.

(** The hit-test reads the keys, the order and the positions only. *)
Lemma find_hex_at_point_layout x y st st' :
  erase_flags (hexagons st) = erase_flags (hexagons st') ->
  find_hex_at_point x y st = find_hex_at_point x y st'.
Proof.
  assert (Hgen : ∀ l l' s s',
    hexagons s = l -> hexagons s' = l' -> erase_flags l = erase_flags l' ->
    find_hex_at_point x y s = find_hex_at_point x y s').
  { induction l as [|[rc hex] l IH]; intros [|[rc' hex'] l'] s s' Hs Hs' He;
      try done.
    - unfold find_hex_at_point. by rewrite Hs, Hs'.
    - pose proof (f_equal (fun l => (fun e => (e.1, position e.2)) <$> head l)
                    He) as Hh.
      cbn [head fmap option_fmap option_map list_fmap erase_flags
           fst snd position set_active] in Hh.
      injection Hh as -> Hpos.
      rewrite (find_hex_at_point_cons x y s rc' hex l Hs).
      rewrite (find_hex_at_point_cons x y s' rc' hex' l' Hs'). rewrite Hpos.
      case_match; [done|].
      apply (IH l'); [done|done|]. unfold erase_flags in *.
      cbn [fmap list_fmap] in He. by injection He. }
  intros He. by apply (Hgen (hexagons st) (hexagons st')).
Qed.

Lemma find_hex_at_point_handle audio fc ev st st' x y :
  Inv audio st -> handle audio fc ev st = Ok st' ->
  find_hex_at_point x y st' = find_hex_at_point x y st.
Proof.
  intros HI Hstep. apply find_hex_at_point_layout.
  by apply (same_layout_handle audio) in Hstep as (_ & _ & _ & _ & ?).
Qed.

(** ** Looping notes and active cells *)

Lemma playing_notes_toggle_off audio fc rc hex st st' :
  Inv audio st ->
  dict_get rc (hexagons st) = Some hex ->
  rc ∈ active_notes st ->
  toggle_note audio fc rc true st = Ok st' ->
  playing_notes st' = dict_del (note hex) (playing_notes st)
  ∧ note_sounds st' = note_sounds st.
Proof.
  intros HI Hget Hin. rewrite (toggle_note_unfold _ _ _ _ hex) by done.
  rewrite bool_decide_eq_true_2 by done. intros [= <-].
  unfold stop_continuous_note, stop_playing. destruct audio; simpl.
  - destruct (dict_get (note hex) (playing_notes st)) eqn:Hreg; simpl; [done|].
    by rewrite dict_del_absent.
  - by rewrite (inv_no_audio _ _ HI).
Qed.

Lemma playing_notes_toggle_on audio fc rc hex st st' :
  dict_get rc (hexagons st) = Some hex ->
  rc ∉ active_notes st ->
  toggle_note audio fc rc true st = Ok st' ->
  note_sounds st' = note_sounds st
  ∧ (playing_notes st' = playing_notes st
     ∨ ∃ ch, fc = Some ch ∧ audio = true ∧ note hex ∈ note_sounds st
             ∧ dict_mem (note hex) (playing_notes st) = false
             ∧ playing_notes st' = playing_notes st ++ [(note hex, ch)]
             ∧ history st'
               = ChannelPlay ch (note hex) :: ToggleNote rc true :: history st).
Proof.
  intros Hget Hin. rewrite (toggle_note_unfold _ _ _ _ hex) by done.
  rewrite bool_decide_eq_false_2 by done. intros [= <-].
  unfold start_continuous_note. simpl.
  destruct audio; simpl; [|by auto].
  case_bool_decide as Hsound; simpl; [|by auto].
  destruct (dict_mem (note hex) (playing_notes st)) eqn:Hmem; simpl; [by auto|].
  destruct fc as [ch|]; simpl; [|by auto].
  split; [done|]. right. exists ch. by rewrite dict_set_new.
Qed.

(** X8. In every reachable state, toggling an active cell off with sound
    leaves the cell's note without a registered loop, although every other
    active cell stays active, the cells that carry the same note included:
    such a cell is then on and silent. *)
Theorem toggle_off_silences_shared_note audio st fc rc hex :
  reachable audio st ->
  dict_get rc (hexagons st) = Some hex ->
  rc ∈ active_notes st ->
  ∃ st', toggle_note audio fc rc true st = Ok st'
    ∧ dict_get (note hex) (playing_notes st') = None
    ∧ (rc ∉ active_notes st')
    ∧ ∀ rc2 hex2, rc2 ≠ rc -> rc2 ∈ active_notes st ->
        dict_get rc2 (hexagons st) = Some hex2 ->
        (rc2 ∈ active_notes st'
         ∧ dict_get rc2 (hexagons st') = Some hex2
         ∧ (note hex2 = note hex ->
            dict_get (note hex2) (playing_notes st') = None)).
Proof.
  intros HI%reachable_Inv Hget Hin.
  destruct (toggle_note_effect audio fc rc true hex st Hget)
    as (st' & Hok & Hact & Hhex & _).
  destruct (playing_notes_toggle_off audio fc rc hex st st' HI Hget Hin Hok)
    as [Hreg _].
  rewrite bool_decide_eq_true_2 in Hact, Hhex by done.
  assert (Hsilent : dict_get (note hex) (playing_notes st') = None)
    by (rewrite Hreg; apply dict_get_del_eq, (inv_registry _ _ HI)).
  exists st'. split; [done|]. split; [done|]. split; [set_solver|].
  intros rc2 hex2 Hne Hin2 Hget2. split; [set_solver|]. split.
  - by rewrite Hhex, dict_get_set_ne.
  - by intros ->.
Qed.

Lemma toggle_off_silences_shared_note_witness :
  let st := origin_pressed true in
  ∃ st', toggle_note true None (3, 6) true st = Ok st'
    ∧ dict_get (note (HexData "C" 0 (hex_position 3 6) true))
        (playing_notes st') = None
    ∧ ((3, 6) ∉ active_notes st')
    ∧ ∀ rc2 hex2, rc2 ≠ (3, 6) -> rc2 ∈ active_notes st ->
        dict_get rc2 (hexagons st) = Some hex2 ->
        (rc2 ∈ active_notes st'
         ∧ dict_get rc2 (hexagons st') = Some hex2
         ∧ (note hex2 = note (HexData "C" 0 (hex_position 3 6) true) ->
            dict_get (note hex2) (playing_notes st') = None)).
Proof.
  apply (toggle_off_silences_shared_note true (origin_pressed true) None (3, 6)
           (HexData "C" 0 (hex_position 3 6) true)).
  - apply reachable_origin_pressed.
  - vm_compute. reflexivity.
  - vm_compute. reflexivity.
Defined.

(** Two cells of the 7 x 12 lattice carry C: after both are pressed on and
    the second is pressed off, the first is still active and nothing
    loops. *)
Example shared_note_goes_silent :
  ∃ st, run true [(Some 0%nat, press_at 3 6); (None, button_release);
                  (Some 1%nat, press_at 0 6); (None, button_release);
                  (Some 2%nat, press_at 0 6); (None, button_release)]
          (startup true 7 12 (fun _ => true)) = Ok st
    ∧ elements (active_notes st) = [(3, 6)]
    ∧ playing_notes st = []
    ∧ history st
      = [ChannelStop 0%nat; ToggleNote (0, 6) true; ToggleNote (0, 6) true;
         ChannelPlay 0%nat "C"; ToggleNote (3, 6) true].
Proof.
  eexists. split; [vm_compute; reflexivity|].
  split; [vm_compute; reflexivity|]. split; reflexivity.
Qed.

Lemma dict_keys_app {K V} (d1 d2 : list (K * V)) :
  dict_keys (d1 ++ d2) = dict_keys d1 ++ dict_keys d2.
Proof. unfold dict_keys. apply map_app. Qed.

(** Every looping note has a sound and an active cell that carries it. *)
Lemma loops_belong_to_active_cells audio st :
  reachable audio st ->
  ∀ n, n ∈ dict_keys (playing_notes st) ->
       n ∈ note_sounds st
       ∧ ∃ rc hex, rc ∈ active_notes st
                   ∧ dict_get rc (hexagons st) = Some hex ∧ note hex = n.
Proof.
  induction 1 as [rows cols made|st fc ev st' Hreach IH Hstep].
  - intros n Hn. by apply elem_of_nil in Hn.
  - pose proof (reachable_Inv _ _ Hreach) as HI.
    assert (Htoggle : ∀ s s',
      Inv audio s -> hexagons s = hexagons st ->
      active_notes s = active_notes st ->
      playing_notes s = playing_notes st -> note_sounds s = note_sounds st ->
      ∀ cell, is_Some (dict_get cell (hexagons st)) ->
      toggle_note audio fc cell true s = Ok s' ->
      ∀ n, n ∈ dict_keys (playing_notes s') ->
           n ∈ note_sounds s'
           ∧ ∃ rc hex, rc ∈ active_notes s'
                       ∧ dict_get rc (hexagons s') = Some hex ∧ note hex = n).
    { intros s s' HIs Hhex Hact Hreg Hsnd cell [hex Hget] Htog n Hn.
      rewrite <- Hhex in Hget.
      destruct (toggle_note_effect audio fc cell true hex s Hget)
        as (s'' & Hok & Hact' & Hhex' & _).
      rewrite Hok in Htog. injection Htog as ->.
      destruct (decide (cell ∈ active_notes s)) as [Hon|Hoff].
      - rewrite bool_decide_eq_true_2 in Hact', Hhex' by done.
        destruct (playing_notes_toggle_off audio fc cell hex s s' HIs Hget Hon Hok)
          as [Hreg' Hsnd'].
        rewrite Hreg' in Hn.
        assert (Hne : n ≠ note hex).
        { intros ->. apply dict_get_is_Some in Hn as [ch Hch].
          rewrite dict_get_del_eq in Hch by apply (inv_registry _ _ HIs). done. }
        apply dict_del_keys_subseteq in Hn. rewrite Hreg in Hn.
        destruct (IH n Hn) as (Hs & rc0 & hex0 & Hin0 & Hget0 & Hnote0).
        split; [by rewrite Hsnd', Hsnd|].
        assert (rc0 ≠ cell).
        { intros ->. rewrite <- Hhex, Hget in Hget0. congruence. }
        exists rc0, hex0. rewrite Hact', Hhex', Hact, Hhex.
        split; [set_solver|]. split; [by rewrite dict_get_set_ne|done].
      - rewrite bool_decide_eq_false_2 in Hact', Hhex' by done.
        destruct (playing_notes_toggle_on audio fc cell hex s s' Hget Hoff Hok)
          as [Hsnd' Hreg'].
        assert (Hold : n ∈ dict_keys (playing_notes st) ->
                  n ∈ note_sounds s'
                  ∧ ∃ rc hex1, rc ∈ active_notes s'
                       ∧ dict_get rc (hexagons s') = Some hex1 ∧ note hex1 = n).
        { intros Hn'.
          destruct (IH n Hn') as (Hs & rc0 & hex0 & Hin0 & Hget0 & Hnote0).
          split; [by rewrite Hsnd', Hsnd|].
          assert (rc0 ≠ cell) by (intros ->; apply Hoff; by rewrite Hact).
          exists rc0, hex0. rewrite Hact', Hhex', Hact, Hhex.
          split; [set_solver|]. split; [by rewrite dict_get_set_ne|done]. }
        destruct Hreg' as [Hsame|(ch & _ & _ & Hsound & _ & Hnew & _)].
        + apply Hold. by rewrite <- Hreg, <- Hsame.
        + rewrite Hnew, dict_keys_app, elem_of_app in Hn.
          destruct Hn as [Hn|Hn]; [apply Hold; by rewrite <- Hreg|].
          apply list_elem_of_singleton in Hn as ->.
          split; [by rewrite Hsnd'|].
          exists cell, (set_active true hex). rewrite Hact', Hhex'.
          split; [set_solver|]. split; [apply dict_get_set_eq|done]. }
    destruct ev as [inaxes button x y|inaxes x y| |key]; simpl in Hstep.
    + unfold on_press in Hstep.
      destruct (negb inaxes || negb (button =? 1)); [by injection Hstep as <-|].
      destruct (find_hex_at_point x y st) as [cell|] eqn:Hfind;
        [|by injection Hstep as <-].
      eapply Htoggle; [| | | | |by eapply find_hex_at_point_Some|];
        [by apply Inv_set_drag|done..|exact Hstep].
    + unfold on_motion in Hstep.
      destruct (negb (is_dragging st) || negb inaxes);
        [by injection Hstep as <-|].
      destruct (find_hex_at_point x y st) as [cell|] eqn:Hfind;
        [|by injection Hstep as <-].
      case_bool_decide; [by injection Hstep as <-|].
      case_bool_decide; [|by injection Hstep as <-].
      eapply Htoggle; [| | | | |by eapply find_hex_at_point_Some|];
        [by apply Inv_set_drag|done..|exact Hstep].
    + by injection Hstep as <-.
    + unfold on_key in Hstep. repeat case_match.
      * destruct (clear_all_spec audio st HI)
          as (s & Hs & _ & _ & Hon & Hoff & _).
        rewrite Hs in Hstep. injection Hstep as <-. destruct audio.
        -- destruct Hon as [_ ->]; [done|]. intros n Hn.
           by apply elem_of_nil in Hn.
        -- by rewrite Hoff.
      * destruct (highlight_chord_frame audio key "major" st HI) as (hl & Hh).
        rewrite Hh in Hstep. by injection Hstep as <-.
      * destruct (highlight_chord_frame audio (str_upper key) "minor" st HI)
          as (hl & Hh).
        rewrite Hh in Hstep. by injection Hstep as <-.
      * by injection Hstep as <-.
Qed.

(** X9. In every reachable state each looping note has a pregenerated sound
    and is the note of at least one active cell, so no loop outlives the
    cells that started it; and at most twelve notes loop at once. *)
Theorem no_orphan_loops audio st :
  reachable audio st ->
  (∀ n ch, dict_get n (playing_notes st) = Some ch ->
     n ∈ note_sounds st ∧ n ∈ pitch_classes
     ∧ ∃ rc hex, rc ∈ active_notes st
                 ∧ dict_get rc (hexagons st) = Some hex ∧ note hex = n)
  ∧ (length (playing_notes st) <= 12)%nat.
Proof.
  intros Hreach.
  pose proof (loops_belong_to_active_cells audio st Hreach) as Hloops.
  destruct (reachable_layout _ _ Hreach) as (_ & _ & Hsounds).
  assert (Hnames : ∀ n, n ∈ dict_keys (playing_notes st) -> n ∈ pitch_classes).
  { intros n [Hs _]%Hloops. apply Hsounds in Hs.
    by apply elem_of_list_to_set in Hs. }
  split.
  - intros n ch Hget.
    assert (Hn : n ∈ dict_keys (playing_notes st))
      by (apply dict_get_is_Some; eauto).
    destruct (Hloops n Hn) as [Hs Hcell]. auto.
  - transitivity (length (dict_keys (playing_notes st)));
      [unfold dict_keys; by rewrite length_map|].
    change 12%nat with (length pitch_classes).
    apply submseteq_length, NoDup_submseteq; [|done].
    apply (inv_registry audio), reachable_Inv, Hreach.
Qed.

Lemma no_orphan_loops_witness :
  let st := origin_pressed true in
  (∀ n ch, dict_get n (playing_notes st) = Some ch ->
     n ∈ note_sounds st ∧ n ∈ pitch_classes
     ∧ ∃ rc hex, rc ∈ active_notes st
                 ∧ dict_get rc (hexagons st) = Some hex ∧ note hex = n)
  ∧ (length (playing_notes st) <= 12)%nat.
Proof.
  apply (no_orphan_loops true (origin_pressed true)).
  apply reachable_origin_pressed.
Defined.

(** ** The direction of a drag *)

Lemma painted_toggle audio fc d before hit hex st visited :
  Inv audio st ->
  dict_get hit (hexagons st) = Some hex ->
  (∀ rc, rc ∈ visited -> rc ≠ hit -> (rc ∈ active_notes st ↔ d = true)) ->
  (∀ rc, rc ∉ visited -> rc ≠ hit -> (rc ∈ active_notes st ↔ rc ∈ before)) ->
  d = negb (bool_decide (hit ∈ active_notes st)) ->
  ∀ dragging,
  ∃ st', toggle_note audio fc hit true
           (set_drag dragging (Some d) (visited ∪ {[hit]}) st) = Ok st'
    ∧ Inv audio st'
    ∧ painted d before st'
    ∧ already_toggled st' = visited ∪ {[hit]}.
Proof.
  intros HI Hget Hvis Hout Hd dragging.
  set (st1 := set_drag dragging (Some d) (visited ∪ {[hit]}) st).
  destruct (toggle_note_effect audio fc hit true hex st1 Hget)
    as (st' & Hok & Hact & _ & _ & _ & Hdir & Hvisited & _).
  destruct (toggle_note_ok audio fc hit true hex st1) as (s & Hs & HIs);
    [by apply Inv_set_drag|done|].
  rewrite Hs in Hok. injection Hok as ->.
  exists st'. split; [done|]. split; [done|]. split; [|done].
  simpl in Hact, Hdir, Hvisited.
  split; [done|]. rewrite Hvisited, Hact. split.
  - intros rc Hin. destruct (decide (rc = hit)) as [->|Hne].
    + destruct (bool_decide_reflect (hit ∈ active_notes st)); simpl in *;
        subst d; set_solver.
    + rewrite <- (Hvis rc) by set_solver.
      destruct (bool_decide (hit ∈ active_notes st)); set_solver.
  - intros rc Hin. rewrite <- (Hout rc) by set_solver.
    destruct (bool_decide (hit ∈ active_notes st)); set_solver.
Qed.

Lemma painted_motion audio fc d before ev st :
  Inv audio st -> painted d before st -> is_motion ev ->
  ∃ st', handle audio fc ev st = Ok st'
    ∧ Inv audio st' ∧ painted d before st'
    ∧ already_toggled st ⊆ already_toggled st'.
Proof.
  intros HI Hp Hev. pose proof Hp as (Hdir & Hvis & Hout).
  assert (Hstay : ∃ st', Ok st = Ok st' ∧ Inv audio st' ∧ painted d before st'
                         ∧ already_toggled st ⊆ already_toggled st').
  { exists st. split; [done|]. split; [done|]. split; [done|]. set_solver. }
  destruct ev as [| inaxes x y | |]; try done. simpl. unfold on_motion.
  destruct (negb (is_dragging st) || negb inaxes); [done|].
  destruct (find_hex_at_point x y st) as [hit|] eqn:Hfind; [|done].
  case_bool_decide as Hseen; [done|]. clear Hstay.
  destruct (find_hex_at_point_Some _ _ _ _ Hfind) as [hex Hget].
  simpl. rewrite Hdir. case_bool_decide as Hflip.
  - destruct (painted_toggle audio fc d before hit hex st (already_toggled st)
                HI Hget) with (dragging := is_dragging st)
      as (st' & Hok & HI' & Hp' & Hvisited).
    + intros rc Hin _. by apply Hvis.
    + intros rc Hin _. by apply Hout.
    + destruct (bool_decide (hit ∈ active_notes st)), d; simpl; congruence.
    + exists st'. rewrite Hvisited. split; [done|].
      split; [done|]. split; [done|]. set_solver.
  - eexists. split; [done|]. split; [by apply Inv_set_drag|].
    assert (Hd : bool_decide (hit ∈ active_notes st) = d).
    { destruct (decide (Some (bool_decide (hit ∈ active_notes st)) = Some d))
        as [[= ?]|]; done. }
    split; [|simpl; set_solver].
    split; [done|]. simpl. split.
    + intros rc [Hin| ->%elem_of_singleton]%elem_of_union; [by apply Hvis|].
      rewrite <- Hd. by rewrite bool_decide_eq_true.
    + intros rc Hin. apply Hout. set_solver.
Qed.

Lemma painted_run audio d before motions st :
  Inv audio st -> painted d before st ->
  Forall (fun e => is_motion e.2) motions ->
  ∃ st', run audio motions st = Ok st' ∧ painted d before st'
         ∧ already_toggled st ⊆ already_toggled st'.
Proof.
  revert st. induction motions as [|[fc ev] motions IH]; intros st HI Hp Hevs.
  - exists st. split; [done|]. split; [done|]. set_solver.
  - apply Forall_cons in Hevs as [Hev Hevs]. simpl.
    destruct (painted_motion audio fc d before ev st HI Hp Hev)
      as (st1 & -> & HI1 & Hp1 & Hsub1). simpl.
    destruct (IH st1 HI1 Hp1 Hevs) as (st' & Hrun & Hp' & Hsub').
    exists st'. split; [done|]. split; [done|]. set_solver.
Qed.

(** X10. A drag paints in one direction.  In every reachable state, after a
    press that hits a cell and any sequence of motion events, with [d] the
    opposite of the pressed cell's state before the press: every cell the
    gesture visited (the pressed one included) is active exactly when [d]
    holds, every other cell is as it was before the press, and so the set of
    active cells has only grown when [d] holds and only shrunk otherwise. *)
Theorem drag_paints_one_direction audio st fc x y hit motions :
  reachable audio st ->
  find_hex_at_point x y st = Some hit ->
  Forall (fun e => is_motion e.2) motions ->
  let d := negb (bool_decide (hit ∈ active_notes st)) in
  ∃ st', run audio ((fc, button_press true 1 x y) :: motions) st = Ok st'
    ∧ drag_toggle_state st' = Some d
    ∧ hit ∈ already_toggled st'
    ∧ (∀ rc, rc ∈ already_toggled st' -> (rc ∈ active_notes st' ↔ d = true))
    ∧ (∀ rc, rc ∉ already_toggled st' ->
             (rc ∈ active_notes st' ↔ rc ∈ active_notes st))
    ∧ (d = true -> active_notes st ⊆ active_notes st')
    ∧ (d = false -> active_notes st' ⊆ active_notes st).
Proof.
  intros HI%reachable_Inv Hfind Hevs d.
  destruct (find_hex_at_point_Some _ _ _ _ Hfind) as [hex Hget].
  simpl. unfold on_press. simpl. rewrite Hfind.
  destruct (painted_toggle audio fc d (active_notes st) hit hex st ∅ HI Hget)
    with (dragging := true) as (st0 & Hok & HI0 & Hp0 & Hvisited);
    [set_solver|done|done|].
  replace ({[hit]} : gset coord) with (∅ ∪ {[hit]} : gset coord) by set_solver.
  fold d. rewrite Hok. simpl.
  destruct (painted_run audio d (active_notes st) motions st0 HI0 Hp0 Hevs)
    as (st' & Hrun & (Hdir & Hvis & Hout) & Hsub).
  exists st'. split; [done|]. split; [done|].
  split; [set_solver|]. split; [done|]. split; [done|]. split.
  - intros Hd rc Hin. destruct (decide (rc ∈ already_toggled st')).
    + by apply Hvis.
    + by apply Hout.
  - intros Hd rc Hin. destruct (decide (rc ∈ already_toggled st')) as [Hv|Hv].
    + apply (Hvis rc Hv) in Hin. congruence.
    + by apply Hout.
Qed.

Lemma drag_paints_one_direction_witness :
  let st := origin_pressed true in
  let motions :=
    [(Some 1%nat, motion_notify true (hex_position 3 7).1 (hex_position 3 7).2);
     (Some 2%nat, motion_notify true (hex_position 3 8).1 (hex_position 3 8).2)] in
  let d := negb (bool_decide ((3, 6) ∈ active_notes st)) in
  ∃ st', run true ((None, button_press true 1 (hex_position 3 6).1
                            (hex_position 3 6).2) :: motions) st = Ok st'
    ∧ drag_toggle_state st' = Some d
    ∧ (3, 6) ∈ already_toggled st'
    ∧ (∀ rc, rc ∈ already_toggled st' -> (rc ∈ active_notes st' ↔ d = true))
    ∧ (∀ rc, rc ∉ already_toggled st' ->
             (rc ∈ active_notes st' ↔ rc ∈ active_notes st))
    ∧ (d = true -> active_notes st ⊆ active_notes st')
    ∧ (d = false -> active_notes st' ⊆ active_notes st).
Proof.
  apply (drag_paints_one_direction true (origin_pressed true) None
           (hex_position 3 6).1 (hex_position 3 6).2 (3, 6)).
  - apply reachable_origin_pressed.
  - vm_compute. reflexivity.
  - repeat constructor.
Defined.

(** ** Hit testing and the history *)

(** X11. What a point hits depends on the dimensions of the lattice alone: in
    every reachable state [find_hex_at_point] answers as it does in a state
    freshly started with the same dimensions, whatever was clicked, dragged
    or typed before, whether or not audio is available, and whichever sounds
    were made. *)
Theorem hit_test_ignores_history audio st audio' made' x y :
  reachable audio st ->
  find_hex_at_point x y st
  = find_hex_at_point x y (startup audio' (rows st) (cols st) made').
Proof.
  intros Hreach. apply find_hex_at_point_layout.
  destruct (reachable_layout audio st Hreach) as (Hgrid & -> & _).
  destruct (reachable_layout audio' _
              (reachable_startup audio' (rows st) (cols st) made'))
    as (_ & -> & _).
  by rewrite Hgrid.
Qed.

Lemma hit_test_ignores_history_witness :
  find_hex_at_point (hex_position 3 7).1 (hex_position 3 7).2
    (origin_pressed true)
  = find_hex_at_point (hex_position 3 7).1 (hex_position 3 7).2
      (startup false (rows (origin_pressed true)) (cols (origin_pressed true))
         (fun _ => false)).
Proof.
  apply (hit_test_ignores_history true (origin_pressed true) false).
  apply reachable_origin_pressed.
Defined.

(** ** Clicking a cell twice *)

Section pydict_round_trip.
Context {K V : Type} `{EqDecision K}.
Implicit Types (d : list (K * V)) (k : K) (v : V).

Lemma dict_set_set k v v' d : dict_set k v' (dict_set k v d) = dict_set k v' d.
Proof.
  induction d as [|[k0 v0] d IH]; simpl.
  - by rewrite decide_True.
  - destruct (decide (k0 = k)) as [->|Hne]; simpl.
    + by rewrite decide_True.
    + rewrite decide_False by done. by rewrite IH.
Qed.

Lemma dict_set_same k v d : dict_get k d = Some v -> dict_set k v d = d.
Proof.
  induction d as [|[k0 v0] d IH]; simpl; [done|].
  destruct (decide (k0 = k)) as [->|Hne].
  - by intros [= ->].
  - intros Hget. by rewrite IH.
Qed.

Lemma dict_del_appended k v d :
  dict_get k d = None -> dict_del k (d ++ [(k, v)]) = d.
Proof.
  induction d as [|[k0 v0] d IH]; simpl.
  - by rewrite decide_True.
  - destruct (decide (k0 = k)) as [->|Hne]; [done|].
    intros Hget. by rewrite IH.
Qed.

End pydict_round_trip.

Lemma press_effect audio fc x y hit hex st :
  Inv audio st ->
  find_hex_at_point x y st = Some hit ->
  dict_get hit (hexagons st) = Some hex ->
  let on := bool_decide (hit ∈ active_notes st) in
  ∃ st', handle audio fc (button_press true 1 x y) st = Ok st'
    ∧ Inv audio st'
    ∧ active_notes st'
      = (if on then active_notes st ∖ {[hit]} else active_notes st ∪ {[hit]})
    ∧ hexagons st' = dict_set hit (set_active (negb on) hex) (hexagons st)
    ∧ chord_highlights st' = chord_highlights st
    ∧ (if on then playing_notes st' = dict_del (note hex) (playing_notes st)
       else playing_notes st' = playing_notes st
            ∨ ∃ ch, playing_notes st' = playing_notes st ++ [(note hex, ch)]).
Proof.
  intros HI Hfind Hget on. simpl. unfold on_press. simpl. rewrite Hfind.
  fold on. set (sd := set_drag _ _ _ st).
  assert (HId : Inv audio sd) by by apply Inv_set_drag.
  destruct (toggle_note_effect audio fc hit true hex sd Hget)
    as (st' & Hok & Hact & Hhex & Hhigh & _).
  exists st'. split; [done|].
  split; [by eapply Inv_toggle_note|].
  split; [done|]. split; [done|]. split; [done|].
  subst on. destruct (bool_decide_reflect (hit ∈ active_notes st)) as [Hin|Hin].
  - by destruct (playing_notes_toggle_off audio fc hit hex sd st' HId Hget Hin Hok).
  - destruct (playing_notes_toggle_on audio fc hit hex sd st' Hget Hin Hok)
      as (_ & [?|(ch & _ & _ & _ & _ & ? & _)]); eauto.
Qed.

(** X12. Clicking the same point twice undoes the first click.  In every
    reachable state, a press that hits a cell, the release, and a second
    press at the same point succeed and leave the set of active cells, the
    whole of [self.hexagons] (entries, order and flags) and the chord
    highlights as they were before; the lattice and the sounds are untouched.
    When the cell was inactive and its note was not looping, the registry of
    looping notes is also exactly as before, whatever the mixer answered. *)
Theorem click_twice_round_trip audio st fc1 fc2 fc3 x y hit :
  reachable audio st ->
  find_hex_at_point x y st = Some hit ->
  ∃ hex st',
    dict_get hit (hexagons st) = Some hex
    ∧ run audio [(fc1, button_press true 1 x y); (fc2, button_release);
                 (fc3, button_press true 1 x y)] st = Ok st'
    ∧ active_notes st' = active_notes st
    ∧ hexagons st' = hexagons st
    ∧ chord_highlights st' = chord_highlights st
    ∧ grid st' = grid st
    ∧ note_sounds st' = note_sounds st
    ∧ (hit ∉ active_notes st ->
       dict_get (note hex) (playing_notes st) = None ->
       playing_notes st' = playing_notes st).
Proof.
  intros HI%reachable_Inv Hfind.
  destruct (find_hex_at_point_Some _ _ _ _ Hfind) as [hex Hget].
  exists hex.
  destruct (press_effect audio fc1 x y hit hex st HI Hfind Hget)
    as (st1 & Hok1 & HI1 & Hact1 & Hhex1 & Hhigh1 & Hreg1).
  set (st2 := on_release st1).
  assert (HI2 : Inv audio st2) by by apply Inv_set_drag.
  assert (Hfind2 : find_hex_at_point x y st2 = Some hit).
  { rewrite <- Hfind.
    rewrite (find_hex_at_point_handle audio fc2 button_release st1 st2) by done.
    by apply (find_hex_at_point_handle audio fc1 (button_press true 1 x y)). }
  set (on := bool_decide (hit ∈ active_notes st)) in *.
  assert (Hget2 : dict_get hit (hexagons st2) = Some (set_active (negb on) hex)).
  { simpl. by rewrite Hhex1, dict_get_set_eq. }
  destruct (press_effect audio fc3 x y hit _ st2 HI2 Hfind2 Hget2)
    as (st' & Hok' & HI' & Hact' & Hhex' & Hhigh' & Hreg').
  exists st'. split; [done|].
  split.
  { cbn [run]. rewrite Hok1. unfold mbind, result_bind.
    change (handle audio fc2 button_release st1) with (Ok st2).
    cbv beta iota. by rewrite Hok'. }
  pose proof (same_layout_handle audio fc1 _ st st1 HI Hok1)
    as (_ & _ & Hgrid1 & Hsounds1 & _).
  pose proof (same_layout_handle audio fc3 _ st2 st' HI2 Hok')
    as (_ & _ & Hgrid' & Hsounds' & _).
  pose proof (inv_active_flag _ _ HI _ _ Hget) as Hflag. fold on in Hflag.
  simpl in Hact', Hhex', Hhigh', Hreg', Hgrid', Hsounds'.
  rewrite Hact1 in Hact', Hhex', Hreg'. rewrite Hhex1 in Hhex'.
  assert (Hon1 : bool_decide (hit ∈ (if on then active_notes st ∖ {[hit]}
                                      else active_notes st ∪ {[hit]}))
                 = negb on).
  { subst on. destruct (bool_decide_reflect (hit ∈ active_notes st)); simpl.
    - apply bool_decide_eq_false_2. set_solver.
    - apply bool_decide_eq_true_2. set_solver. }
  rewrite Hon1 in Hact', Hhex', Hreg'. rewrite negb_involutive in Hhex'.
  split.
  { rewrite Hact'. subst on.
    destruct (bool_decide_reflect (hit ∈ active_notes st)) as [Hin|Hin]; simpl.
    - apply set_eq. intros rc. destruct (decide (rc = hit)); set_solver.
    - set_solver. }
  split.
  { rewrite Hhex', dict_set_set. apply dict_set_same.
    rewrite Hget. f_equal. destruct hex. simpl in *. by rewrite Hflag. }
  split; [congruence|]. split; [congruence|]. split; [congruence|].
  intros Hin Hsilent. subst on.
  rewrite bool_decide_eq_false_2 in Hreg1, Hreg' by done.
  simpl in Hreg'. rewrite Hreg'.
  destruct Hreg1 as [->|[ch ->]].
  - by apply dict_del_absent.
  - by apply dict_del_appended.
Qed.

Lemma click_twice_round_trip_witness :
  let st := origin_pressed true in
  let x := (hex_position 3 7).1 in
  let y := (hex_position 3 7).2 in
  ∃ hex st',
    dict_get (3, 7) (hexagons st) = Some hex
    ∧ run true [(Some 4%nat, button_press true 1 x y); (None, button_release);
                (None, button_press true 1 x y)] st = Ok st'
    ∧ active_notes st' = active_notes st
    ∧ hexagons st' = hexagons st
    ∧ chord_highlights st' = chord_highlights st
    ∧ grid st' = grid st
    ∧ note_sounds st' = note_sounds st
    ∧ ((3, 7) ∉ active_notes st ->
       dict_get (note hex) (playing_notes st) = None ->
       playing_notes st' = playing_notes st).
Proof.
  apply (click_twice_round_trip true (origin_pressed true)).
  - apply reachable_origin_pressed.
  - vm_compute. reflexivity.
Defined.

(** ** The space key with audio *)

Lemma stop_all_history st :
  foldl stop_playing st (dict_keys (playing_notes st))
  = Build (rows st) (cols st) (note_sounds st) [] (grid st) (hexagons st)
      (active_notes st) (chord_highlights st) (is_dragging st)
      (drag_toggle_state st) (already_toggled st)
      (rev (ChannelStop <$> (snd <$> playing_notes st)) ++ history st).
Proof.
  remember (playing_notes st) as reg eqn:Hreg.
  revert st Hreg. induction reg as [|[k ch] reg IH]; intros st Hreg.
  - destruct st. simpl in *. by subst.
  - cbn [dict_keys map fst foldl].
    assert (Hstop : stop_playing st k
                    = set_playing_notes reg (log (ChannelStop ch) st)).
    { unfold stop_playing. rewrite <- Hreg. simpl. by rewrite !decide_True. }
    rewrite Hstop. change (map fst reg) with (dict_keys reg).
    rewrite (IH (set_playing_notes reg (log (ChannelStop ch) st))) by done.
    simpl. by rewrite <- app_assoc.
Qed.

Lemma erase_flags_all_off (hexs : pydict coord hex_data) :
  (∀ rc hex, (rc, hex) ∈ hexs -> active hex = false) ->
  erase_flags hexs = hexs.
Proof.
  unfold erase_flags. induction hexs as [|[rc hex] hexs IH]; intros Hoff.
  - done.
  - cbn [fmap list_fmap]. f_equal.
    + f_equal. destruct hex as [n p pos a]. unfold set_active. simpl.
      f_equal. symmetry. apply (Hoff rc (HexData n p pos a)). left.
    + apply IH. intros rc' hex' Hin. apply (Hoff rc'). by right.
Qed.

Lemma clear_all_frame st st' :
  Inv true st -> clear_all true st = Ok st' ->
  history st'
  = rev (ChannelStop <$> (snd <$> playing_notes st)) ++ history st
  ∧ is_dragging st' = is_dragging st
  ∧ drag_toggle_state st' = drag_toggle_state st
  ∧ already_toggled st' = already_toggled st.
Proof.
  intros HI. unfold clear_all.
  rewrite (clear_chord_highlights_ok true) by done. simpl.
  pose proof (stop_all_history (set_chord_highlights ∅ st)) as Hloop.
  simpl in Hloop. rewrite Hloop. simpl.
  destruct (deactivate (elements (active_notes st)) (hexagons st))
    as [hexs'|] eqn:Hd; [|done].
  simpl. by intros [= <-].
Qed.

(** X13. With audio, the space key puts the instrument back to its startup
    picture.  In every reachable state [clear_all] succeeds; afterwards
    [self.hexagons] is exactly what [create_hexagons] built from the lattice
    (same entries, same order, every flag off), no cell is active or
    highlighted and no note is looping; each loop that was registered is
    stopped exactly once, in the order of the registry, and nothing else is
    asked of the mixer; the gesture fields are untouched; and a second
    [clear_all] changes nothing at all. *)
Theorem space_key_resets_with_audio st :
  reachable true st ->
  ∃ st', clear_all true st = Ok st'
    ∧ hexagons st' = create_hexagons (grid st)
    ∧ active_notes st' = ∅
    ∧ playing_notes st' = []
    ∧ chord_highlights st' = ∅
    ∧ history st'
      = rev (ChannelStop <$> (snd <$> playing_notes st)) ++ history st
    ∧ is_dragging st' = is_dragging st
    ∧ drag_toggle_state st' = drag_toggle_state st
    ∧ already_toggled st' = already_toggled st
    ∧ clear_all true st' = Ok st'.
Proof.
  intros Hreach. pose proof (reachable_Inv _ _ Hreach) as HI.
  destruct (reachable_layout _ _ Hreach) as (Hgrid & Herase & _).
  destruct (clear_all_spec true st HI)
    as (st' & Hok & HI' & Hhl & Hon & _ & _).
  destruct Hon as [Hact Hreg]; [done|].
  destruct (clear_all_frame st st' HI Hok) as (Hhist & Hdrag & Hdir & Hvis).
  pose proof (same_layout_clear_all true st st' HI Hok)
    as (_ & _ & _ & _ & Hsame).
  exists st'. split; [done|]. split.
  { rewrite create_hexagons_map
      by (rewrite Hgrid; apply create_tonnetz_grid_NoDup).
    rewrite <- Herase, <- Hsame. symmetry. apply erase_flags_all_off.
    intros rc hex Hin.
    rewrite (inv_active_flag _ _ HI' rc hex).
    - apply bool_decide_eq_false_2. rewrite Hact. set_solver.
    - apply elem_of_dict_get; [apply (inv_hexagons _ _ HI')|done]. }
  do 7 (split; [done|]).
  unfold clear_all. rewrite (clear_chord_highlights_ok true) by done.
  cbn [mbind result_bind negb]. rewrite stop_all_history.
  cbn [playing_notes set_chord_highlights active_notes hexagons].
  rewrite Hreg, Hact, elements_empty. cbn [deactivate].
  destruct st'. simpl in *. by subst.
Qed.

Lemma space_key_resets_with_audio_witness :
  ∃ st', clear_all true (origin_pressed true) = Ok st'
    ∧ hexagons st' = create_hexagons (grid (origin_pressed true))
    ∧ active_notes st' = ∅
    ∧ playing_notes st' = []
    ∧ chord_highlights st' = ∅
    ∧ history st'
      = rev (ChannelStop <$> (snd <$> playing_notes (origin_pressed true)))
        ++ history (origin_pressed true)
    ∧ is_dragging st' = is_dragging (origin_pressed true)
    ∧ drag_toggle_state st' = drag_toggle_state (origin_pressed true)
    ∧ already_toggled st' = already_toggled (origin_pressed true)
    ∧ clear_all true st' = Ok st'.
Proof.
  apply (space_key_resets_with_audio (origin_pressed true)).
  apply reachable_origin_pressed.
Defined.

(** ** Chord keys *)

(** X14. [highlight_chord], for any root string and any quality string, in
    every reachable state: it succeeds; it schedules exactly three previews,
    the root at index 0, the third at index 1 (four semitones up when the
    quality is the string major, three for every other string) and the fifth
    at index 2; it toggles no cell, starts and stops no loop, and leaves the
    hexagons and the gesture fields alone; and running it again gives the
    same highlights, which therefore never accumulate. *)
Theorem chord_schedules_three_previews audio st root quality :
  reachable audio st ->
  let r := pitch_class_to_index root in
  let third := if String.eqb quality "major" then 4 else 3 in
  ∃ st' st'',
    highlight_chord root quality st = Ok st'
    ∧ history st'
      = PreviewTimer 2 (index_to_pitch_class ((r + 7) mod 12))
        :: PreviewTimer 1 (index_to_pitch_class ((r + third) mod 12))
        :: PreviewTimer 0 (index_to_pitch_class r) :: history st
    ∧ active_notes st' = active_notes st
    ∧ hexagons st' = hexagons st
    ∧ playing_notes st' = playing_notes st
    ∧ is_dragging st' = is_dragging st
    ∧ drag_toggle_state st' = drag_toggle_state st
    ∧ already_toggled st' = already_toggled st
    ∧ highlight_chord root quality st' = Ok st''
    ∧ chord_highlights st'' = chord_highlights st'.
Proof.
  intros HI%reachable_Inv r third.
  destruct (highlight_chord_spec audio root quality st HI)
    as (st' & Hok & HI' & Hhl & _).
  destruct (highlight_chord_spec audio root quality st' HI')
    as (st'' & Hok' & _ & Hhl' & _).
  destruct (highlight_chord_frame audio root quality st HI) as (hl & Hframe).
  rewrite Hframe in Hok. injection Hok as <-.
  eexists _, st''. split; [exact Hframe|]. cbn [history].
  split.
  { unfold chord_indices. fold r. subst third.
    by destruct (String.eqb quality "major"). }
  do 6 (split; [done|]). split; [exact Hok'|].
  apply set_eq. intros rc. rewrite Hhl', Hhl. done.
Qed.

Lemma chord_schedules_three_previews_witness :
  let st := origin_pressed true in
  let r := pitch_class_to_index "A" in
  let third := if String.eqb "minor" "major" then 4 else 3 in
  ∃ st' st'',
    highlight_chord "A" "minor" st = Ok st'
    ∧ history st'
      = PreviewTimer 2 (index_to_pitch_class ((r + 7) mod 12))
        :: PreviewTimer 1 (index_to_pitch_class ((r + third) mod 12))
        :: PreviewTimer 0 (index_to_pitch_class r) :: history st
    ∧ active_notes st' = active_notes st
    ∧ hexagons st' = hexagons st
    ∧ playing_notes st' = playing_notes st
    ∧ is_dragging st' = is_dragging st
    ∧ drag_toggle_state st' = drag_toggle_state st
    ∧ already_toggled st' = already_toggled st
    ∧ highlight_chord "A" "minor" st' = Ok st''
    ∧ chord_highlights st'' = chord_highlights st'.
Proof.
  apply (chord_schedules_three_previews true (origin_pressed true)).
  apply reachable_origin_pressed.
Defined.

(** ** The chord preview buffer *)

Lemma fade_loop_spec fade_frames steps arr :
  NoDup steps ->
  (∀ i, i ∈ steps -> 0 <= i < Z.of_nat (length arr)) ->
  ∃ arr', fade_loop steps fade_frames arr = Some arr'
    ∧ length arr' = length arr
    ∧ ∀ j : nat,
        arr' !! j
        = if decide (Z.of_nat (length arr) - 1 - Z.of_nat j ∈ steps)
          then scale_frame
                 (Float.div
                    (Float.of_Z (Z.of_nat (length arr) - 1 - Z.of_nat j))
                    (Float.of_Z fade_frames)) <$> arr !! j
          else arr !! j.
Proof.
  revert arr. induction steps as [|i steps IH]; intros arr Hnd Hin.
  - exists arr. split; [done|]. split; [done|]. intros j.
    rewrite decide_False; [done|]. apply not_elem_of_nil.
  - apply NoDup_cons in Hnd as [Hi Hnd]. cbn [fade_loop].
    assert (Hri : 0 <= i < Z.of_nat (length arr)) by (apply Hin; left).
    rewrite (proj2 (Z.leb_le _ _)) by lia.
    set (f := scale_frame (Float.div (Float.of_Z i) (Float.of_Z fade_frames))).
    set (idx := Z.to_nat (Z.of_nat (length arr) - (i + 1))).
    destruct (IH (alter f idx arr) Hnd) as (arr' & Hok & Hlen & Hlook).
    { intros k Hk. rewrite length_alter. apply Hin. by right. }
    rewrite length_alter in Hlen, Hlook.
    exists arr'. split; [done|]. split; [done|]. intros j.
    rewrite Hlook, list_lookup_alter.
    destruct (decide (Z.of_nat (length arr) - 1 - Z.of_nat j = i)) as [Heq|Hne].
    + destruct (decide (Z.of_nat (length arr) - 1 - Z.of_nat j ∈ steps))
        as [Hs|Hs]; [exfalso; by rewrite Heq in Hs|].
      destruct (decide (idx = j)) as [Hj|Hj]; [|exfalso; subst idx; lia].
      destruct (decide (Z.of_nat (length arr) - 1 - Z.of_nat j ∈ i :: steps))
        as [_|Hn]; [|exfalso; apply Hn; rewrite Heq; left].
      by rewrite Heq, Hj.
    + destruct (decide (idx = j)) as [Hj|Hj]; [exfalso; subst idx; lia|].
      destruct (decide (Z.of_nat (length arr) - 1 - Z.of_nat j ∈ steps))
        as [Hs|Hs].
      * rewrite decide_True by (by right). done.
      * rewrite decide_False; [done|].
        intros [?|?]%elem_of_cons; done.
Qed.

Lemma quantize_zero e : quantize (Float.mk 0 e) = 0.
Proof.
  unfold quantize, np_clip.
  assert (Hmul : Float.mul (Float.mk 0 e) (Float.of_Z 15000)
                 = Float.mk 0 (e + 0)) by done.
  rewrite Hmul. clear Hmul. set (e' := e + 0).
  change (Float.of_Z (-32767)) with (Float.mk (-32767) 0).
  change (Float.of_Z 32767) with (Float.mk 32767 0).
  assert (Hlo : Float.ltb (Float.mk 0 e') (Float.mk (-32767) 0) = false).
  { unfold Float.ltb, Float.align. cbn [Float.mant Float.expo].
    apply Z.ltb_ge.
    assert (0 < 2 ^ (0 - Z.min e' 0)) by (apply Z.pow_pos_nonneg; lia). nia. }
  rewrite Hlo.
  assert (Hhi : Float.gtb (Float.mk 0 e') (Float.mk 32767 0) = false).
  { unfold Float.gtb, Float.ltb, Float.align. cbn [Float.mant Float.expo].
    apply Z.ltb_ge.
    assert (0 < 2 ^ (0 - Z.min 0 e')) by (apply Z.pow_pos_nonneg; lia). nia. }
  rewrite Hhi. unfold astype_int16, Float.trunc. cbn [Float.mant Float.expo].
  destruct (Z.leb_spec 0 e'); [by rewrite Z.mul_0_l|].
  rewrite Z.quot_0_l; [done|].
  assert (0 < 2 ^ (- e')); [|lia].
  apply Z.pow_pos_nonneg; lia.
Qed.

Lemma mul_zero x : Float.mul x (Float.mk 0 0) = Float.mk 0 (Float.expo x + 0).
Proof. unfold Float.mul. cbn [Float.mant Float.expo]. by rewrite Z.mul_0_r. Qed.

Lemma range_map_lookup {A} (f : Z -> A) frames (j : nat) :
  Z.of_nat j < frames -> map f (range frames) !! j = Some (f (Z.of_nat j)).
Proof.
  intros Hj. change (map f ?l) with (f <$> l).
  rewrite list_lookup_fmap. unfold range. by rewrite lookup_seqZ_lt.
Qed.

(** X15. The buffer [play_chord_preview] builds, for any frequency and
    whatever [np.sin] returns: the fade loop never indexes out of range, the
    buffer has exactly 33075 stereo frames (1.5 s at 22050 Hz), left and right
    are equal and lie in [-32767, 32767] in every frame, the first 26460
    frames (the part before the 0.3 s fade) are the first 26460 frames of
    the looping tone [generate_long_tone] makes for the same frequency, which
    has 1323000 frames, and the last frame is silent. *)
Theorem preview_fades_to_silence np_sin frequency :
  ∃ buf tone,
    preview_buffer np_sin frequency = Some buf
    ∧ generate_long_tone true np_sin frequency (Float.of_Z 60) 22050 = Some tone
    ∧ Z.of_nat (length buf) = 33075
    ∧ Z.of_nat (length tone) = 1323000
    ∧ Forall (fun frame => frame.1 = frame.2 ∧ -32767 <= frame.1 <= 32767) buf
    ∧ take (Z.to_nat 26460) buf = take (Z.to_nat 26460) tone
    ∧ last buf = Some (0, 0).
Proof.
  unfold preview_buffer, generate_long_tone. cbv zeta. cbn [negb].
  assert (Float.trunc (Float.mul (Float.mk 3 (-1)) (Float.of_Z 22050)) = 33075)
    as -> by (vm_compute; reflexivity).
  assert (Float.trunc (Float.mul Float.lit_0_3 (Float.of_Z 22050)) = 6615)
    as -> by (vm_compute; reflexivity).
  assert (Float.trunc (Float.mul (Float.of_Z 60) (Float.of_Z 22050)) = 1323000)
    as -> by (vm_compute; reflexivity).
  set (frame_of := fun i => let sample := tone_sample np_sin frequency 22050 i in
                            (sample, sample)).
  set (arr := map frame_of (range 33075)).
  set (quant := fun '(l, r) => (quantize l, quantize r)).
  assert (Hlen : Z.of_nat (length arr) = 33075).
  { subst arr. rewrite length_map. unfold range. rewrite length_seqZ. lia. }
  destruct (fade_loop_spec 6615 (range 6615) arr) as (arr' & -> & Hlen' & Hlook).
  { apply NoDup_seqZ. }
  { intros i Hi%elem_of_seqZ. lia. }
  rewrite Hlen in Hlook.
  assert (Harr : ∀ j : nat, Z.of_nat j < 33075 ->
            arr !! j = Some (frame_of (Z.of_nat j))).
  { intros j Hj. unfold arr. apply range_map_lookup. exact Hj. }
  eexists _, _. split; [reflexivity|]. split; [reflexivity|].
  split. { rewrite length_map. lia. }
  split. { rewrite !length_map. unfold range. rewrite length_seqZ. lia. }
  split; [|split].
  - apply Forall_lookup. intros j frame.
    change (map quant arr') with (quant <$> arr').
    rewrite list_lookup_fmap, Hlook.
    destruct (decide (Z.of_nat j < 33075)) as [Hj|Hj].
    + rewrite (Harr j Hj).
      destruct (decide (33075 - 1 - Z.of_nat j ∈ range 6615)) as [Hs|Hs];
        cbn [fmap option_fmap option_map]; intros Heq;
        apply (inj Some) in Heq; rewrite <- Heq;
        unfold quant, scale_frame, frame_of; cbn [fst snd];
        (split; [reflexivity|apply quantize_range]).
    + rewrite (lookup_ge_None_2 arr j) by lia.
      destruct (decide (33075 - 1 - Z.of_nat j ∈ range 6615));
        cbn [fmap option_fmap option_map]; intros Heq; discriminate Heq.
  - apply list_eq. intros j. rewrite !lookup_take.
    destruct (decide (j < Z.to_nat 26460)%nat) as [Hj|Hj]; [|done].
    change (map quant ?l) with (quant <$> l).
    rewrite !list_lookup_fmap, Hlook.
    rewrite decide_False by (unfold range; rewrite elem_of_seqZ; lia).
    rewrite (Harr j) by lia.
    unfold range. by rewrite lookup_seqZ_lt by lia.
  - rewrite last_lookup. change (map quant arr') with (quant <$> arr').
    rewrite length_fmap, list_lookup_fmap, Hlook.
    rewrite decide_True by (unfold range; rewrite elem_of_seqZ; lia).
    rewrite (Harr (Init.Nat.pred (length arr'))) by lia.
    replace (33075 - 1 - Z.of_nat (Init.Nat.pred (length arr'))) with 0 by lia.
    change (Float.div (Float.of_Z 0) (Float.of_Z 6615)) with (Float.mk 0 0).
    cbn [fmap option_fmap option_map].
    unfold quant, scale_frame, frame_of. cbn [fst snd].
    rewrite mul_zero, quantize_zero. reflexivity.
Qed.

(** ** The mixer ledger *)

Lemma call_count_app p h1 h2 :
  call_count p (h1 ++ h2) = (call_count p h1 + call_count p h2)%nat.
Proof. unfold call_count. by rewrite List.filter_app, length_app. Qed.

Lemma call_count_cons p c h :
  call_count p (c :: h) = ((if p c then 1 else 0) + call_count p h)%nat.
Proof. unfold call_count. simpl. by destruct (p c). Qed.

Lemma call_count_rev p h : call_count p (rev h) = call_count p h.
Proof.
  induction h as [|c h IH]; [done|].
  simpl. rewrite call_count_app, IH, !call_count_cons.
  unfold call_count at 2. simpl. lia.
Qed.

Lemma call_count_stops (chs : list channel) :
  call_count is_stop (ChannelStop <$> chs) = length chs
  ∧ call_count is_play (ChannelStop <$> chs) = 0%nat.
Proof.
  induction chs as [|ch chs [IH1 IH2]]; [done|].
  cbn [fmap list_fmap]. rewrite !call_count_cons, IH1, IH2. done.
Qed.

Section pydict_length.
Context {K V : Type} `{EqDecision K}.

Lemma dict_del_length (k : K) (v : V) (d : list (K * V)) :
  dict_get k d = Some v -> S (length (dict_del k d)) = length d.
Proof.
  induction d as [|[k0 v0] d IH]; simpl; [done|].
  case_decide; [done|]. intros Hget. simpl. by rewrite IH.
Qed.

End pydict_length.

Lemma ledger_set_drag audio dragging direction visited st :
  ledger audio st -> ledger audio (set_drag dragging direction visited st).
Proof. done. Qed.

Lemma ledger_start audio fc n st :
  ledger audio st -> ledger audio (start_continuous_note audio fc n st).
Proof.
  intros [Hbal Hoff]. unfold start_continuous_note.
  destruct audio; simpl; [|done].
  case_bool_decide; simpl; [|done].
  destruct (dict_mem n (playing_notes st)) eqn:Hmem; simpl; [done|].
  destruct fc as [ch|]; [|done].
  split; [|done]. simpl. rewrite dict_set_new by done.
  rewrite !call_count_cons, length_app. simpl. unfold call_count in *. lia.
Qed.

Lemma ledger_stop audio n st :
  ledger audio st -> ledger audio (stop_continuous_note audio n st).
Proof.
  intros [Hbal Hoff]. unfold stop_continuous_note, stop_playing.
  destruct audio; simpl; [|done].
  destruct (dict_get n (playing_notes st)) as [ch|] eqn:Hget; [|done].
  split; [|done]. simpl. rewrite !call_count_cons. simpl.
  apply dict_del_length in Hget. unfold call_count in *. lia.
Qed.

Lemma ledger_toggle audio fc rc ps st st' :
  ledger audio st -> toggle_note audio fc rc ps st = Ok st' -> ledger audio st'.
Proof.
  intros HL. destruct (dict_get rc (hexagons st)) as [hex|] eqn:Hget.
  - rewrite (toggle_note_unfold _ _ _ _ hex) by done. intros [= <-].
    set (flipped := set_hexagons _ _).
    assert (HLf : ledger audio flipped).
    { destruct HL as [Hbal Hoff]. split; simpl.
      - by rewrite !call_count_cons.
      - intros Ha. rewrite call_count_cons. by apply Hoff. }
    destruct ps; [|done].
    destruct (bool_decide (rc ∈ active_notes st));
      [by apply ledger_stop|by apply ledger_start].
  - unfold toggle_note. by rewrite Hget.
Qed.

Lemma ledger_handle audio fc ev st st' :
  Inv audio st -> ledger audio st ->
  handle audio fc ev st = Ok st' -> ledger audio st'.
Proof.
  intros HI HL. destruct ev as [inaxes button x y|inaxes x y| |key]; simpl.
  - unfold on_press. repeat case_match; try (by intros [= <-]).
    apply ledger_toggle. by apply ledger_set_drag.
  - unfold on_motion. repeat case_match; try (by intros [= <-]).
    apply ledger_toggle. by apply ledger_set_drag.
  - by intros [= <-].
  - assert (Hchord : ∀ root quality,
              highlight_chord root quality st = Ok st' -> ledger audio st').
    { intros root quality.
      destruct (highlight_chord_frame audio root quality st HI) as (hl & ->).
      intros [= <-]. destruct HL as [Hbal Hoff].
      unfold chord_indices. split; cbn [history playing_notes].
      - by destruct (String.eqb quality "major").
      - intros Ha. specialize (Hoff Ha).
        by destruct (String.eqb quality "major"). }
    unfold on_key. repeat case_match; eauto; [|by intros [= <-]].
    intros Hok. destruct audio.
    + destruct (clear_all_frame st st' HI Hok) as (Hhist & _).
      destruct (clear_all_spec true st HI) as (s & Hs & _ & _ & Hon & _).
      rewrite Hs in Hok. injection Hok as ->.
      destruct Hon as [_ Hreg]; [done|].
      destruct HL as [Hbal _]. split; [|done].
      rewrite Hhist, Hreg, !call_count_app, !call_count_rev.
      destruct (call_count_stops (snd <$> playing_notes st)) as [-> ->].
      rewrite length_fmap. simpl. lia.
    + destruct (clear_all_spec false st HI) as (s & Hs & _ & _ & _ & Hoff & _).
      rewrite Hs in Hok. injection Hok as <-. by rewrite Hoff.
Qed.

(** X16. The mixer ledger.  In every reachable state, among the commands
    sent for looping notes (by [start_continuous_note],
    [stop_continuous_note] and [clear_all]), the number of [play] commands
    equals the number of [stop] commands plus the number of notes in the
    registry: every loop that was started has been stopped or is still
    registered.  Without audio, no such command is ever sent and the registry
    stays empty. *)
Theorem mixer_ledger_balances audio st :
  reachable audio st ->
  call_count is_play (history st)
  = (call_count is_stop (history st) + length (playing_notes st))%nat
  ∧ (audio = false ->
     call_count is_play (history st) = 0%nat
     ∧ call_count is_stop (history st) = 0%nat
     ∧ playing_notes st = []).
Proof.
  intros Hreach.
  assert (HL : ledger audio st).
  { induction Hreach as [rows cols made|st fc ev st' Hreach IH Hstep].
    - by split.
    - eapply ledger_handle; [by apply reachable_Inv|exact IH|exact Hstep]. }
  destruct HL as [Hbal Hoff]. split; [done|].
  intros Ha. specialize (Hoff Ha).
  pose proof (inv_no_audio _ _ (reachable_Inv _ _ Hreach) Ha) as Hreg.
  rewrite Hreg, Hoff in Hbal. done.
Qed.

Lemma mixer_ledger_balances_witness :
  call_count is_play (history (origin_pressed true))
  = (call_count is_stop (history (origin_pressed true))
     + length (playing_notes (origin_pressed true)))%nat
  ∧ (true = false ->
     call_count is_play (history (origin_pressed true)) = 0%nat
     ∧ call_count is_stop (history (origin_pressed true)) = 0%nat
     ∧ playing_notes (origin_pressed true) = []).
Proof.
  apply (mixer_ledger_balances true (origin_pressed true)).
  apply reachable_origin_pressed.
Defined.

(** ** Motion outside a gesture *)

(** X17. Moving the mouse while no gesture is in progress changes nothing:
    from any state whose [is_dragging] flag is down (the state at startup,
    and the state after every release), any sequence of motion events
    succeeds and leaves the state as it was, history included. *)
Theorem hover_is_inert audio motions st :
  is_dragging st = false ->
  Forall (fun e => is_motion e.2) motions ->
  run audio motions st = Ok st
  ∧ is_dragging (on_release st) = false
  ∧ run audio motions (on_release st) = Ok (on_release st).
Proof.
  assert (Hrun : ∀ s, is_dragging s = false ->
            Forall (fun e => is_motion e.2) motions ->
            run audio motions s = Ok s).
  { intros s Hup Hevs.
    induction motions as [|[fc ev] motions IH]; [done|].
    apply Forall_cons in Hevs as [Hev Hevs].
    destruct ev as [|inaxes x y| |]; try done.
    cbn [run handle]. unfold on_motion. rewrite Hup. cbn. by apply IH. }
  intros Hup Hevs. split; [by apply Hrun|]. split; [done|]. by apply Hrun.
Qed.

Lemma hover_is_inert_witness :
  let st := startup true 7 12 (fun _ => true) in
  let motions :=
    [(Some 1%nat, motion_notify true (hex_position 3 7).1 (hex_position 3 7).2);
     (None, motion_notify false (hex_position 0 0).1 (hex_position 0 0).2)] in
  run true motions st = Ok st
  ∧ is_dragging (on_release st) = false
  ∧ run true motions (on_release st) = Ok (on_release st).
Proof.
  apply (hover_is_inert true).
  - reflexivity.
  - repeat constructor.
Defined.
